(** * Library catalog on two red-black trees: model and verification

    Shallow embedding of [library_catalog.py].

    - [RBNode] objects live in an arena ([list RBNode]); a reference to a
      node is its index, and the single sentinel [self.NIL] is index 0.
      Field reads and writes are lookups and in-place updates of the arena,
      so aliasing through parent and child links is modelled as it is in
      the source.
    - Every [while] loop and the recursive generator [_inorder] become a
      [Fixpoint] on a fuel argument; the public operations supply the arena
      size as fuel and return [None] when fuel runs out or when a key that
      is Python's [None] is compared.
    - Keys are generic over a decidable strict order, as Python's [<], [>],
      [==] are on [int] and on [(str, int)] tuples. *)

From Stdlib Require Import ZArith String Ascii Lia.
From stdpp Require Import base option list strings.

Open Scope Z_scope.
Open Scope nat_scope.

(** ** Keys *)

(** [key_ltb a b] is Python's [a < b]; [a > b] is [key_ltb b a], [a == b]
    is decidable equality, and [a >= b] is [negb (key_ltb a b)], which on
    the totally ordered key types of the program is what [>=] returns. *)
Class KeyOrd (K : Type) := {
  key_eq_dec :: EqDecision K;
  key_ltb : K → K → bool
}.

Class KeyOrdLaws (K : Type) `{KeyOrd K} := {
  key_ltb_irrefl : ∀ a : K, key_ltb a a = false;
  key_ltb_trans : ∀ a b c : K, key_ltb a b = true → key_ltb b c = true → key_ltb a c = true;
  key_ltb_total : ∀ a b : K, key_ltb a b = false → key_ltb b a = false → a = b
}.

Definition key_geb {K} `{KeyOrd K} (a b : K) : bool := negb (key_ltb a b).

(** ** Red-black tree nodes and the arena *)

Inductive Color := RED | BLACK.

Global Instance Color_eq_dec : EqDecision Color.
Proof. solve_decision. Defined.

Definition is_red (c : Color) : bool :=
  match c with RED => true | BLACK => false end.

Abbreviation ptr := nat (only parsing).
Definition NIL : ptr := 0.

Section RBTree.
Context {K V : Type} `{KeyOrd K}.

(** [RBNode.__slots__ = (key, value, left, right, parent, color)];
    [key] and [value] are [None] for the sentinel. *)
Record RBNode := mkRBNode {
  n_key : option K;
  n_value : option V;
  n_left : ptr;
  n_right : ptr;
  n_parent : ptr;
  n_color : Color
}.

Record RBTree := mkRBTree {
  heap : list RBNode;
  root : ptr
}.

(** [RBTree.__init__]: one sentinel, linked to itself, coloured BLACK. *)
Definition sentinel : RBNode := mkRBNode None None NIL NIL NIL BLACK.
Definition RBTree_init : RBTree := mkRBTree [sentinel] NIL.

(** Field reads [x.f]. *)
Definition key_of (T : RBTree) (x : ptr) : option K := heap T !! x ≫= n_key.
Definition value_of (T : RBTree) (x : ptr) : option V := heap T !! x ≫= n_value.
Definition left_of (T : RBTree) (x : ptr) : ptr := from_option n_left NIL (heap T !! x).
Definition right_of (T : RBTree) (x : ptr) : ptr := from_option n_right NIL (heap T !! x).
Definition parent_of (T : RBTree) (x : ptr) : ptr := from_option n_parent NIL (heap T !! x).
Definition color_of (T : RBTree) (x : ptr) : Color := from_option n_color BLACK (heap T !! x).

(** Field writes [x.f = v]. *)
Definition upd (f : RBNode → RBNode) (x : ptr) (T : RBTree) : RBTree :=
  mkRBTree (alter f x (heap T)) (root T).

Definition with_value (v : option V) (n : RBNode) : RBNode :=
  mkRBNode (n_key n) v (n_left n) (n_right n) (n_parent n) (n_color n).
Definition with_left (p : ptr) (n : RBNode) : RBNode :=
  mkRBNode (n_key n) (n_value n) p (n_right n) (n_parent n) (n_color n).
Definition with_right (p : ptr) (n : RBNode) : RBNode :=
  mkRBNode (n_key n) (n_value n) (n_left n) p (n_parent n) (n_color n).
Definition with_parent (p : ptr) (n : RBNode) : RBNode :=
  mkRBNode (n_key n) (n_value n) (n_left n) (n_right n) p (n_color n).
Definition with_color (c : Color) (n : RBNode) : RBNode :=
  mkRBNode (n_key n) (n_value n) (n_left n) (n_right n) (n_parent n) c.

Definition set_value (T : RBTree) (x : ptr) (v : V) : RBTree := upd (with_value (Some v)) x T.
Definition set_left (T : RBTree) (x p : ptr) : RBTree := upd (with_left p) x T.
Definition set_right (T : RBTree) (x p : ptr) : RBTree := upd (with_right p) x T.
Definition set_parent (T : RBTree) (x p : ptr) : RBTree := upd (with_parent p) x T.
Definition set_color (T : RBTree) (x : ptr) (c : Color) : RBTree := upd (with_color c) x T.
Definition set_root (T : RBTree) (p : ptr) : RBTree := mkRBTree (heap T) p.

(** [RBNode(...)]: a new object gets the next free index. *)
Definition alloc (T : RBTree) (n : RBNode) : RBTree * ptr :=
  (mkRBTree (heap T ++ [n]) (root T), length (heap T)).

(** *** Rotations *)

Definition _left_rotate (T : RBTree) (x : ptr) : RBTree :=
  let y := right_of T x in
  let T := set_right T x (left_of T y) in
  let T := if negb (left_of T y =? NIL) then set_parent T (left_of T y) x else T in
  let T := set_parent T y (parent_of T x) in
  let T :=
    if parent_of T x =? NIL then set_root T y
    else if x =? left_of T (parent_of T x) then set_left T (parent_of T x) y
    else set_right T (parent_of T x) y in
  let T := set_left T y x in
  set_parent T x y.

Definition _right_rotate (T : RBTree) (x : ptr) : RBTree :=
  let y := left_of T x in
  let T := set_left T x (right_of T y) in
  let T := if negb (right_of T y =? NIL) then set_parent T (right_of T y) x else T in
  let T := set_parent T y (parent_of T x) in
  let T :=
    if parent_of T x =? NIL then set_root T y
    else if x =? right_of T (parent_of T x) then set_right T (parent_of T x) y
    else set_left T (parent_of T x) y in
  let T := set_right T y x in
  set_parent T x y.

(** *** Insertion *)

(** One iteration of the [while z.parent.color == RED] loop; returns the
    tree and the new [z]. *)
Definition _insert_fixup_body (T : RBTree) (z : ptr) : RBTree * ptr :=
  if parent_of T z =? left_of T (parent_of T (parent_of T z)) then
    let y := right_of T (parent_of T (parent_of T z)) in
    if is_red (color_of T y) then
      let T := set_color T (parent_of T z) BLACK in
      let T := set_color T y BLACK in
      let T := set_color T (parent_of T (parent_of T z)) RED in
      (T, parent_of T (parent_of T z))
    else
      let '(T, z) :=
        if z =? right_of T (parent_of T z) then
          let z := parent_of T z in (_left_rotate T z, z)
        else (T, z) in
      let T := set_color T (parent_of T z) BLACK in
      let T := set_color T (parent_of T (parent_of T z)) RED in
      (_right_rotate T (parent_of T (parent_of T z)), z)
  else
    let y := left_of T (parent_of T (parent_of T z)) in
    if is_red (color_of T y) then
      let T := set_color T (parent_of T z) BLACK in
      let T := set_color T y BLACK in
      let T := set_color T (parent_of T (parent_of T z)) RED in
      (T, parent_of T (parent_of T z))
    else
      let '(T, z) :=
        if z =? left_of T (parent_of T z) then
          let z := parent_of T z in (_right_rotate T z, z)
        else (T, z) in
      let T := set_color T (parent_of T z) BLACK in
      let T := set_color T (parent_of T (parent_of T z)) RED in
      (_left_rotate T (parent_of T (parent_of T z)), z).

Fixpoint _insert_fixup (fuel : nat) (T : RBTree) (z : ptr) : option RBTree :=
  match fuel with
  | O => None
  | S fuel =>
    if is_red (color_of T (parent_of T z)) then
      let '(T, z) := _insert_fixup_body T z in
      _insert_fixup fuel T z
    else Some (set_color T (root T) BLACK)
  end.

(** The descent of [insert]: [inl x] when the key is found at [x] (the
    early [return x]), [inr y] when the loop ends with last node [y]. *)
Fixpoint insert_descend (fuel : nat) (T : RBTree) (k : K) (y x : ptr) : option (ptr + ptr) :=
  match fuel with
  | O => None
  | S fuel =>
    if x =? NIL then Some (inr y)
    else
      kx ← key_of T x;
      if key_ltb k kx then insert_descend fuel T k x (left_of T x)
      else if key_ltb kx k then insert_descend fuel T k x (right_of T x)
      else Some (inl x)
  end.

(** [insert(key, value)] returns the node that holds the key.  The
    [RBNode] built on entry is a local until it is linked under [y]; on the
    replacement path it is dropped, so the arena, which records the objects
    that were linked into the tree, allocates it after the descent. *)
Definition insert (T : RBTree) (k : K) (v : V) : option (RBTree * ptr) :=
  r ← insert_descend (length (heap T)) T k NIL (root T);
  match r with
  | inl x => Some (set_value T x v, x)
  | inr y =>
    let '(T, node) := alloc T (mkRBNode (Some k) (Some v) NIL NIL NIL RED) in
    let T := set_parent T node y in
    T ← (if y =? NIL then Some (set_root T node)
         else ky ← key_of T y;
              Some (if key_ltb k ky then set_left T y node else set_right T y node));
    T ← _insert_fixup (length (heap T)) T node;
    Some (T, node)
  end.

(** *** Lookup *)

(** [search_node]: the inner option is the Python result ([None] or a node). *)
Fixpoint search_loop (fuel : nat) (T : RBTree) (k : K) (x : ptr) : option (option ptr) :=
  match fuel with
  | O => None
  | S fuel =>
    if x =? NIL then Some None
    else
      kx ← key_of T x;
      if bool_decide (k = kx) then Some (Some x)
      else if key_ltb k kx then search_loop fuel T k (left_of T x)
      else search_loop fuel T k (right_of T x)
  end.

Definition search_node (T : RBTree) (k : K) : option (option ptr) :=
  search_loop (length (heap T)) T k (root T).

Definition search (T : RBTree) (k : K) : option (option V) :=
  n ← search_node T k;
  Some (match n with Some x => value_of T x | None => None end).

Fixpoint _minimum (fuel : nat) (T : RBTree) (x : ptr) : option ptr :=
  match fuel with
  | O => None
  | S fuel =>
    if negb (left_of T x =? NIL) then _minimum fuel T (left_of T x) else Some x
  end.

Fixpoint successor_up (fuel : nat) (T : RBTree) (x y : ptr) : option (option ptr) :=
  match fuel with
  | O => None
  | S fuel =>
    if negb (y =? NIL) && (x =? right_of T y) then successor_up fuel T y (parent_of T y)
    else Some (if negb (y =? NIL) then Some y else None)
  end.

Definition _successor (T : RBTree) (x : ptr) : option (option ptr) :=
  if negb (right_of T x =? NIL) then
    m ← _minimum (length (heap T)) T (right_of T x); Some (Some m)
  else successor_up (length (heap T)) T x (parent_of T x).

(** *** Deletion *)

Definition _transplant (T : RBTree) (u v : ptr) : RBTree :=
  let T :=
    if parent_of T u =? NIL then set_root T v
    else if u =? left_of T (parent_of T u) then set_left T (parent_of T u) v
    else set_right T (parent_of T u) v in
  set_parent T v (parent_of T u).

(** One iteration of the [while x != self.root and x.color == BLACK] loop. *)
Definition _delete_fixup_body (T : RBTree) (x : ptr) : RBTree * ptr :=
  if x =? left_of T (parent_of T x) then
    let w := right_of T (parent_of T x) in
    let '(T, w) :=
      if is_red (color_of T w) then
        let T := set_color T w BLACK in
        let T := set_color T (parent_of T x) RED in
        let T := _left_rotate T (parent_of T x) in
        (T, right_of T (parent_of T x))
      else (T, w) in
    if negb (is_red (color_of T (left_of T w))) && negb (is_red (color_of T (right_of T w))) then
      let T := set_color T w RED in
      (T, parent_of T x)
    else
      let '(T, w) :=
        if negb (is_red (color_of T (right_of T w))) then
          let T := set_color T (left_of T w) BLACK in
          let T := set_color T w RED in
          let T := _right_rotate T w in
          (T, right_of T (parent_of T x))
        else (T, w) in
      let T := set_color T w (color_of T (parent_of T x)) in
      let T := set_color T (parent_of T x) BLACK in
      let T := set_color T (right_of T w) BLACK in
      let T := _left_rotate T (parent_of T x) in
      (T, root T)
  else
    let w := left_of T (parent_of T x) in
    let '(T, w) :=
      if is_red (color_of T w) then
        let T := set_color T w BLACK in
        let T := set_color T (parent_of T x) RED in
        let T := _right_rotate T (parent_of T x) in
        (T, left_of T (parent_of T x))
      else (T, w) in
    if negb (is_red (color_of T (right_of T w))) && negb (is_red (color_of T (left_of T w))) then
      let T := set_color T w RED in
      (T, parent_of T x)
    else
      let '(T, w) :=
        if negb (is_red (color_of T (left_of T w))) then
          let T := set_color T (right_of T w) BLACK in
          let T := set_color T w RED in
          let T := _left_rotate T w in
          (T, left_of T (parent_of T x))
        else (T, w) in
      let T := set_color T w (color_of T (parent_of T x)) in
      let T := set_color T (parent_of T x) BLACK in
      let T := set_color T (left_of T w) BLACK in
      let T := _right_rotate T (parent_of T x) in
      (T, root T).

Fixpoint _delete_fixup (fuel : nat) (T : RBTree) (x : ptr) : option RBTree :=
  match fuel with
  | O => None
  | S fuel =>
    if negb (x =? root T) && negb (is_red (color_of T x)) then
      let '(T, x) := _delete_fixup_body T x in
      _delete_fixup fuel T x
    else Some (set_color T x BLACK)
  end.

Definition delete (T : RBTree) (k : K) : option (RBTree * bool) :=
  z_node ← search_node T k;
  match z_node with
  | None => Some (T, false)
  | Some z =>
    let y_original_color := color_of T z in
    r ← (if left_of T z =? NIL then
           let x := right_of T z in
           Some (_transplant T z (right_of T z), x, y_original_color)
         else if right_of T z =? NIL then
           let x := left_of T z in
           Some (_transplant T z (left_of T z), x, y_original_color)
         else
           y ← _minimum (length (heap T)) T (right_of T z);
           let y_original_color := color_of T y in
           let x := right_of T y in
           let T :=
             if parent_of T y =? z then set_parent T x y
             else
               let T := _transplant T y (right_of T y) in
               let T := set_right T y (right_of T z) in
               set_parent T (right_of T y) y in
           let T := _transplant T z y in
           let T := set_left T y (left_of T z) in
           let T := set_parent T (left_of T y) y in
           let T := set_color T y (color_of T z) in
           Some (T, x, y_original_color));
    let '(T, x, y_original_color) := r in
    T ← (if negb (is_red y_original_color) then _delete_fixup (S (length (heap T))) T x
         else Some T);
    Some (T, true)
  end.

(** *** Traversal and range anchor *)

Fixpoint _inorder (fuel : nat) (T : RBTree) (node : ptr) : option (list (K * V)) :=
  match fuel with
  | O => None
  | S fuel =>
    if negb (node =? NIL) then
      l ← _inorder fuel T (left_of T node);
      k ← key_of T node;
      v ← value_of T node;
      r ← _inorder fuel T (right_of T node);
      Some (l ++ (k, v) :: r)
    else Some []
  end.

Definition inorder (T : RBTree) : option (list (K * V)) :=
  _inorder (length (heap T)) T (root T).

Fixpoint lower_bound_loop (fuel : nat) (T : RBTree) (k : K) (x : ptr) (lb : option ptr)
    : option (option ptr) :=
  match fuel with
  | O => None
  | S fuel =>
    if negb (x =? NIL) then
      kx ← key_of T x;
      if key_geb kx k then lower_bound_loop fuel T k (left_of T x) (Some x)
      else lower_bound_loop fuel T k (right_of T x) lb
    else Some lb
  end.

Definition lower_bound_node (T : RBTree) (k : K) : option (option ptr) :=
  lower_bound_loop (length (heap T)) T k (root T) None.

Definition size (T : RBTree) : option nat := length <$> inorder T.

End RBTree.

Arguments RBNode : clear implicits.
Arguments RBTree : clear implicits.

(** ** Key types of the two indices *)

(** [int] keys of [by_id]. *)
Global Instance Z_KeyOrd : KeyOrd Z := {| key_ltb := Z.ltb |}.

(** [str] comparison: lexicographic on character codes. *)
Fixpoint string_ltb (s1 s2 : string) : bool :=
  match s1, s2 with
  | EmptyString, EmptyString => false
  | EmptyString, String _ _ => true
  | String _ _, EmptyString => false
  | String a s1', String b s2' =>
    if (N_of_ascii a <? N_of_ascii b)%N then true
    else if (N_of_ascii b <? N_of_ascii a)%N then false
    else string_ltb s1' s2'
  end.

(** Tuple comparison [(t1, i1) < (t2, i2)]: the first components decide
    unless they are equal. *)
Definition title_key : Type := string * Z.

Definition title_key_ltb (a b : title_key) : bool :=
  if bool_decide (a.1 = b.1) then (a.2 <? b.2)%Z else string_ltb a.1 b.1.

Global Instance title_key_KeyOrd : KeyOrd title_key := {| key_ltb := title_key_ltb |}.

(** ** Strings

    A [str] is modelled by its UTF-8 bytes: the order of two texts by code
    points is the order of their UTF-8 bytes, and one text starts with
    another exactly when its bytes start with the bytes of the other, so
    [string_ltb] and [startswith] are the comparisons of the source.

    [str.lower()] folds every cased code point, and [int(str)] reads signs,
    blanks, underscores and the digits of every script; neither is defined
    here.  Both are taken as given ([lower], [int_of_str]), with the one
    fact about [str.lower()] that the examples use: on text made of ASCII
    characters only, it turns A-Z into a-z and leaves the rest. *)
Definition lower_ascii (c : ascii) : ascii :=
  let n := N_of_ascii c in
  if ((65 <=? n) && (n <=? 90))%N then ascii_of_N (n + 32) else c.

Fixpoint ascii_lower (s : string) : string :=
  match s with
  | EmptyString => EmptyString
  | String c s' => String (lower_ascii c) (ascii_lower s')
  end.

Fixpoint ascii_only (s : string) : bool :=
  match s with
  | EmptyString => true
  | String c s' => (N_of_ascii c <? 128)%N && ascii_only s'
  end.

Class PyStr := {
  lower : string → string;
  int_of_str : string → option Z;
  lower_ascii_only : ∀ s, ascii_only s = true → lower s = ascii_lower s
}.

(** An instance to run the examples with: [lower] on all bytes as on
    ASCII text, and [int] of plain decimal numerals with an optional
    sign. *)
Definition digit_of_ascii (c : ascii) : option Z :=
  let n := N_of_ascii c in
  if ((48 <=? n) && (n <=? 57))%N then Some (Z.of_N n - 48)%Z else None.

Fixpoint digits_value (acc : Z) (s : string) : option Z :=
  match s with
  | EmptyString => Some acc
  | String c s' =>
    match digit_of_ascii c with
    | Some d => digits_value (10 * acc + d)%Z s'
    | None => None
    end
  end.

Definition decimal_of_str (s : string) : option Z :=
  match s with
  | EmptyString => None
  | String c s' =>
    if bool_decide (c = "-"%char) then
      match s' with
      | EmptyString => None
      | String _ _ => Z.opp <$> digits_value 0 s'
      end
    else digits_value 0 s
  end.

Definition ascii_PyStr : PyStr :=
  {| lower := ascii_lower;
     int_of_str := decimal_of_str;
     lower_ascii_only := λ s _, eq_refl |}.

(** [str.startswith]. *)
Definition startswith (s p : string) : bool := String.prefix p s.

(** [sys.maxsize] of a 64-bit CPython. *)
Definition sys_maxsize : Z := 2 ^ 63 - 1.

(** ** Book model *)

Record Book := mkBook {
  book_id : Z;
  title : string;
  author : string;
  year : Z;
  copies : Z
}.

Global Instance Book_eq_dec : EqDecision Book.
Proof. solve_decision. Defined.

(** ** Library catalog *)

Record LibraryCatalog := mkCatalog {
  by_id : RBTree Z Book;
  by_title : RBTree title_key Book
}.

Definition LibraryCatalog_init : LibraryCatalog := mkCatalog RBTree_init RBTree_init.

Inductive add_status := inserted | updated.

Section CatalogOps.
Context {pystr : PyStr}.

(** The keys of the title tree whose second component is [id]
    ([to_delete] of [_remove_title_nodes_for_id]). *)
Definition title_keys_for_id (l : list (title_key * Book)) (id : Z) : list title_key :=
  (filter (λ k : title_key, k.2 = id) l.*1).

Fixpoint delete_all (T : RBTree title_key Book) (ks : list title_key)
    : option (RBTree title_key Book) :=
  match ks with
  | [] => Some T
  | k :: ks => r ← delete T k; delete_all r.1 ks
  end.

Definition _remove_title_nodes_for_id (C : LibraryCatalog) (id : Z) : option LibraryCatalog :=
  l ← inorder (by_title C);
  T ← delete_all (by_title C) (title_keys_for_id l id);
  Some (mkCatalog (by_id C) T).

Definition add_book (C : LibraryCatalog) (book : Book) : option (LibraryCatalog * add_status) :=
  existing ← search_node (by_id C) (book_id book);
  match existing with
  | Some x =>
    let C := mkCatalog (set_value (by_id C) x book) (by_title C) in
    C ← _remove_title_nodes_for_id C (book_id book);
    let key := (lower (title book), book_id book) in
    r ← insert (by_title C) key book;
    Some (mkCatalog (by_id C) r.1, updated)
  | None =>
    r1 ← insert (by_id C) (book_id book) book;
    let key := (lower (title book), book_id book) in
    r2 ← insert (by_title C) key book;
    Some (mkCatalog r1.1 r2.1, inserted)
  end.

Definition delete_by_id (C : LibraryCatalog) (id : Z) : option (LibraryCatalog * bool) :=
  book_node ← search_node (by_id C) id;
  match book_node with
  | None => Some (C, false)
  | Some x =>
    book ← value_of (by_id C) x;
    r1 ← delete (by_id C) id;
    let title_key := (lower (title book), book_id book) in
    r2 ← delete (by_title C) title_key;
    Some (mkCatalog r1.1 r2.1, true)
  end.

Definition search_by_id (C : LibraryCatalog) (id : Z) : option (option Book) :=
  search (by_id C) id.

(** The [while node:] walk shared by the two title searches; [continue_]
    is the test on [key[0]]. *)
Fixpoint title_scan (fuel : nat) (T : RBTree title_key Book) (continue_ : string → bool)
    (node : option ptr) (res : list Book) : option (list Book) :=
  match fuel with
  | O => None
  | S fuel =>
    match node with
    | Some x =>
      key ← key_of T x;
      if continue_ key.1 then
        v ← value_of T x;
        node ← _successor T x;
        title_scan fuel T continue_ node (res ++ [v])
      else Some res
    | None => Some res
    end
  end.

Definition search_by_title_exact (C : LibraryCatalog) (t : string) : option (list Book) :=
  let tkey := lower t in
  let lb_key := (tkey, - sys_maxsize)%Z in
  node ← lower_bound_node (by_title C) lb_key;
  title_scan (length (heap (by_title C))) (by_title C)
    (λ s, bool_decide (s = tkey)) node [].

Definition search_by_title_prefix (C : LibraryCatalog) (prefix : string) : option (list Book) :=
  let p := lower prefix in
  let lb_key := (p, - sys_maxsize)%Z in
  node ← lower_bound_node (by_title C) lb_key;
  title_scan (length (heap (by_title C))) (by_title C)
    (λ s, startswith s p) node [].

Definition list_all_by_id (C : LibraryCatalog) : option (list Book) :=
  l ← inorder (by_id C); Some l.*2.

Definition list_all_by_title (C : LibraryCatalog) : option (list Book) :=
  l ← inorder (by_title C); Some l.*2.

(** The reset done by [load_from_file] and by the [/clear] route. *)
Definition clear (C : LibraryCatalog) : LibraryCatalog := LibraryCatalog_init.

End CatalogOps.


(** * Verification of the tree *)

(** ** The order on keys *)

Section KeyOrder.
Context {K : Type} `{KeyOrdLaws K}.

Definition klt (a b : K) : Prop := key_ltb a b = true.

Lemma klt_irrefl a : ¬ klt a a.
Proof. unfold klt. rewrite key_ltb_irrefl. discriminate. Qed.

Lemma klt_trans a b c : klt a b → klt b c → klt a c.
Proof. apply key_ltb_trans. Qed.

Lemma klt_asym a b : klt a b → ¬ klt b a.
Proof. intros H1 H2. exact (klt_irrefl a (klt_trans _ _ _ H1 H2)). Qed.

Lemma klt_ne a b : klt a b → a ≠ b.
Proof. intros Hlt ->. exact (klt_irrefl b Hlt). Qed.

Lemma key_ltb_false_iff a b : key_ltb a b = false ↔ a = b ∨ klt b a.
Proof.
  split.
  - intros Hab. destruct (key_ltb b a) eqn:Hba; [by right|].
    left. by apply key_ltb_total.
  - intros [-> | Hba]; [apply key_ltb_irrefl|].
    destruct (key_ltb a b) eqn:Hab; [|done].
    destruct (klt_asym _ _ Hab Hba).
Qed.

Lemma key_trichotomy a b : klt a b ∨ a = b ∨ klt b a.
Proof.
  destruct (key_ltb a b) eqn:Hab; [by left|].
  right. by apply key_ltb_false_iff.
Qed.

End KeyOrder.

(** ** Abstract trees, zippers and their arena cells *)

Section Abstraction.
Context {K V : Type} `{KeyOrd K}.

Abbreviation RBNode := (RBNode K V).
Abbreviation RBTree := (RBTree K V).

(** The tree an arena represents: every node carries its address. *)
Inductive tree :=
| E
| N (c : Color) (l : tree) (a : ptr) (k : K) (v : V) (r : tree).

Definition addr (t : tree) : ptr :=
  match t with E => NIL | N _ _ a _ _ _ => a end.

Definition col (t : tree) : Color :=
  match t with E => BLACK | N c _ _ _ _ _ => c end.

Fixpoint elements (t : tree) : list (K * V) :=
  match t with
  | E => []
  | N _ l _ k v r => elements l ++ (k, v) :: elements r
  end.

Fixpoint tsize (t : tree) : nat :=
  match t with
  | E => 0
  | N _ l _ _ _ r => S (tsize l + tsize r)
  end.

(** One step of a path from a node up to the root: the node at [a] with
    the hole as its left ([FL]) or right ([FR]) child. *)
Inductive frame :=
| FL (c : Color) (a : ptr) (k : K) (v : V) (r : tree)
| FR (c : Color) (l : tree) (a : ptr) (k : K) (v : V).

(** A context lists the frames from the hole upwards. *)
Definition ctx := list frame.

Definition fill (f : frame) (t : tree) : tree :=
  match f with
  | FL c a k v r => N c t a k v r
  | FR c l a k v => N c l a k v t
  end.

Fixpoint plug (c : ctx) (t : tree) : tree :=
  match c with
  | [] => t
  | f :: up => plug up (fill f t)
  end.

Definition faddr (f : frame) : ptr :=
  match f with FL _ a _ _ _ => a | FR _ _ a _ _ => a end.

Definition fcol (f : frame) : Color :=
  match f with FL c _ _ _ _ => c | FR c _ _ _ _ => c end.

Definition fsib (f : frame) : tree :=
  match f with FL _ _ _ _ r => r | FR _ l _ _ _ => l end.

(** Address of the hole's parent; [top] is the parent of the outermost frame. *)
Definition caddr (c : ctx) (top : ptr) : ptr :=
  match c with [] => top | f :: _ => faddr f end.

(** Address of the root of [plug c t], given the address of [t]. *)
Fixpoint croot (c : ctx) (child : ptr) : ptr :=
  match c with
  | [] => child
  | f :: up => croot up (faddr f)
  end.

Abbreviation cell := (ptr * RBNode)%type (only parsing).

Definition nilcell (np : ptr) : cell := (NIL, mkRBNode None None NIL NIL np BLACK).

Fixpoint cells (t : tree) (par : ptr) : list cell :=
  match t with
  | E => []
  | N c l a k v r =>
    (a, mkRBNode (Some k) (Some v) (addr l) (addr r) par c) :: cells l a ++ cells r a
  end.

Definition fcell (f : frame) (child par : ptr) : cell :=
  match f with
  | FL c a k v r => (a, mkRBNode (Some k) (Some v) child (addr r) par c)
  | FR c l a k v => (a, mkRBNode (Some k) (Some v) (addr l) child par c)
  end.

Fixpoint ccells (c : ctx) (child top : ptr) : list cell :=
  match c with
  | [] => []
  | f :: up =>
    fcell f child (caddr up top) :: cells (fsib f) (faddr f) ++ ccells up (faddr f) top
  end.

(** [sat h L]: the arena [h] holds the cells [L], at distinct addresses. *)
Definition sat (h : list RBNode) (L : list cell) : Prop :=
  NoDup L.*1 ∧ Forall (λ c : cell, h !! c.1 = Some c.2) L.

(** [Rep T np c t]: the arena of [T] holds the tree [plug c t], seen from
    the subtree [t] in context [c]; [np] is the current value of the
    sentinel's parent field, which [delete] uses as scratch space. *)
Definition Rep (T : RBTree) (np : ptr) (c : ctx) (t : tree) : Prop :=
  root T = croot c (addr t) ∧
  sat (heap T) (nilcell np :: cells t (caddr c NIL) ++ ccells c (addr t) NIL).

Global Instance sat_perm h : Proper ((≡ₚ) ==> iff) (sat h).
Proof.
  intros L1 L2 HL. unfold sat. by rewrite HL.
Qed.

Lemma sat_lookup h L a n : sat h L → [(a, n)] ⊆+ L → h !! a = Some n.
Proof.
  intros [_ Hall] Hin. rewrite Forall_forall in Hall.
  apply (Hall (a, n)). eapply elem_of_submseteq; [|exact Hin]. by left.
Qed.

Lemma sat_alter f a n h L L' :
  sat h L → L ≡ₚ (a, n) :: L' → sat (alter f a h) ((a, f n) :: L').
Proof.
  intros Hs Hp. rewrite Hp in Hs. destruct Hs as [Hnd Hall].
  rewrite fmap_cons, NoDup_cons in Hnd. destruct Hnd as [Hnotin Hnd].
  rewrite Forall_cons in Hall. destruct Hall as [Ha Hall].
  split.
  - rewrite fmap_cons, NoDup_cons. done.
  - rewrite Forall_cons. split.
    + simpl in *. by rewrite list_lookup_alter_eq, Ha.
    + rewrite Forall_forall in Hall |- *. intros [b m] Hb. simpl.
      rewrite list_lookup_alter_ne; [by apply (Hall (b, m))|].
      intros ->. apply Hnotin. simpl. apply list_elem_of_fmap. by exists (b, m).
Qed.

Lemma sat_alloc n h L : sat h L → sat (h ++ [n]) ((length h, n) :: L).
Proof.
  intros [Hnd Hall]. rewrite Forall_forall in Hall. split.
  - rewrite fmap_cons, NoDup_cons. split; [|done].
    intros Hin. apply list_elem_of_fmap in Hin as [[b m] [Hb Hin]].
    simpl in Hb. subst b. apply Hall, lookup_lt_Some in Hin. simpl in Hin. lia.
  - rewrite Forall_cons. split.
    + simpl. by rewrite lookup_app_r, Nat.sub_diag.
    + rewrite Forall_forall. intros c Hc. apply lookup_app_l_Some. by apply Hall.
Qed.


Lemma sat_ne h L a n b m : sat h L → [(a, n); (b, m)] ⊆+ L → a ≠ b.
Proof.
  intros [Hnd _] Hsub. apply (fmap_submseteq fst) in Hsub.
  apply submseteq_Permutation in Hsub as [k Hk]. rewrite Hk in Hnd.
  apply NoDup_app in Hnd as [Hnd _].
  rewrite !fmap_cons, NoDup_cons in Hnd. destruct Hnd as [Hnotin _].
  intros ->. apply Hnotin. by left.
Qed.

Lemma sat_permute h L L' : sat h L → L ≡ₚ L' → sat h L'.
Proof. intros Hs Hp. by rewrite <- Hp. Qed.

(** Cells may be forgotten: a node unlinked from the tree stays in the
    arena but is no longer described. *)
Lemma sat_sub h L L' : sat h L → L' ⊆+ L → sat h L'.
Proof.
  intros Hs Hsub. apply submseteq_Permutation in Hsub as [k Hk].
  rewrite Hk in Hs. destruct Hs as [Hnd Hall]. split.
  - rewrite fmap_app in Hnd. by apply NoDup_app in Hnd as [? _].
  - by apply Forall_app in Hall as [? _].
Qed.

Lemma sat_length h L : sat h L → length L ≤ length h.
Proof.
  intros [Hnd Hall].
  rewrite <- (length_fmap fst L), <- (length_seq (length h) 0).
  apply NoDup_incl_length; [by apply NoDup_ListNoDup|].
  intros a Ha. apply list_elem_of_In in Ha. apply list_elem_of_In, elem_of_seq.
  apply list_elem_of_fmap in Ha as [c [-> Hc]].
  rewrite Forall_forall in Hall. apply Hall, lookup_lt_Some in Hc. lia.
Qed.

(** Field reads and writes against a cell list. *)
Section ReadWrite.
Implicit Types (T : RBTree) (L : list cell).

Lemma sat_lookup_elem T L a n : sat (heap T) L → (a, n) ∈ L → heap T !! a = Some n.
Proof.
  intros [_ Hall] Hin. rewrite Forall_forall in Hall. exact (Hall (a, n) Hin).
Qed.

Lemma key_of_sat T L a n : sat (heap T) L → (a, n) ∈ L → key_of T a = n_key n.
Proof. intros Hs Hin. unfold key_of. by rewrite (sat_lookup_elem _ _ _ _ Hs Hin). Qed.
Lemma value_of_sat T L a n : sat (heap T) L → (a, n) ∈ L → value_of T a = n_value n.
Proof. intros Hs Hin. unfold value_of. by rewrite (sat_lookup_elem _ _ _ _ Hs Hin). Qed.
Lemma left_of_sat T L a n : sat (heap T) L → (a, n) ∈ L → left_of T a = n_left n.
Proof. intros Hs Hin. unfold left_of. by rewrite (sat_lookup_elem _ _ _ _ Hs Hin). Qed.
Lemma right_of_sat T L a n : sat (heap T) L → (a, n) ∈ L → right_of T a = n_right n.
Proof. intros Hs Hin. unfold right_of. by rewrite (sat_lookup_elem _ _ _ _ Hs Hin). Qed.
Lemma parent_of_sat T L a n : sat (heap T) L → (a, n) ∈ L → parent_of T a = n_parent n.
Proof. intros Hs Hin. unfold parent_of. by rewrite (sat_lookup_elem _ _ _ _ Hs Hin). Qed.
Lemma color_of_sat T L a n : sat (heap T) L → (a, n) ∈ L → color_of T a = n_color n.
Proof. intros Hs Hin. unfold color_of. by rewrite (sat_lookup_elem _ _ _ _ Hs Hin). Qed.

Lemma sat_ne_elem h L a n b m L' : sat h L → L ≡ₚ (a, n) :: L' → (b, m) ∈ L' → a ≠ b.
Proof.
  intros Hs Hp Hin. rewrite Hp in Hs. destruct Hs as [Hnd _].
  rewrite fmap_cons, NoDup_cons in Hnd. destruct Hnd as [Hnotin _].
  intros ->. apply Hnotin. apply list_elem_of_fmap. by exists (b, m).
Qed.

(** Moving one cell to the front, along the structure of the list. *)
Lemma perm_front_skip (x c : cell) R R' : R ≡ₚ x :: R' → c :: R ≡ₚ x :: c :: R'.
Proof. intros ->. apply Permutation_swap. Qed.
Lemma perm_front_app_l (x : cell) A A' R : A ≡ₚ x :: A' → A ++ R ≡ₚ x :: A' ++ R.
Proof. by intros ->. Qed.
Lemma perm_front_app_r (x : cell) A R R' : R ≡ₚ x :: R' → A ++ R ≡ₚ x :: A ++ R'.
Proof. intros ->. by rewrite Permutation_middle. Qed.

Lemma sat_upd f T L a n L' :
  sat (heap T) L → L ≡ₚ (a, n) :: L' → sat (heap (upd f a T)) ((a, f n) :: L').
Proof. apply sat_alter. Qed.

Lemma length_heap_upd f a T : length (heap (upd f a T)) = length (heap T).
Proof. apply length_alter. Qed.

(** Reads through the root of a subtree that may be empty. *)
Lemma sat_ne_addr h L a n nn t par :
  sat h L → (a, n) :: (NIL, nn) :: cells t par ⊆+ L → a ≠ addr t.
Proof.
  intros Hs Hsub. destruct t as [|co l b k v r]; simpl.
  - eapply sat_ne; [exact Hs|]. etrans; [|exact Hsub]. solve_submseteq.
  - eapply sat_ne; [exact Hs|]. etrans; [|exact Hsub]. simpl. solve_submseteq.
Qed.

Lemma sat_addr_ne h L a n nn t par :
  sat h L → (a, n) :: (NIL, nn) :: cells t par ⊆+ L → addr t ≠ a.
Proof. intros Hs Hsub. apply not_eq_sym. by eapply sat_ne_addr. Qed.

Lemma color_of_addr_sat T L nn t par :
  sat (heap T) L → (NIL, nn) :: cells t par ⊆+ L → n_color nn = BLACK →
  color_of T (addr t) = col t.
Proof.
  intros Hs Hsub Hnn. destruct t as [|co l a k v r]; simpl.
  - rewrite (color_of_sat T L NIL nn Hs); [exact Hnn|].
    eapply elem_of_submseteq; [|exact Hsub]. by left.
  - rewrite (color_of_sat T L a (mkRBNode (Some k) (Some v) (addr l) (addr r) par co) Hs);
      [done|]. eapply elem_of_submseteq; [|exact Hsub]. simpl. right. by left.
Qed.

Lemma parent_of_addr_sat T L nn t par :
  sat (heap T) L → (NIL, nn) :: cells t par ⊆+ L → (t = E → n_parent nn = par) →
  parent_of T (addr t) = par.
Proof.
  intros Hs Hsub Hnn. destruct t as [|co l a k v r]; simpl.
  - rewrite (parent_of_sat T L NIL nn Hs); [by apply Hnn|].
    eapply elem_of_submseteq; [|exact Hsub]. by left.
  - rewrite (parent_of_sat T L a (mkRBNode (Some k) (Some v) (addr l) (addr r) par co) Hs);
      [done|]. eapply elem_of_submseteq; [|exact Hsub]. simpl. right. by left.
Qed.

End ReadWrite.

End Abstraction.

Arguments tree : clear implicits.
Arguments frame : clear implicits.
Arguments ctx : clear implicits.

(** ** Symbolic execution of field reads and writes

    The tactics below run the model one [let] at a time against hypotheses
    [sat (heap T) L] and [root T = r]: a read is rewritten to the field of
    the cell at that address, a write replaces the cell and names the new
    tree, and a pointer comparison is decided from the distinctness of the
    cells. *)

Ltac cell_of a L :=
  lazymatch L with
  | context [ (a, ?n) :: _ ] => n
  end.

Ltac remove_cell a L :=
  lazymatch L with
  | (a, _) :: ?R => R
  | ?c :: ?R => let R' := remove_cell a R in constr:(c :: R')
  | ?A ++ ?R =>
      match A with
      | context [ (a, _) :: _ ] => let A' := remove_cell a A in constr:(A' ++ R)
      | _ => let R' := remove_cell a R in constr:(A ++ R')
      end
  end.

Ltac hsimpl :=
  cbn beta iota delta
    [n_key n_value n_left n_right n_parent n_color fst snd negb andb is_red
     addr col caddr croot faddr fcol fsib
     with_left with_right with_parent with_color with_value].

Ltac hsimpl_in H :=
  unfold nilcell, with_left, with_right, with_parent, with_color, with_value in H;
  cbn beta iota delta
    [n_key n_value n_left n_right n_parent n_color fst snd negb andb is_red
     addr col caddr croot faddr fcol fsib fill plug cells ccells fcell app] in H.

Ltac solve_elem :=
  lazymatch goal with
  | |- ?x ∈ ?x :: _ => apply list_elem_of_here
  | |- _ ∈ _ :: _ => apply list_elem_of_further; solve_elem
  | |- _ ∈ _ ++ _ => apply elem_of_app; first [left; solve_elem | right; solve_elem]
  end.

Ltac solve_front a :=
  lazymatch goal with
  | |- (a, _) :: _ ≡ₚ _ => reflexivity
  | |- _ :: _ ≡ₚ _ => apply perm_front_skip; solve_front a
  | |- ?A ++ _ ≡ₚ _ =>
      match A with
      | context [ (a, _) :: _ ] => apply perm_front_app_l; solve_front a
      | _ => apply perm_front_app_r; solve_front a
      end
  end.

Ltac rd :=
  match goal with
  | Hs : sat (heap ?T) ?L |- context [left_of ?T ?a] =>
      let n := cell_of a L in rewrite (left_of_sat T L a n Hs ltac:(solve_elem))
  | Hs : sat (heap ?T) ?L |- context [right_of ?T ?a] =>
      let n := cell_of a L in rewrite (right_of_sat T L a n Hs ltac:(solve_elem))
  | Hs : sat (heap ?T) ?L |- context [parent_of ?T ?a] =>
      let n := cell_of a L in rewrite (parent_of_sat T L a n Hs ltac:(solve_elem))
  | Hs : sat (heap ?T) ?L |- context [color_of ?T ?a] =>
      let n := cell_of a L in rewrite (color_of_sat T L a n Hs ltac:(solve_elem))
  | Hs : sat (heap ?T) ?L |- context [key_of ?T ?a] =>
      let n := cell_of a L in rewrite (key_of_sat T L a n Hs ltac:(solve_elem))
  | Hs : sat (heap ?T) ?L |- context [value_of ?T ?a] =>
      let n := cell_of a L in rewrite (value_of_sat T L a n Hs ltac:(solve_elem))
  | Hr : root ?T = _ |- context [root ?T] => rewrite Hr
  end.

Ltac cond :=
  match goal with
  | |- context [ ?a =? ?a ] => rewrite (Nat.eqb_refl a)
  | Hs : sat _ ?L |- context [ ?a =? ?b ] =>
      let n := cell_of a L in
      let L' := remove_cell a L in
      let m := cell_of b L' in
      rewrite (proj2 (Nat.eqb_neq a b)
                 (sat_ne_elem _ L a n b m L' Hs ltac:(solve_front a) ltac:(solve_elem)))
  end.

Ltac wr :=
  match goal with
  | Hs : sat (heap ?T) ?L, Hr : root ?T = ?r |- context [upd ?f ?a ?T] =>
      let n := cell_of a L in
      let L' := remove_cell a L in
      let Hs' := fresh "Hs" in
      let Hr' := fresh "Hr" in
      assert (Hs' : sat (heap (upd f a T)) ((a, f n) :: L')) by
        (apply (sat_upd f T L a n L' Hs); solve_front a);
      assert (Hr' : root (upd f a T) = r) by exact Hr;
      let Hl' := fresh "Hl" in
      pose proof (length_heap_upd f a T) as Hl';
      let T' := fresh "T" in
      set (T' := upd f a T) in *;
      clearbody T'; hsimpl_in Hs'
  | Hs : sat (heap ?T) ?L |- context [set_root ?T ?p] =>
      let Hs' := fresh "Hs" in
      let Hr' := fresh "Hr" in
      assert (Hs' : sat (heap (set_root T p)) L) by exact Hs;
      assert (Hr' : root (set_root T p) = p) by reflexivity;
      let Hl' := fresh "Hl" in
      assert (Hl' : length (heap (set_root T p)) = length (heap T)) by reflexivity;
      let T' := fresh "T" in
      set (T' := set_root T p) in *;
      clearbody T'
  end.

Ltac simple_term e :=
  lazymatch e with
  | context [upd _ _ _] => fail
  | context [set_root _ _] => fail
  | context [_left_rotate _ _] => fail
  | context [_right_rotate _ _] => fail
  | context [_transplant _ _ _] => fail
  | context [if _ then _ else _] => fail
  | context [left_of _ _] => fail
  | context [right_of _ _] => fail
  | context [parent_of _ _] => fail
  | context [color_of _ _] => fail
  | context [root _] => fail
  | _ => idtac
  end.

Ltac let_step :=
  match goal with
  | |- context G [let x := ?e in @?B x] =>
      simple_term e;
      let Be := eval cbv beta in (B e) in
      let g := context G [Be] in
      change g
  end.

Ltac rd_col :=
  match goal with
  | Hs : sat (heap ?T) ?L |- context [color_of ?T (addr ?t)] =>
      let nn := cell_of NIL L in
      lazymatch L with
      | context [cells t ?par] =>
        rewrite (color_of_addr_sat T L nn t par Hs ltac:(solve_submseteq) eq_refl)
      end
  end.

Ltac rd_par :=
  match goal with
  | Hs : sat (heap ?T) ?L |- context [parent_of ?T (addr ?t)] =>
      let nn := cell_of NIL L in
      lazymatch L with
      | context [cells t ?par] =>
        rewrite (parent_of_addr_sat T L nn t par Hs ltac:(solve_submseteq)
                   ltac:(simpl; assumption))
      end
  end.

Ltac cond_addr :=
  match goal with
  | Hs : sat _ ?L |- context [ ?a =? addr ?t ] =>
      let n := cell_of a L in
      let nn := cell_of NIL L in
      lazymatch L with
      | context [cells t ?par] =>
        rewrite (proj2 (Nat.eqb_neq a (addr t))
                   (sat_ne_addr _ L a n nn t par Hs ltac:(solve_submseteq)))
      end
  | Hs : sat _ ?L |- context [ addr ?t =? ?a ] =>
      let n := cell_of a L in
      let nn := cell_of NIL L in
      lazymatch L with
      | context [cells t ?par] =>
        rewrite (proj2 (Nat.eqb_neq (addr t) a)
                   (sat_addr_ne _ L a n nn t par Hs ltac:(solve_submseteq)))
      end
  end.

Ltac hstep := first [ progress hsimpl | rd | rd_col | rd_par | cond | cond_addr | wr | let_step ].

Ltac unfold_sets := cbv beta delta [set_left set_right set_parent set_color set_value].

Ltac sat_done :=
  match goal with
  | Hs : sat ?h _ |- sat ?h _ =>
    apply (sat_sub _ _ _ Hs); unfold nilcell;
    cbn beta iota delta [cells ccells fcell fsib caddr faddr addr fill plug app];
    solve_submseteq
  end.

Ltac rep_done :=
  match goal with
  | Hs : sat (heap ?T) _, Hr : root ?T = _ |- Rep ?T _ _ _ =>
    split; [rewrite Hr; reflexivity | sat_done]
  end.

Ltac rep_open H :=
  let Hr := fresh "Hr" in
  let Hs := fresh "Hs" in
  destruct H as [Hr Hs]; hsimpl_in Hs; hsimpl_in Hr.

(** ** The primitive operations on represented trees *)

Section Primitives.
Context {K V : Type} `{KeyOrd K}.
Implicit Types (T : RBTree K V) (c : ctx K V) (t : tree K V).

Lemma Rep_left_rotate T np c cx A x kx vx cy B y ky vy C :
  Rep T np c (N cx A x kx vx (N cy B y ky vy C)) →
  Rep (_left_rotate T x) np c (N cy (N cx A x kx vx B) y ky vy C).
Proof.
  intros HR. cbv beta delta [_left_rotate]. unfold_sets.
  destruct B as [|cb Bl b kb vb Br];
    destruct c as [|[cp p kp vp S|cp [|cs Sl s ks vs Sr] p kp vp] up];
    rep_open HR.
  all: repeat hstep.
  all: rep_done.
Qed.

Lemma Rep_right_rotate T np c cx A x kx vx cy B y ky vy C :
  Rep T np c (N cx (N cy A y ky vy B) x kx vx C) →
  Rep (_right_rotate T x) np c (N cy A y ky vy (N cx B x kx vx C)).
Proof.
  intros HR. cbv beta delta [_right_rotate]. unfold_sets.
  destruct B as [|cb Bl b kb vb Br];
    destruct c as [|[cp p kp vp [|cs Sl s ks vs Sr]|cp S p kp vp] up];
    rep_open HR.
  all: repeat hstep.
  all: rep_done.
Qed.

End Primitives.

(** ** Moving the focus *)

Section Focus.
Context {K V : Type} `{KeyOrd K}.
Implicit Types (T : RBTree K V) (c : ctx K V) (t : tree K V) (f : frame K V).

Lemma addr_fill f t : addr (fill f t) = faddr f.
Proof. by destruct f. Qed.

Lemma addr_plug c t : addr (plug c t) = croot c (addr t).
Proof.
  revert t. induction c as [|f c IH]; intros t; [done|].
  simpl. by rewrite IH, addr_fill.
Qed.

Lemma Rep_up T np f c t : Rep T np (f :: c) t ↔ Rep T np c (fill f t).
Proof.
  unfold Rep. rewrite addr_fill. simpl croot.
  apply and_iff_compat_l. apply sat_perm.
  destruct f; cbn beta iota delta [cells ccells fcell fsib caddr faddr addr fill app];
    solve_Permutation.
Qed.

Lemma Rep_plug T np c t : Rep T np c t ↔ Rep T np [] (plug c t).
Proof.
  revert t. induction c as [|f c IH]; intros t; [done|].
  by rewrite Rep_up, IH.
Qed.

Lemma Rep_down_l T np c co l a k v r :
  Rep T np c (N co l a k v r) → Rep T np (FL co a k v r :: c) l.
Proof. intros HR. by apply Rep_up. Qed.

Lemma Rep_down_r T np c co l a k v r :
  Rep T np c (N co l a k v r) → Rep T np (FR co l a k v :: c) r.
Proof. intros HR. by apply Rep_up. Qed.

Lemma length_cells t par : length (cells t par) = tsize t.
Proof.
  revert par. induction t as [|co l IHl a k v r IHr]; intros par; [done|].
  simpl. rewrite length_app, IHl, IHr. done.
Qed.

Lemma length_ccells c child top : length c ≤ length (ccells c child top).
Proof.
  revert child. induction c as [|f c IH]; intros child; [done|].
  simpl. rewrite length_app. specialize (IH (faddr f)). lia.
Qed.

(** The arena is at least as large as the tree it holds, which bounds
    the fuel every loop needs. *)
Lemma Rep_size T np c t : Rep T np c t → tsize t + length c < length (heap T).
Proof.
  intros [_ Hs]. apply sat_length in Hs. simpl in Hs.
  rewrite length_app, length_cells in Hs.
  pose proof (length_ccells c (addr t) NIL). lia.
Qed.

Lemma Rep_set_color T np c co co' l a k v r :
  Rep T np c (N co l a k v r) → Rep (set_color T a co') np c (N co' l a k v r).
Proof.
  intros HR. unfold_sets. rep_open HR. repeat hstep. rep_done.
Qed.

Lemma Rep_set_value T np c co l a k v0 v r :
  Rep T np c (N co l a k v0 r) → Rep (set_value T a v) np c (N co l a k v r).
Proof.
  intros HR. unfold_sets. rep_open HR. repeat hstep. rep_done.
Qed.

Lemma Rep_set_color_NIL T np c t :
  Rep T np c t → Rep (set_color T NIL BLACK) np c t.
Proof.
  intros HR. unfold_sets. rep_open HR. repeat hstep. rep_done.
Qed.

(** Reads at the focus. *)
Lemma Rep_key T np c co l a k v r :
  Rep T np c (N co l a k v r) → key_of T a = Some k.
Proof. intros HR. rep_open HR. by repeat hstep. Qed.

Lemma Rep_value T np c co l a k v r :
  Rep T np c (N co l a k v r) → value_of T a = Some v.
Proof. intros HR. rep_open HR. by repeat hstep. Qed.

Lemma Rep_left T np c co l a k v r :
  Rep T np c (N co l a k v r) → left_of T a = addr l.
Proof. intros HR. rep_open HR. by repeat hstep. Qed.

Lemma Rep_right T np c co l a k v r :
  Rep T np c (N co l a k v r) → right_of T a = addr r.
Proof. intros HR. rep_open HR. by repeat hstep. Qed.

Lemma Rep_parent T np c co l a k v r :
  Rep T np c (N co l a k v r) → parent_of T a = caddr c NIL.
Proof. intros HR. rep_open HR. by repeat hstep. Qed.

Lemma Rep_color T np c t : Rep T np c t → color_of T (addr t) = col t.
Proof. intros HR. destruct t; rep_open HR; by repeat hstep. Qed.

Lemma Rep_parent_NIL T np c t : Rep T np c t → parent_of T NIL = np.
Proof. intros HR. rep_open HR. by repeat hstep. Qed.

Lemma Rep_addr_NIL T np c t : Rep T np c t → addr t = NIL ↔ t = E.
Proof.
  intros HR. split; [|by intros ->].
  destruct t as [|co l a k v r]; [done|]. intros Ha. simpl in Ha. subst a.
  rep_open HR. destruct Hs as [Hnd _]. simpl in Hnd.
  apply NoDup_cons in Hnd as [Hnotin _]. destruct Hnotin. by left.
Qed.

Lemma Rep_root T np t : Rep T np [] t → root T = addr t.
Proof. by intros [Hr _]. Qed.

End Focus.

(** ** Red-black invariants on trees and contexts *)

Section Invariants.
Context {K V : Type}.
Implicit Types (c : ctx K V) (t : tree K V) (f : frame K V).

(** [rbt n t]: no RED node of [t] has a RED child and every path from the
    root of [t] to a leaf has [n] BLACK nodes. *)
Fixpoint rbt (n : nat) (t : tree K V) : Prop :=
  match t with
  | E => n = 0
  | N RED l _ _ _ r => col l = BLACK ∧ col r = BLACK ∧ rbt n l ∧ rbt n r
  | N BLACK l _ _ _ r =>
    match n with
    | O => False
    | S m => rbt m l ∧ rbt m r
    end
  end.

Definition is_rb (t : tree K V) : Prop := col t = BLACK ∧ ∃ n, rbt n t.

(** The three conditions one by one. *)
Fixpoint no_red_red (t : tree K V) : Prop :=
  match t with
  | E => True
  | N co l _ _ _ r =>
    (co = RED → col l = BLACK ∧ col r = BLACK) ∧ no_red_red l ∧ no_red_red r
  end.

(** [path_blacks t m]: some path from the root of [t] down to a leaf has
    [m] BLACK nodes. *)
Inductive path_blacks : tree K V → nat → Prop :=
| pb_leaf : path_blacks E 0
| pb_left co l a k v r m :
    path_blacks l m → path_blacks (N co l a k v r) (if is_red co then m else S m)
| pb_right co l a k v r m :
    path_blacks r m → path_blacks (N co l a k v r) (if is_red co then m else S m).

Lemma rbt_no_red_red n t : rbt n t → no_red_red t.
Proof.
  revert n. induction t as [|co l IHl a k v r IHr]; intros n Hn; [done|].
  destruct co; simpl in *.
  - destruct Hn as (?&?&?&?). split; [done|]. split; eauto.
  - destruct n as [|m]; [done|]. destruct Hn. split; [done|]. split; eauto.
Qed.

Lemma rbt_path_blacks n t m : rbt n t → path_blacks t m → m = n.
Proof.
  intros Hn Hp. revert n Hn. induction Hp as [|co l a k v r m Hp IH|co l a k v r m Hp IH];
    intros n Hn; simpl in Hn.
  - done.
  - destruct co; simpl.
    + destruct Hn as (?&?&?&?). eauto.
    + destruct n as [|n]; [done|]. destruct Hn. f_equal. eauto.
  - destruct co; simpl.
    + destruct Hn as (?&?&?&?). eauto.
    + destruct n as [|n]; [done|]. destruct Hn. f_equal. eauto.
Qed.

Lemma rbt_inj n m t : rbt n t → rbt m t → n = m.
Proof.
  revert n m. induction t as [|co l IHl a k v r IHr]; intros n m Hn Hm; simpl in *.
  - congruence.
  - destruct co.
    + destruct Hn as (?&?&?&?), Hm as (?&?&?&?). eauto.
    + destruct n, m; try done. destruct Hn, Hm. f_equal. eauto.
Qed.

Definition pcol (c : ctx K V) : Color :=
  match c with [] => BLACK | f :: _ => fcol f end.

(** [crb n c]: plugging into [c] a tree of black height [n] whose root
    colour suits the hole gives a red-black tree with a BLACK root. *)
Fixpoint crb (n : nat) (c : ctx K V) : Prop :=
  match c with
  | [] => True
  | f :: up =>
    rbt n (fsib f) ∧
    match fcol f with
    | BLACK => crb (S n) up
    | RED => col (fsib f) = BLACK ∧ pcol up = BLACK ∧ up ≠ [] ∧ crb n up
    end
  end.

Lemma plug_rb n c t :
  crb n c → rbt n t → (pcol c = RED → col t = BLACK) → (c = [] → col t = BLACK) →
  is_rb (plug c t).
Proof.
  revert n t. induction c as [|f up IH]; intros n t Hc Ht Hred Htop.
  - split; [by apply Htop|by exists n].
  - simpl in Hc. destruct Hc as [Hsib Hc]. simpl.
    destruct f as [co a k v r|co l a k v]; simpl in *; destruct co.
    + destruct Hc as (?&?&?&?). apply (IH n); simpl; intuition congruence.
    + apply (IH (S n)); simpl; done.
    + destruct Hc as (?&?&?&?). apply (IH n); simpl; intuition congruence.
    + apply (IH (S n)); simpl; done.
Qed.

Lemma plug_rb_inv m c t :
  rbt m (plug c t) → col (plug c t) = BLACK →
  ∃ n, rbt n t ∧ crb n c ∧ (pcol c = RED → col t = BLACK).
Proof.
  revert t. induction c as [|f up IH]; intros t Hm Hcol.
  - exists m. done.
  - simpl in Hm, Hcol. destruct (IH _ Hm Hcol) as (n & Hn & Hup & Hred).
    assert (up = [] → fcol f = BLACK) as Htop.
    { intros ->. simpl in Hcol. by destruct f. }
    destruct f as [co a k v r|co l a k v]; simpl in *; destruct co.
    + destruct Hn as (?&?&?&?). exists n. repeat split; try done.
      * by destruct (pcol up); [apply Hred|].
      * intros ->. by specialize (Htop eq_refl).
    + destruct n as [|n]; [done|]. destruct Hn. exists n. done.
    + destruct Hn as (?&?&?&?). exists n. repeat split; try done.
      * by destruct (pcol up); [apply Hred|].
      * intros ->. by specialize (Htop eq_refl).
    + destruct n as [|n]; [done|]. destruct Hn. exists n. done.
Qed.

(** In-order contents around the hole of a context. *)
Fixpoint cbefore (c : ctx K V) : list (K * V) :=
  match c with
  | [] => []
  | FL _ _ _ _ _ :: up => cbefore up
  | FR _ l _ k v :: up => cbefore up ++ elements l ++ [(k, v)]
  end.

Fixpoint cafter (c : ctx K V) : list (K * V) :=
  match c with
  | [] => []
  | FL _ _ k v r :: up => (k, v) :: elements r ++ cafter up
  | FR _ _ _ _ _ :: up => cafter up
  end.

Lemma elements_plug c t : elements (plug c t) = cbefore c ++ elements t ++ cafter c.
Proof.
  revert t. induction c as [|f up IH]; intros t; simpl.
  - by rewrite app_nil_r.
  - rewrite IH. destruct f; simpl; by rewrite <- ?app_assoc.
Qed.

End Invariants.

(** ** Sorted association lists: what the tree means *)

Section SortedLists.
Context {K V : Type} `{KeyOrdLaws K}.
Implicit Types (l : list (K * V)) (k : K) (v : V).

Definition keys_lt (l : list (K * V)) (k : K) : Prop := Forall (λ kv, klt kv.1 k) l.
Definition keys_gt (l : list (K * V)) (k : K) : Prop := Forall (λ kv, klt k kv.1) l.

(** Strictly increasing keys. *)
Fixpoint ksorted (l : list (K * V)) : Prop :=
  match l with
  | [] => True
  | kv :: l' => keys_gt l' kv.1 ∧ ksorted l'
  end.

Fixpoint l_lookup (k : K) (l : list (K * V)) : option V :=
  match l with
  | [] => None
  | kv :: l' => if bool_decide (k = kv.1) then Some kv.2 else l_lookup k l'
  end.

Fixpoint l_insert (k : K) (v : V) (l : list (K * V)) : list (K * V) :=
  match l with
  | [] => [(k, v)]
  | kv :: l' =>
    if key_ltb k kv.1 then (k, v) :: kv :: l'
    else if key_ltb kv.1 k then kv :: l_insert k v l'
    else (k, v) :: l'
  end.

Definition l_delete (k : K) (l : list (K * V)) : list (K * V) :=
  filter (λ kv, kv.1 ≠ k) l.

Lemma keys_lt_app l1 l2 k : keys_lt (l1 ++ l2) k ↔ keys_lt l1 k ∧ keys_lt l2 k.
Proof. apply Forall_app. Qed.

Lemma keys_gt_app l1 l2 k : keys_gt (l1 ++ l2) k ↔ keys_gt l1 k ∧ keys_gt l2 k.
Proof. apply Forall_app. Qed.

Lemma keys_lt_trans l k k' : keys_lt l k → klt k k' → keys_lt l k'.
Proof.
  intros Hl Hk. eapply Forall_impl; [exact Hl|]. intros kv Hkv. simpl in *.
  eapply klt_trans; eauto.
Qed.

Lemma keys_gt_trans l k k' : keys_gt l k → klt k' k → keys_gt l k'.
Proof.
  intros Hl Hk. eapply Forall_impl; [exact Hl|]. intros kv Hkv. simpl in *.
  eapply klt_trans; eauto.
Qed.

Lemma ksorted_app l1 l2 :
  ksorted (l1 ++ l2) ↔ ksorted l1 ∧ ksorted l2 ∧ Forall (λ kv, keys_gt l2 kv.1) l1.
Proof.
  induction l1 as [|kv l1 IH]; simpl.
  - rewrite Forall_nil. tauto.
  - rewrite IH, keys_gt_app, Forall_cons. tauto.
Qed.

Lemma ksorted_mid l1 kv l2 :
  ksorted (l1 ++ kv :: l2) ↔
  ksorted l1 ∧ ksorted l2 ∧ keys_lt l1 kv.1 ∧ keys_gt l2 kv.1 ∧
  Forall (λ kv1, keys_gt l2 kv1.1) l1.
Proof.
  rewrite ksorted_app. simpl. unfold keys_lt.
  split.
  - intros (H1 & (H2 & H3) & H4). repeat split; try done.
    + eapply Forall_impl; [exact H4|]. intros x Hx. simpl in Hx.
      unfold keys_gt in Hx. by apply Forall_cons in Hx as [? _].
    + eapply Forall_impl; [exact H4|]. intros x Hx. simpl in Hx.
      unfold keys_gt in Hx. by apply Forall_cons in Hx as [_ ?].
  - intros (H1 & H2 & H3 & H4 & H5). repeat split; try done.
    rewrite Forall_forall in H3, H5 |- *. intros x Hx.
    unfold keys_gt. apply Forall_cons. split; [by apply H3|by apply H5].
Qed.

Lemma keys_lt_not_in l k v : keys_lt l k → (k, v) ∉ l.
Proof.
  intros Hl Hin. unfold keys_lt in Hl. rewrite Forall_forall in Hl.
  exact (klt_irrefl _ (Hl _ Hin)).
Qed.

Lemma keys_gt_not_in l k v : keys_gt l k → (k, v) ∉ l.
Proof.
  intros Hl Hin. unfold keys_gt in Hl. rewrite Forall_forall in Hl.
  exact (klt_irrefl _ (Hl _ Hin)).
Qed.

Lemma l_lookup_lt l k : keys_lt l k → l_lookup k l = None.
Proof.
  induction l as [|kv l IH]; [done|]. intros Hl. apply Forall_cons in Hl as [Hkv Hl].
  simpl. rewrite bool_decide_eq_false_2; [by apply IH|]. intros ->. by apply klt_irrefl in Hkv.
Qed.

Lemma l_lookup_gt l k : keys_gt l k → l_lookup k l = None.
Proof.
  induction l as [|kv l IH]; [done|]. intros Hl. apply Forall_cons in Hl as [Hkv Hl].
  simpl. rewrite bool_decide_eq_false_2; [by apply IH|]. intros ->. by apply klt_irrefl in Hkv.
Qed.

Lemma l_lookup_app_lt l1 l2 k : keys_lt l1 k → l_lookup k (l1 ++ l2) = l_lookup k l2.
Proof.
  induction l1 as [|kv l1 IH]; [done|]. intros Hl. apply Forall_cons in Hl as [Hkv Hl].
  simpl. rewrite bool_decide_eq_false_2; [by apply IH|]. intros ->. by apply klt_irrefl in Hkv.
Qed.

Lemma l_lookup_mid l1 l2 k v : keys_lt l1 k → l_lookup k (l1 ++ (k, v) :: l2) = Some v.
Proof.
  intros Hl. rewrite l_lookup_app_lt by done. simpl. by rewrite bool_decide_eq_true_2.
Qed.

Lemma l_lookup_absent l1 l2 k : keys_lt l1 k → keys_gt l2 k → l_lookup k (l1 ++ l2) = None.
Proof. intros H1 H2. rewrite l_lookup_app_lt by done. by apply l_lookup_gt. Qed.

Lemma l_lookup_Some l k v : l_lookup k l = Some v → (k, v) ∈ l.
Proof.
  induction l as [|[k' v'] l IH]; [done|]. simpl. case_bool_decide as Hk.
  - intros [= ->]. subst. by left.
  - intros Hl. right. by apply IH.
Qed.

Lemma l_lookup_elem l k v : ksorted l → (k, v) ∈ l → l_lookup k l = Some v.
Proof.
  induction l as [|[k' v'] l IH]; intros Hs Hin; [by apply elem_of_nil in Hin|].
  simpl in Hs. destruct Hs as [Hgt Hs]. simpl. apply elem_of_cons in Hin as [Heq|Hin].
  - inversion Heq; subst. by rewrite bool_decide_eq_true_2.
  - rewrite bool_decide_eq_false_2; [by apply IH|].
    intros ->. by apply keys_gt_not_in in Hin.
Qed.

Lemma l_insert_new l1 l2 k v :
  keys_lt l1 k → keys_gt l2 k → l_insert k v (l1 ++ l2) = l1 ++ (k, v) :: l2.
Proof.
  intros H1 H2. induction l1 as [|kv l1 IH]; simpl.
  - destruct l2 as [|kv l2]; [done|]. apply Forall_cons in H2 as [Hkv _].
    simpl. by rewrite Hkv.
  - apply Forall_cons in H1 as [Hkv H1]. simpl in Hkv.
    rewrite (proj2 (key_ltb_false_iff k kv.1)) by (by right).
    rewrite Hkv. by rewrite IH.
Qed.

Lemma l_insert_replace l1 l2 k v0 v :
  keys_lt l1 k → l_insert k v (l1 ++ (k, v0) :: l2) = l1 ++ (k, v) :: l2.
Proof.
  intros H1. induction l1 as [|kv l1 IH]; simpl.
  - by rewrite key_ltb_irrefl.
  - apply Forall_cons in H1 as [Hkv H1]. simpl in Hkv.
    rewrite (proj2 (key_ltb_false_iff k kv.1)) by (by right).
    rewrite Hkv. by rewrite IH.
Qed.

Lemma l_delete_id l k : Forall (λ kv, kv.1 ≠ k) l → l_delete k l = l.
Proof.
  intros Hl. unfold l_delete. induction l as [|kv l IH]; [done|].
  apply Forall_cons in Hl as [Hkv Hl]. rewrite filter_cons_True by done. by rewrite IH.
Qed.

Lemma l_delete_lt l k : keys_lt l k → l_delete k l = l.
Proof.
  intros Hl. apply l_delete_id. eapply Forall_impl; [exact Hl|].
  intros kv Hkv. by apply klt_ne.
Qed.

Lemma l_delete_gt l k : keys_gt l k → l_delete k l = l.
Proof.
  intros Hl. apply l_delete_id. eapply Forall_impl; [exact Hl|].
  intros kv Hkv. by apply not_eq_sym, klt_ne.
Qed.

Lemma l_delete_mid l1 l2 k v :
  keys_lt l1 k → keys_gt l2 k → l_delete k (l1 ++ (k, v) :: l2) = l1 ++ l2.
Proof.
  intros H1 H2. unfold l_delete. rewrite filter_app, filter_cons_False by (simpl; tauto).
  fold (l_delete k l1). fold (l_delete k l2).
  by rewrite l_delete_lt, l_delete_gt.
Qed.

Lemma l_delete_absent l1 l2 k :
  keys_lt l1 k → keys_gt l2 k → l_delete k (l1 ++ l2) = l1 ++ l2.
Proof.
  intros H1 H2. unfold l_delete. rewrite filter_app.
  fold (l_delete k l1). fold (l_delete k l2).
  by rewrite l_delete_lt, l_delete_gt.
Qed.

Lemma ksorted_filter (P : K * V → Prop) `{∀ x, Decision (P x)} l :
  ksorted l → ksorted (filter P l).
Proof.
  induction l as [|kv l IH]; [done|]. intros [Hgt Hs].
  destruct (decide (P kv)).
  - rewrite filter_cons_True by done. split; [|by apply IH].
    unfold keys_gt in *. rewrite Forall_forall in Hgt |- *. intros x Hx.
    apply list_elem_of_filter in Hx as [_ Hx]. by apply Hgt.
  - rewrite filter_cons_False by done. by apply IH.
Qed.

Lemma ksorted_l_delete l k : ksorted l → ksorted (l_delete k l).
Proof. apply ksorted_filter. Qed.

Lemma elem_of_l_delete l k kv : kv ∈ l_delete k l ↔ kv.1 ≠ k ∧ kv ∈ l.
Proof. unfold l_delete. by rewrite list_elem_of_filter. Qed.

Lemma keys_gt_l_insert l k v k0 : keys_gt l k0 → klt k0 k → keys_gt (l_insert k v l) k0.
Proof.
  intros Hl Hk. induction l as [|kv l IH]; simpl.
  - by apply Forall_singleton.
  - apply Forall_cons in Hl as [Hkv Hl].
    destruct (key_ltb k kv.1); [|destruct (key_ltb kv.1 k)].
    + apply Forall_cons; split; [done|]. by apply Forall_cons.
    + apply Forall_cons; split; [done|]. by apply IH.
    + by apply Forall_cons.
Qed.

Lemma ksorted_l_insert l k v : ksorted l → ksorted (l_insert k v l).
Proof.
  induction l as [|kv l IH]; [by repeat constructor|]. intros [Hgt Hs]. simpl.
  destruct (key_ltb k kv.1) eqn:H1; [|destruct (key_ltb kv.1 k) eqn:H2].
  - simpl. split; [|by split]. apply Forall_cons. split; [done|].
    by apply keys_gt_trans with kv.1.
  - simpl. split; [|by apply IH]. by apply keys_gt_l_insert.
  - assert (k = kv.1) as -> by (by apply key_ltb_total). simpl. done.
Qed.

Lemma elem_of_l_insert l k v kv :
  ksorted l → kv ∈ l_insert k v l ↔ kv = (k, v) ∨ (kv.1 ≠ k ∧ kv ∈ l).
Proof.
  induction l as [|kv0 l IH]; intros Hs; simpl.
  - rewrite list_elem_of_singleton, elem_of_nil. tauto.
  - destruct Hs as [Hgt Hs]. unfold keys_gt in Hgt. rewrite Forall_forall in Hgt.
    destruct (key_ltb k kv0.1) eqn:H1; [|destruct (key_ltb kv0.1 k) eqn:H2].
    + rewrite !elem_of_cons. split; [|tauto].
      intros [->|[->|Hin]]; [by left|right..].
      * split; [|by left]. by apply not_eq_sym, klt_ne.
      * split; [|by right]. apply not_eq_sym, klt_ne.
        eapply klt_trans; [exact H1|by apply Hgt].
    + rewrite !elem_of_cons, IH by done. split; [|tauto].
      intros [->|[->|[? ?]]]; [right|by left|right; tauto].
      split; [|by left]. by apply klt_ne.
    + assert (k = kv0.1) as -> by (by apply key_ltb_total).
      rewrite !elem_of_cons. split.
      * intros [->|Hin]; [by left|]. right. split; [|by right].
        apply not_eq_sym, klt_ne. by apply Hgt.
      * intros [->|[Hne [->|Hin]]]; [by left|done|by right].
Qed.

Lemma ksorted_NoDup_keys l : ksorted l → NoDup l.*1.
Proof.
  induction l as [|kv l IH]; [constructor|]. intros [Hgt Hs].
  rewrite fmap_cons. apply NoDup_cons. split; [|by apply IH].
  intros Hin. apply list_elem_of_fmap in Hin as [kv' [Heq Hin]].
  unfold keys_gt in Hgt. rewrite Forall_forall in Hgt. specialize (Hgt _ Hin).
  rewrite Heq in Hgt. by apply klt_irrefl in Hgt.
Qed.

End SortedLists.

(** ** The descents: [search_node], the loop of [insert], [_minimum], [inorder] *)

Section Descent.
Context {K V : Type} `{KeyOrdLaws K}.
Implicit Types (T : RBTree K V) (c : ctx K V) (t : tree K V) (k : K).

(** The path the comparison loop takes from [t] in context [c]. *)
Fixpoint descend (k : K) (c : ctx K V) (t : tree K V) : ctx K V * tree K V :=
  match t with
  | E => (c, E)
  | N co l a k' v r =>
    if key_ltb k k' then descend k (FL co a k' v r :: c) l
    else if key_ltb k' k then descend k (FR co l a k' v :: c) r
    else (c, t)
  end.

(** The side on which the hole hangs agrees with the comparison against
    the parent's key. *)
Definition dir_ok (k : K) (c : ctx K V) : Prop :=
  match c with
  | [] => True
  | FL _ _ k' _ _ :: _ => key_ltb k k' = true
  | FR _ _ _ k' _ :: _ => key_ltb k k' = false
  end.

Lemma descend_plug k c t : plug (descend k c t).1 (descend k c t).2 = plug c t.
Proof.
  revert c. induction t as [|co l IHl a k' v r IHr]; intros c; simpl; [done|].
  destruct (key_ltb k k'); [by rewrite IHl|].
  destruct (key_ltb k' k); [by rewrite IHr|done].
Qed.

Lemma descend_dir_ok k c t : dir_ok k c → dir_ok k (descend k c t).1.
Proof.
  revert c. induction t as [|co l IHl a k' v r IHr]; intros c Hc; simpl; [done|].
  destruct (key_ltb k k') eqn:H1; [by apply IHl|].
  destruct (key_ltb k' k) eqn:H2; [by apply IHr|done].
Qed.

Lemma descend_found k c t :
  (descend k c t).2 = E ∨ ∃ co l a v r, (descend k c t).2 = N co l a k v r.
Proof.
  revert c. induction t as [|co l IHl a k' v r IHr]; intros c; simpl; [by left|].
  destruct (key_ltb k k') eqn:H1; [by apply IHl|].
  destruct (key_ltb k' k) eqn:H2; [by apply IHr|].
  right. assert (k = k') as <- by (by apply key_ltb_total). eauto 10.
Qed.

Lemma descend_bounds k c t :
  keys_lt (cbefore c) k → keys_gt (cafter c) k → ksorted (elements t) →
  keys_lt (cbefore (descend k c t).1) k ∧ keys_gt (cafter (descend k c t).1) k ∧
  ksorted (elements (descend k c t).2).
Proof.
  revert c. induction t as [|co l IHl a k' v r IHr]; intros c Hlt Hgt Hs; simpl; [done|].
  simpl in Hs. apply ksorted_mid in Hs as (Hsl & Hsr & Hl & Hr & _). simpl in Hl, Hr.
  destruct (key_ltb k k') eqn:H1; [|destruct (key_ltb k' k) eqn:H2].
  - apply IHl; simpl; try done.
    apply Forall_cons. split; [done|]. apply keys_gt_app. split; [|done].
    by apply keys_gt_trans with k'.
  - apply IHr; simpl; try done.
    apply keys_lt_app. split; [done|]. apply keys_lt_app. split.
    + by apply keys_lt_trans with k'.
    + by apply Forall_singleton.
  - repeat split; try done. simpl. apply ksorted_mid. repeat split; try done.
    rewrite Forall_forall. intros kv Hkv. simpl.
    unfold keys_lt in Hl. rewrite Forall_forall in Hl.
    apply keys_gt_trans with k'; [done|]. by apply Hl.
Qed.

Lemma Rep_addr_ne T np c co l a k v r : Rep T np c (N co l a k v r) → a ≠ NIL.
Proof.
  intros HR Ha. by apply (Rep_addr_NIL _ _ _ _ HR) in Ha.
Qed.

Lemma insert_descend_spec fuel T np c t k :
  Rep T np c t → tsize t < fuel →
  insert_descend fuel T k (caddr c NIL) (addr t) =
    Some (match (descend k c t).2 with
          | E => inr (caddr (descend k c t).1 NIL)
          | N _ _ a _ _ _ => inl a
          end) ∧
  Rep T np (descend k c t).1 (descend k c t).2.
Proof.
  revert fuel c. induction t as [|co l IHl a k' v r IHr]; intros fuel c HR Hfuel.
  - destruct fuel as [|fuel]; [lia|]. done.
  - destruct fuel as [|fuel]; [lia|]. simpl in Hfuel. simpl.
    rewrite (proj2 (Nat.eqb_neq a NIL) (Rep_addr_ne _ _ _ _ _ _ _ _ _ HR)).
    rewrite (Rep_key _ _ _ _ _ _ _ _ _ HR). simpl.
    rewrite (Rep_left _ _ _ _ _ _ _ _ _ HR), (Rep_right _ _ _ _ _ _ _ _ _ HR).
    destruct (key_ltb k k'); [|destruct (key_ltb k' k)].
    + apply (IHl fuel (FL co a k' v r :: c)); [by apply Rep_down_l|lia].
    + apply (IHr fuel (FR co l a k' v :: c)); [by apply Rep_down_r|lia].
    + done.
Qed.

Lemma search_loop_spec fuel T np c t k :
  Rep T np c t → tsize t < fuel →
  search_loop fuel T k (addr t) =
    Some (match (descend k c t).2 with
          | E => None
          | N _ _ a _ _ _ => Some a
          end).
Proof.
  revert fuel c. induction t as [|co l IHl a k' v r IHr]; intros fuel c HR Hfuel.
  - destruct fuel as [|fuel]; [lia|]. done.
  - destruct fuel as [|fuel]; [lia|]. simpl in Hfuel. simpl.
    rewrite (proj2 (Nat.eqb_neq a NIL) (Rep_addr_ne _ _ _ _ _ _ _ _ _ HR)).
    rewrite (Rep_key _ _ _ _ _ _ _ _ _ HR). simpl.
    rewrite (Rep_left _ _ _ _ _ _ _ _ _ HR), (Rep_right _ _ _ _ _ _ _ _ _ HR).
    case_bool_decide as Hk.
    + subst k'. by rewrite key_ltb_irrefl.
    + destruct (key_ltb k k') eqn:H1.
      * apply (IHl fuel (FL co a k' v r :: c)); [by apply Rep_down_l|lia].
      * destruct (key_ltb k' k) eqn:H2.
        -- apply (IHr fuel (FR co l a k' v :: c)); [by apply Rep_down_r|lia].
        -- destruct Hk. by apply key_ltb_total.
Qed.

(** [_inorder] lists the elements of the subtree. *)
Lemma inorder_spec fuel T np c t :
  Rep T np c t → tsize t < fuel → _inorder fuel T (addr t) = Some (elements t).
Proof.
  revert fuel c. induction t as [|co l IHl a k v r IHr]; intros fuel c HR Hfuel.
  - destruct fuel as [|fuel]; [lia|]. done.
  - destruct fuel as [|fuel]; [lia|]. simpl in Hfuel. simpl.
    rewrite (proj2 (Nat.eqb_neq a NIL) (Rep_addr_ne _ _ _ _ _ _ _ _ _ HR)). simpl.
    rewrite (Rep_key _ _ _ _ _ _ _ _ _ HR), (Rep_value _ _ _ _ _ _ _ _ _ HR).
    rewrite (Rep_left _ _ _ _ _ _ _ _ _ HR), (Rep_right _ _ _ _ _ _ _ _ _ HR).
    rewrite (IHl fuel (FL co a k v r :: c)); [|by apply Rep_down_l|lia].
    rewrite (IHr fuel (FR co l a k v :: c)); [|by apply Rep_down_r|lia].
    done.
Qed.

(** The leftmost node of [t], with the left spine as context. *)
Fixpoint descend_min (c : ctx K V) (t : tree K V) : ctx K V * tree K V :=
  match t with
  | E => (c, E)
  | N co l a k v r =>
    match l with
    | E => (c, t)
    | N _ _ _ _ _ _ => descend_min (FL co a k v r :: c) l
    end
  end.

Lemma descend_min_plug c t : plug (descend_min c t).1 (descend_min c t).2 = plug c t.
Proof.
  revert c. induction t as [|co l IHl a k v r IHr]; intros c; [done|].
  simpl. destruct l; [done|]. by rewrite IHl.
Qed.

Lemma descend_min_shape c t :
  t ≠ E → ∃ co a k v r, (descend_min c t).2 = N co E a k v r.
Proof.
  revert c. induction t as [|co l IHl a k v r IHr]; intros c Ht; [done|].
  simpl. destruct l; [eauto 10|]. by apply IHl.
Qed.

Lemma descend_min_before c t : cbefore (descend_min c t).1 = cbefore c.
Proof.
  revert c. induction t as [|co l IHl a k v r IHr]; intros c; [done|].
  simpl. destruct l; [done|]. by rewrite IHl.
Qed.

Lemma minimum_spec fuel T np c t :
  Rep T np c t → t ≠ E → tsize t ≤ fuel →
  _minimum fuel T (addr t) = Some (addr (descend_min c t).2) ∧
  Rep T np (descend_min c t).1 (descend_min c t).2.
Proof.
  revert fuel c. induction t as [|co l IHl a k v r IHr]; intros fuel c HR Ht Hfuel; [done|].
  destruct fuel as [|fuel]; [simpl in Hfuel; lia|]. simpl in Hfuel.
  simpl. rewrite (Rep_left _ _ _ _ _ _ _ _ _ HR).
  destruct l as [|co' l' a' k' v' r'].
  - done.
  - pose proof (Rep_down_l _ _ _ _ _ _ _ _ _ HR) as HR'.
    change (addr (N co' l' a' k' v' r')) with a' at 1.
    rewrite (proj2 (Nat.eqb_neq _ NIL) (Rep_addr_ne _ _ _ _ _ _ _ _ _ HR')). simpl negb.
    cbv iota. apply (IHl fuel (FL co a k v r :: c)); [done|done|simpl in *; lia].
Qed.

End Descent.

(** ** Insertion *)

Section InsertLink.
Context {K V : Type} `{KeyOrdLaws K}.
Implicit Types (T : RBTree K V) (c : ctx K V) (t : tree K V) (k : K).

(** Linking the new RED leaf under the node where the descent ended. *)
Lemma insert_link_spec T np c k v :
  Rep T np c E → dir_ok k c →
  ∃ T2,
    (let T0 := mkRBTree (heap T ++ [mkRBNode (Some k) (Some v) NIL NIL NIL RED]) (root T) in
     let node := length (heap T) in
     let T1 := set_parent T0 node (caddr c NIL) in
     if caddr c NIL =? NIL then Some (set_root T1 node)
     else ky ← key_of T1 (caddr c NIL);
          Some (if key_ltb k ky then set_left T1 (caddr c NIL) node
                else set_right T1 (caddr c NIL) node)) = Some T2 ∧
    length (heap T2) = S (length (heap T)) ∧
    Rep T2 np c (N RED E (length (heap T)) k v E).
Proof.
  intros HR Hdir. cbv zeta. unfold_sets.
  set (n := mkRBNode (Some k) (Some v) NIL NIL NIL RED).
  destruct HR as [Hr Hs].
  assert (Hs0 : sat (heap (mkRBTree (heap T ++ [n]) (root T)))
                  ((length (heap T), n) :: nilcell np :: cells E (caddr c NIL)
                     ++ ccells c (addr E) NIL)) by (by apply sat_alloc).
  assert (Hr0 : root (mkRBTree (heap T ++ [n]) (root T)) = croot c (addr E)) by done.
  assert (Hlen : length (heap (mkRBTree (heap T ++ [n]) (root T))) = S (length (heap T))).
  { simpl. rewrite length_app. simpl. lia. }
  set (T0 := mkRBTree (heap T ++ [n]) (root T)) in *. clearbody T0.
  set (node := length (heap T)) in *. clearbody node. clear Hs Hr. subst n.
  destruct c as [|[cp p kp vp S|cp S p kp vp] up]; hsimpl_in Hs0; hsimpl_in Hr0;
    simpl in Hdir; repeat hstep; simpl mbind; rewrite ?Hdir; repeat hstep.
  all: eexists; (split; [done|]); (split; [congruence|]); rep_done.
Qed.

End InsertLink.

(** Rotation steps: the caller names the focus at which the rotated node
    is the root of the focused subtree. *)
Ltac rot_left np c t :=
  match goal with
  | Hs : sat (heap ?T) _, Hr : root ?T = _ |- context [_left_rotate ?T ?x] =>
    let HR := fresh "HR" in
    assert (HR : Rep T np c t) by rep_done;
    apply Rep_left_rotate in HR;
    let T' := fresh "T" in
    set (T' := _left_rotate T x) in *; clearbody T';
    rep_open HR
  end.

Ltac rot_right np c t :=
  match goal with
  | Hs : sat (heap ?T) _, Hr : root ?T = _ |- context [_right_rotate ?T ?x] =>
    let HR := fresh "HR" in
    assert (HR : Rep T np c t) by rep_done;
    apply Rep_right_rotate in HR;
    let T' := fresh "T" in
    set (T' := _right_rotate T x) in *; clearbody T';
    rep_open HR
  end.

Section InsertFixupSteps.
Context {K V : Type} `{KeyOrd K}.
Implicit Types (T : RBTree K V) (c up : ctx K V) (t : tree K V).

Definition frecolor (co : Color) (f : frame K V) : frame K V :=
  match f with
  | FL _ a k v r => FL co a k v r
  | FR _ l a k v => FR co l a k v
  end.

(** Case 1, parent on the left: the uncle is RED. *)
Lemma insert_fixup_L1 T np f1 cg g kg vg Ul u ku vu Ur up cz Zl z kz vz Zr :
  Rep T np (f1 :: FL cg g kg vg (N RED Ul u ku vu Ur) :: up) (N cz Zl z kz vz Zr) →
  ∃ T', _insert_fixup_body T z = (T', g) ∧
    Rep T' np up
      (N RED (fill (frecolor BLACK f1) (N cz Zl z kz vz Zr)) g kg vg (N BLACK Ul u ku vu Ur)).
Proof.
  intros HR. cbv beta delta [_insert_fixup_body]. unfold_sets.
  destruct f1 as [cp p kp vp Pr|cp Pl p kp vp]; rep_open HR; repeat hstep.
  all: eexists; (split; [done|]); rep_done.
Qed.

Lemma insert_fixup_R1 T np f1 cg g kg vg Ul u ku vu Ur up cz Zl z kz vz Zr :
  Rep T np (f1 :: FR cg (N RED Ul u ku vu Ur) g kg vg :: up) (N cz Zl z kz vz Zr) →
  ∃ T', _insert_fixup_body T z = (T', g) ∧
    Rep T' np up
      (N RED (N BLACK Ul u ku vu Ur) g kg vg (fill (frecolor BLACK f1) (N cz Zl z kz vz Zr))).
Proof.
  intros HR. cbv beta delta [_insert_fixup_body]. unfold_sets.
  destruct f1 as [cp p kp vp Pr|cp Pl p kp vp]; rep_open HR; repeat hstep.
  all: eexists; (split; [done|]); rep_done.
Qed.

(** Cases 2 and 3, parent on the left: the uncle [U] is BLACK. *)
Lemma insert_fixup_L2 T np cp Pl p kp vp cg g kg vg U up cz Zl z kz vz Zr :
  col U = BLACK →
  Rep T np (FR cp Pl p kp vp :: FL cg g kg vg U :: up) (N cz Zl z kz vz Zr) →
  ∃ T', _insert_fixup_body T z = (T', p) ∧
    Rep T' np (FL BLACK z kz vz (N RED Zr g kg vg U) :: up) (N cp Pl p kp vp Zl).
Proof.
  intros HU HR. cbv beta delta [_insert_fixup_body]. unfold_sets.
  destruct U as [|cu Ul u ku vu Ur]; simpl in HU; subst; rep_open HR; repeat hstep.
  - rot_left np (FL cg g kg vg (@E K V) :: up) (N cp Pl p kp vp (N cz Zl z kz vz Zr)).
    repeat hstep.
    rot_right np up (N RED (N BLACK (N cp Pl p kp vp Zl) z kz vz Zr) g kg vg E).
    eexists; (split; [done|]); rep_done.
  - rot_left np (FL cg g kg vg (N BLACK Ul u ku vu Ur) :: up)
      (N cp Pl p kp vp (N cz Zl z kz vz Zr)).
    repeat hstep.
    rot_right np up
      (N RED (N BLACK (N cp Pl p kp vp Zl) z kz vz Zr) g kg vg (N BLACK Ul u ku vu Ur)).
    eexists; (split; [done|]); rep_done.
Qed.

Lemma insert_fixup_L3 T np cp p kp vp Pr cg g kg vg U up cz Zl z kz vz Zr :
  col U = BLACK →
  Rep T np (FL cp p kp vp Pr :: FL cg g kg vg U :: up) (N cz Zl z kz vz Zr) →
  ∃ T', _insert_fixup_body T z = (T', z) ∧
    Rep T' np (FL BLACK p kp vp (N RED Pr g kg vg U) :: up) (N cz Zl z kz vz Zr).
Proof.
  intros HU HR. cbv beta delta [_insert_fixup_body]. unfold_sets.
  destruct U as [|cu Ul u ku vu Ur]; simpl in HU; subst; rep_open HR; repeat hstep.
  - rot_right np up (N RED (N BLACK (N cz Zl z kz vz Zr) p kp vp Pr) g kg vg E).
    eexists; (split; [done|]); rep_done.
  - rot_right np up
      (N RED (N BLACK (N cz Zl z kz vz Zr) p kp vp Pr) g kg vg (N BLACK Ul u ku vu Ur)).
    eexists; (split; [done|]); rep_done.
Qed.

(** Cases 2 and 3, parent on the right. *)
Lemma insert_fixup_R2 T np cp p kp vp Pr cg g kg vg U up cz Zl z kz vz Zr :
  col U = BLACK →
  Rep T np (FL cp p kp vp Pr :: FR cg U g kg vg :: up) (N cz Zl z kz vz Zr) →
  ∃ T', _insert_fixup_body T z = (T', p) ∧
    Rep T' np (FR BLACK (N RED U g kg vg Zl) z kz vz :: up) (N cp Zr p kp vp Pr).
Proof.
  intros HU HR. cbv beta delta [_insert_fixup_body]. unfold_sets.
  destruct U as [|cu Ul u ku vu Ur]; simpl in HU; subst; rep_open HR; repeat hstep.
  - rot_right np (FR cg (@E K V) g kg vg :: up) (N cp (N cz Zl z kz vz Zr) p kp vp Pr).
    repeat hstep.
    rot_left np up (N RED E g kg vg (N BLACK Zl z kz vz (N cp Zr p kp vp Pr))).
    eexists; (split; [done|]); rep_done.
  - rot_right np (FR cg (N BLACK Ul u ku vu Ur) g kg vg :: up)
      (N cp (N cz Zl z kz vz Zr) p kp vp Pr).
    repeat hstep.
    rot_left np up
      (N RED (N BLACK Ul u ku vu Ur) g kg vg (N BLACK Zl z kz vz (N cp Zr p kp vp Pr))).
    eexists; (split; [done|]); rep_done.
Qed.

Lemma insert_fixup_R3 T np cp Pl p kp vp cg g kg vg U up cz Zl z kz vz Zr :
  col U = BLACK →
  Rep T np (FR cp Pl p kp vp :: FR cg U g kg vg :: up) (N cz Zl z kz vz Zr) →
  ∃ T', _insert_fixup_body T z = (T', z) ∧
    Rep T' np (FR BLACK (N RED U g kg vg Pl) p kp vp :: up) (N cz Zl z kz vz Zr).
Proof.
  intros HU HR. cbv beta delta [_insert_fixup_body]. unfold_sets.
  destruct U as [|cu Ul u ku vu Ur]; simpl in HU; subst; rep_open HR; repeat hstep.
  - rot_left np up (N RED E g kg vg (N BLACK Pl p kp vp (N cz Zl z kz vz Zr))).
    eexists; (split; [done|]); rep_done.
  - rot_left np up
      (N RED (N BLACK Ul u ku vu Ur) g kg vg (N BLACK Pl p kp vp (N cz Zl z kz vz Zr))).
    eexists; (split; [done|]); rep_done.
Qed.

End InsertFixupSteps.

Section Blacken.
Context {K V : Type} `{KeyOrd K}.
Implicit Types (T : RBTree K V) (c up : ctx K V) (t : tree K V) (f : frame K V).

(** The effect of [self.root.color = BLACK]. *)
Definition blacken (t : tree K V) : tree K V :=
  match t with
  | E => E
  | N _ l a k v r => N BLACK l a k v r
  end.

Lemma elements_blacken t : elements (blacken t) = elements t.
Proof. by destruct t. Qed.

Lemma rbt_blacken n t : rbt n t → is_rb (blacken t).
Proof.
  destruct t as [|[] l a k v r]; simpl; intros Hn.
  - split; [done|]. by exists n.
  - destruct Hn as (_ & _ & ? & ?). split; [done|]. by exists (S n).
  - split; [done|]. by exists n.
Qed.

Lemma Rep_blacken_root T np t :
  Rep T np [] t → Rep (set_color T (root T) BLACK) np [] (blacken t).
Proof.
  intros HR. rewrite (Rep_root _ _ _ HR). destruct t as [|co l a k v r]; simpl.
  - by apply Rep_set_color_NIL.
  - by apply Rep_set_color with co.
Qed.

Lemma plug_rbt n c t :
  crb n c → rbt n t → (pcol c = RED → col t = BLACK) → ∃ m, rbt m (plug c t).
Proof.
  revert n t. induction c as [|f up IH]; intros n t Hc Ht Hred.
  - by exists n.
  - simpl in Hc. destruct Hc as [Hsib Hc]. simpl.
    destruct f as [co a k v r|co l a k v]; simpl in *; destruct co.
    + destruct Hc as (?&?&?&?). apply (IH n); simpl; intuition congruence.
    + apply (IH (S n)); simpl; done.
    + destruct Hc as (?&?&?&?). apply (IH n); simpl; intuition congruence.
    + apply (IH (S n)); simpl; done.
Qed.

Lemma Rep_pcol T np c t : Rep T np c t → color_of T (caddr c NIL) = pcol c.
Proof.
  intros HR. destruct c as [|[]]; rep_open HR; by repeat hstep.
Qed.

Lemma rbt_fill_black n f t :
  rbt n t → rbt n (fsib f) → rbt (S n) (fill (frecolor BLACK f) t).
Proof. by destruct f. Qed.

Lemma col_fill_recolor co f t : col (fill (frecolor co f) t) = co.
Proof. by destruct f. Qed.

Lemma elements_fill_recolor co f t :
  elements (fill (frecolor co f) t) = elements (fill f t).
Proof. by destruct f. Qed.

(** Leaving the loop: the parent of [z] is BLACK (or [z] is the root). *)
Lemma insert_fixup_exit T np c n t :
  Rep T np c t → rbt n t → crb n c → pcol c = BLACK →
  ∃ t', Rep (set_color T (root T) BLACK) np [] t' ∧ is_rb t' ∧
        elements t' = elements (plug c t).
Proof.
  intros HR Ht Hc Hp. exists (blacken (plug c t)). split; [|split].
  - apply Rep_blacken_root. by apply (proj1 (Rep_plug _ _ _ _)).
  - destruct (plug_rbt n c t) as [m Hm]; [done|done|congruence|].
    by apply rbt_blacken with m.
  - apply elements_blacken.
Qed.

End Blacken.

Ltac elems :=
  cbn [plug fill]; rewrite ?elements_plug; cbn [elements cbefore cafter];
  rewrite ?elements_fill_recolor; cbn [elements fill];
  repeat first [rewrite <- app_assoc | rewrite <- app_comm_cons | progress cbn [app]];
  try done.

Section InsertFixup.
Context {K V : Type} `{KeyOrd K}.
Implicit Types (T : RBTree K V) (c up : ctx K V) (t : tree K V) (f : frame K V).

Lemma insert_fixup_spec fuel T np c n Zl z kz vz Zr :
  Rep T np c (N RED Zl z kz vz Zr) → rbt n (N RED Zl z kz vz Zr) → crb n c →
  length c < fuel →
  ∃ T' t', _insert_fixup fuel T z = Some T' ∧ Rep T' np [] t' ∧ is_rb t' ∧
           elements t' = elements (plug c (N RED Zl z kz vz Zr)).
Proof.
  revert T c n Zl z kz vz Zr.
  induction fuel as [|fuel IH]; intros T c n Zl z kz vz Zr HR Hz Hc Hfuel; [lia|].
  simpl. rewrite (Rep_parent _ _ _ _ _ _ _ _ _ HR), (Rep_pcol _ _ _ _ HR).
  destruct (pcol c) eqn:Hp; simpl.
  2: { destruct (insert_fixup_exit _ _ _ _ _ HR Hz Hc Hp) as (t' & ? & ? & ?).
       by exists (set_color T (root T) BLACK), t'. }
  destruct c as [|f1 [|f2 up]]; simpl in Hp; [done|..].
  { simpl in Hc. rewrite Hp in Hc. by destruct Hc as (_ & _ & _ & ? & _). }
  simpl in Hc. rewrite Hp in Hc. destruct Hc as (Hs1 & Hcs1 & Hp2 & _ & Hs2 & Hc).
  simpl in Hp2. rewrite Hp2 in Hc. simpl in Hz. destruct Hz as (Hcl & Hcr & Hzl & Hzr).
  simpl in Hfuel.
  destruct f2 as [cg g kg vg U|cg U g kg vg]; simpl in *; subst cg.
  - destruct (col U) eqn:HU.
    + destruct U as [|cu Ul u ku vu Ur]; simpl in HU; [done|]. subst cu.
      apply insert_fixup_L1 in HR as (T' & Hb & HR'). rewrite Hb.
      simpl in Hs2. destruct Hs2 as (_ & _ & ? & ?).
      destruct (IH T' up (S n) _ _ _ _ _ HR') as (T'' & t' & Hfix & ? & ? & Hel);
        [|done|lia|].
      { simpl. rewrite col_fill_recolor. repeat split; try done.
        by apply rbt_fill_black. }
      exists T'', t'. do 3 (split; [done|]). rewrite Hel. destruct f1; elems.
    + destruct f1 as [cp p kp vp Pr|cp Pl p kp vp]; simpl in *; subst cp.
      * apply insert_fixup_L3 in HR as (T' & Hb & HR'); [|exact HU]. rewrite Hb.
        destruct (IH T' _ n _ _ _ _ _ HR') as (T'' & t' & Hfix & ? & ? & Hel);
          [by simpl|by simpl|simpl; lia|].
        exists T'', t'. do 3 (split; [done|]). rewrite Hel. elems.
      * apply insert_fixup_L2 in HR as (T' & Hb & HR'); [|exact HU]. rewrite Hb.
        destruct (IH T' _ n _ _ _ _ _ HR') as (T'' & t' & Hfix & ? & ? & Hel);
          [by simpl|by simpl|simpl; lia|].
        exists T'', t'. do 3 (split; [done|]). rewrite Hel. elems.
  - destruct (col U) eqn:HU.
    + destruct U as [|cu Ul u ku vu Ur]; simpl in HU; [done|]. subst cu.
      apply insert_fixup_R1 in HR as (T' & Hb & HR'). rewrite Hb.
      simpl in Hs2. destruct Hs2 as (_ & _ & ? & ?).
      destruct (IH T' up (S n) _ _ _ _ _ HR') as (T'' & t' & Hfix & ? & ? & Hel);
        [|done|lia|].
      { simpl. rewrite col_fill_recolor. repeat split; try done.
        by apply rbt_fill_black. }
      exists T'', t'. do 3 (split; [done|]). rewrite Hel. destruct f1; elems.
    + destruct f1 as [cp p kp vp Pr|cp Pl p kp vp]; simpl in *; subst cp.
      * apply insert_fixup_R2 in HR as (T' & Hb & HR'); [|exact HU]. rewrite Hb.
        destruct (IH T' _ n _ _ _ _ _ HR') as (T'' & t' & Hfix & ? & ? & Hel);
          [by simpl|by simpl|simpl; lia|].
        exists T'', t'. do 3 (split; [done|]). rewrite Hel. elems.
      * apply insert_fixup_R3 in HR as (T' & Hb & HR'); [|exact HU]. rewrite Hb.
        destruct (IH T' _ n _ _ _ _ _ HR') as (T'' & t' & Hfix & ? & ? & Hel);
          [by simpl|by simpl|simpl; lia|].
        exists T'', t'. do 3 (split; [done|]). rewrite Hel. elems.
Qed.

End InsertFixup.

Section InsertSpec.
Context {K V : Type} `{KeyOrdLaws K}.
Implicit Types (T : RBTree K V) (c up : ctx K V) (t : tree K V) (f : frame K V).

Lemma is_rb_plug_revalue c co l a k v0 v r :
  is_rb (plug c (N co l a k v0 r)) → is_rb (plug c (N co l a k v r)).
Proof.
  intros [Hcol [m Hm]].
  destruct (plug_rb_inv _ _ _ Hm Hcol) as (n & Hn & Hc & Hred).
  apply (plug_rb n); try done.
  intros ->. exact Hcol.
Qed.

(** [insert] on a represented red-black search tree: the result is again
    one, and its contents are those of the sorted-list insertion. *)
Lemma insert_spec T np t k v :
  Rep T np [] t → is_rb t → ksorted (elements t) →
  ∃ T' a t', insert T k v = Some (T', a) ∧ Rep T' np [] t' ∧ is_rb t' ∧
             elements t' = l_insert k v (elements t).
Proof.
  intros HR Hrb Hsort. unfold insert.
  destruct (insert_descend_spec (length (heap T)) T np [] t k HR) as [Hd HR'].
  { pose proof (Rep_size _ _ _ _ HR). lia. }
  simpl in Hd. rewrite (Rep_root _ _ _ HR), Hd. simpl.
  pose proof (descend_plug k [] t) as Hplug.
  pose proof (descend_dir_ok k [] t I) as Hdir.
  destruct (descend_bounds k [] t) as (Hlt & Hgt & Hsort'); [by constructor..|done|].
  pose proof (descend_found k [] t) as Hfound.
  destruct (descend k [] t) as [c' t'] eqn:Hdesc. simpl in *.
  assert (elements t = cbefore c' ++ elements t' ++ cafter c') as Hel.
  { by rewrite <- Hplug, elements_plug. }
  destruct Hfound as [->|(co & l & a & v0 & r & ->)].
  - destruct (insert_link_spec T np c' k v HR' Hdir) as (T2 & Hlink & Hlen & HR2).
    unfold alloc. cbn beta zeta iota in Hlink |- *. rewrite Hlink. simpl.
    destruct Hrb as [Hcol [m Hm]]. rewrite <- Hplug in Hm, Hcol.
    destruct (plug_rb_inv _ _ _ Hm Hcol) as (n & Hn & Hc & Hred). simpl in Hn. subst n.
    destruct (insert_fixup_spec (length (heap T2)) T2 np c' 0 E (length (heap T)) k v E)
      as (T' & tf & Hfix & HRf & Hrbf & Helf); try done.
    { pose proof (Rep_size _ _ _ _ HR2). simpl in *. lia. }
    rewrite Hfix. simpl. exists T', (length (heap T)), tf.
    do 3 (split; [done|]). rewrite Helf, elements_plug, Hel. simpl.
    by rewrite l_insert_new.
  - simpl. exists (set_value T a v), a, (plug c' (N co l a k v r)).
    split; [done|]. split; [|split].
    + apply (proj1 (Rep_plug _ _ _ _)). by apply Rep_set_value with v0.
    + apply is_rb_plug_revalue with v0. by rewrite Hplug.
    + rewrite elements_plug, Hel. simpl.
      assert (∀ x, cbefore c' ++ (elements l ++ x :: elements r) ++ cafter c' =
                   (cbefore c' ++ elements l) ++ x :: (elements r ++ cafter c')) as Hassoc.
      { intros x. by rewrite <- !app_assoc. }
      rewrite !Hassoc. rewrite l_insert_replace; [done|].
      apply keys_lt_app. split; [done|].
      simpl in Hsort'. by apply ksorted_mid in Hsort' as (_ & _ & ? & _).
Qed.

End InsertSpec.

(** ** Deletion: unlinking the node *)

Section CtxApp.
Context {K V : Type} `{KeyOrd K}.
Implicit Types (T : RBTree K V) (c up : ctx K V) (t : tree K V) (f : frame K V).

Lemma caddr_app c1 c2 top : caddr (c1 ++ c2) top = caddr c1 (caddr c2 top).
Proof. by destruct c1. Qed.

Lemma croot_app c1 c2 child : croot (c1 ++ c2) child = croot c2 (croot c1 child).
Proof. revert child. induction c1 as [|f c1 IH]; intros child; simpl; [done|by rewrite IH]. Qed.

Lemma ccells_app c1 c2 child top :
  ccells (c1 ++ c2) child top =
  ccells c1 child (caddr c2 top) ++ ccells c2 (croot c1 child) top.
Proof.
  revert child. induction c1 as [|f c1 IH]; intros child; simpl; [done|].
  by rewrite IH, caddr_app, <- app_assoc.
Qed.

Lemma plug_app c1 c2 t : plug (c1 ++ c2) t = plug c2 (plug c1 t).
Proof. revert t. induction c1 as [|f c1 IH]; intros t; simpl; [done|by rewrite IH]. Qed.

(** The value the sentinel's parent field has after [v.parent = p]. *)
Definition np_after (t : tree K V) (p np : ptr) : ptr :=
  match t with E => p | N _ _ _ _ _ _ => np end.

End CtxApp.

Section Transplant.
Context {K V : Type} `{KeyOrd K}.
Implicit Types (T : RBTree K V) (c up : ctx K V) (t : tree K V) (f : frame K V).

(** [_transplant(z, z.right)] and [_transplant(z, z.left)]: the subtree
    takes the place of [z]; [z] and its other subtree are unlinked. *)
Lemma Rep_transplant_right T np c cz L z kz vz R :
  Rep T np c (N cz L z kz vz R) →
  Rep (_transplant T z (addr R)) (np_after R (caddr c NIL) np) c R.
Proof.
  intros HR. cbv beta delta [_transplant]. unfold_sets.
  destruct R as [|cr Rl r kr vr Rr];
    destruct c as [|[cp p kp vp S|cp S p kp vp] up]; rep_open HR; repeat hstep.
  all: rep_done.
Qed.

Lemma Rep_transplant_left T np c cz L z kz vz R :
  Rep T np c (N cz L z kz vz R) →
  Rep (_transplant T z (addr L)) (np_after L (caddr c NIL) np) c L.
Proof.
  intros HR. cbv beta delta [_transplant]. unfold_sets.
  destruct L as [|cl Ll l kl vl Lr];
    destruct c as [|[cp p kp vp S|cp S p kp vp] up]; rep_open HR; repeat hstep.
  all: rep_done.
Qed.

End Transplant.

Section Splice.
Context {K V : Type} `{KeyOrd K}.
Implicit Types (T : RBTree K V) (c up : ctx K V) (t : tree K V) (f : frame K V).

(** The two-children branch of [delete], from [x = y.right] to
    [y.color = z.color]: [y], the minimum of [z]'s right subtree, takes
    the place of [z]. *)
Definition splice2 (T : RBTree K V) (z y : ptr) : RBTree K V :=
  let x := right_of T y in
  let T :=
    if parent_of T y =? z then set_parent T x y
    else
      let T := _transplant T y (right_of T y) in
      let T := set_right T y (right_of T z) in
      set_parent T (right_of T y) y in
  let T := _transplant T z y in
  let T := set_left T y (left_of T z) in
  let T := set_parent T (left_of T y) y in
  set_color T y (color_of T z).

(** [y] is the right child of [z]. *)
Lemma Rep_splice2_child T np c cz cl Ll l kl vl Lr z kz vz cy y ky vy X :
  Rep T np (FR cz (N cl Ll l kl vl Lr) z kz vz :: c) (N cy E y ky vy X) →
  Rep (splice2 T z y) (np_after X y np) (FR cz (N cl Ll l kl vl Lr) y ky vy :: c) X.
Proof.
  intros HR. cbv beta delta [splice2 _transplant]. unfold_sets.
  destruct X as [|cx Xl x kx vx Xr];
    destruct c as [|[cp p kp vp S|cp S p kp vp] up]; rep_open HR; repeat hstep.
  all: rep_done.
Qed.

(** [y] is the left child of [r], the right child of [z]. *)
Lemma Rep_splice2_grandchild T np c cz cl Ll l kl vl Lr z kz vz cr r kr vr Rr
    cy y ky vy X :
  Rep T np (FL cr r kr vr Rr :: FR cz (N cl Ll l kl vl Lr) z kz vz :: c)
    (N cy E y ky vy X) →
  Rep (splice2 T z y) (np_after X r np)
    (FL cr r kr vr Rr :: FR cz (N cl Ll l kl vl Lr) y ky vy :: c) X.
Proof.
  intros HR. cbv beta delta [splice2 _transplant]. unfold_sets.
  destruct X as [|cx Xl x kx vx Xr];
    destruct c as [|[cp p kp vp S|cp S p kp vp] up]; rep_open HR; repeat hstep.
  all: rep_done.
Qed.

(** [y] lies deeper on the left spine below [r]. *)
Lemma Rep_splice2_deep T np c cJ cz cl Ll l kl vl Lr z kz vz cr r kr vr Rr
    cq q kq vq Qr cy y ky vy X :
  Rep T np
    (FL cq q kq vq Qr :: cJ ++ FL cr r kr vr Rr :: FR cz (N cl Ll l kl vl Lr) z kz vz :: c)
    (N cy E y ky vy X) →
  Rep (splice2 T z y) (np_after X q np)
    (FL cq q kq vq Qr :: cJ ++ FL cr r kr vr Rr :: FR cz (N cl Ll l kl vl Lr) y ky vy :: c)
    X.
Proof.
  intros HR. cbv beta delta [splice2 _transplant]. unfold_sets.
  destruct HR as [Hr Hs]. simpl in Hr. rewrite croot_app in Hr.
  hsimpl_in Hs. rewrite ccells_app, caddr_app in Hs.
  destruct X as [|cx Xl x kx vx Xr];
    destruct c as [|[cp p kp vp S|cp S p kp vp] up]; hsimpl_in Hs; hsimpl_in Hr;
    repeat hstep.
  all: split; [simpl; rewrite croot_app; simpl; congruence|].
  all: cbn [ccells]; rewrite ccells_app, caddr_app; sat_done.
Qed.

End Splice.

(** ** Deletion: restoring the colours *)

Section DeleteFixupSteps.
Context {K V : Type} `{KeyOrd K}.
Implicit Types (T : RBTree K V) (c up : ctx K V) (t : tree K V) (f : frame K V).

(** The loop body in two parts per side: the RED-sibling case, which
    falls through, and the rest. *)
Definition del_case1_l (T : RBTree K V) (x : ptr) : RBTree K V * ptr :=
  let w := right_of T (parent_of T x) in
  if is_red (color_of T w) then
    let T := set_color T w BLACK in
    let T := set_color T (parent_of T x) RED in
    let T := _left_rotate T (parent_of T x) in
    (T, right_of T (parent_of T x))
  else (T, w).

Definition del_rest_l (T : RBTree K V) (x w : ptr) : RBTree K V * ptr :=
  if negb (is_red (color_of T (left_of T w))) && negb (is_red (color_of T (right_of T w))) then
    let T := set_color T w RED in
    (T, parent_of T x)
  else
    let '(T, w) :=
      if negb (is_red (color_of T (right_of T w))) then
        let T := set_color T (left_of T w) BLACK in
        let T := set_color T w RED in
        let T := _right_rotate T w in
        (T, right_of T (parent_of T x))
      else (T, w) in
    let T := set_color T w (color_of T (parent_of T x)) in
    let T := set_color T (parent_of T x) BLACK in
    let T := set_color T (right_of T w) BLACK in
    let T := _left_rotate T (parent_of T x) in
    (T, root T).

Definition del_case1_r (T : RBTree K V) (x : ptr) : RBTree K V * ptr :=
  let w := left_of T (parent_of T x) in
  if is_red (color_of T w) then
    let T := set_color T w BLACK in
    let T := set_color T (parent_of T x) RED in
    let T := _right_rotate T (parent_of T x) in
    (T, left_of T (parent_of T x))
  else (T, w).

Definition del_rest_r (T : RBTree K V) (x w : ptr) : RBTree K V * ptr :=
  if negb (is_red (color_of T (right_of T w))) && negb (is_red (color_of T (left_of T w))) then
    let T := set_color T w RED in
    (T, parent_of T x)
  else
    let '(T, w) :=
      if negb (is_red (color_of T (left_of T w))) then
        let T := set_color T (right_of T w) BLACK in
        let T := set_color T w RED in
        let T := _left_rotate T w in
        (T, left_of T (parent_of T x))
      else (T, w) in
    let T := set_color T w (color_of T (parent_of T x)) in
    let T := set_color T (parent_of T x) BLACK in
    let T := set_color T (left_of T w) BLACK in
    let T := _right_rotate T (parent_of T x) in
    (T, root T).

Lemma delete_fixup_body_eq T x :
  _delete_fixup_body T x =
  if x =? left_of T (parent_of T x) then
    let '(T, w) := del_case1_l T x in del_rest_l T x w
  else
    let '(T, w) := del_case1_r T x in del_rest_r T x w.
Proof. reflexivity. Qed.

(** [np_ok np c t]: when [t] is empty, the sentinel's parent field points
    to the parent of the hole. *)
Definition np_ok (np : ptr) (c : ctx K V) (t : tree K V) : Prop :=
  t = E → np = caddr c NIL.

Lemma del_case1_l_red T np cp p kp vp Wl w kw vw Wr up X :
  Rep T np (FL cp p kp vp (N RED Wl w kw vw Wr) :: up) X → (X = E → np = p) →
  ∃ T', del_case1_l T (addr X) = (T', addr Wl) ∧
    Rep T' np (FL RED p kp vp Wl :: FL BLACK w kw vw Wr :: up) X.
Proof.
  intros HR Hnp. cbv beta delta [del_case1_l]. unfold_sets. rep_open HR. repeat hstep.
  rot_left np up (N RED X p kp vp (N BLACK Wl w kw vw Wr)).
  repeat hstep. eexists; (split; [done|]); rep_done.
Qed.

Lemma del_case1_l_black T np cp p kp vp W up X :
  Rep T np (FL cp p kp vp W :: up) X → (X = E → np = p) → col W = BLACK →
  del_case1_l T (addr X) = (T, addr W).
Proof.
  intros HR Hnp HW. cbv beta delta [del_case1_l]. rep_open HR. repeat hstep.
  rewrite HW. by repeat hstep.
Qed.

Lemma del_rest_l_case2 T np cp p kp vp cw Wl w kw vw Wr up X :
  Rep T np (FL cp p kp vp (N cw Wl w kw vw Wr) :: up) X → (X = E → np = p) →
  col Wl = BLACK → col Wr = BLACK →
  ∃ T', del_rest_l T (addr X) w = (T', p) ∧
    Rep T' np up (N cp X p kp vp (N RED Wl w kw vw Wr)).
Proof.
  intros HR Hnp Hl Hr'. cbv beta delta [del_rest_l]. unfold_sets. rep_open HR.
  repeat first [hstep | rewrite Hl | rewrite Hr'].
  eexists; (split; [done|]); rep_done.
Qed.

Lemma del_rest_l_case3 T np cp p kp vp cw A a ka va B w kw vw Wr up X :
  Rep T np (FL cp p kp vp (N cw (N RED A a ka va B) w kw vw Wr) :: up) X →
  (X = E → np = p) → col Wr = BLACK →
  ∃ T', del_rest_l T (addr X) w = (T', croot up a) ∧
    Rep T' np up (N cp (N BLACK X p kp vp A) a ka va (N BLACK B w kw vw Wr)).
Proof.
  intros HR Hnp Hr'. cbv beta delta [del_rest_l]. unfold_sets. rep_open HR.
  repeat first [hstep | rewrite Hr'].
  rot_right np (FR cp X p kp vp :: up) (N RED (N BLACK A a ka va B) w kw vw Wr).
  repeat hstep.
  rot_left np up (N BLACK X p kp vp (N cp A a ka va (N BLACK B w kw vw Wr))).
  repeat hstep. eexists; (split; [done|]); rep_done.
Qed.

Lemma del_rest_l_case4 T np cp p kp vp cw Wl w kw vw C wr kr vr D up X :
  Rep T np (FL cp p kp vp (N cw Wl w kw vw (N RED C wr kr vr D)) :: up) X →
  (X = E → np = p) →
  ∃ T', del_rest_l T (addr X) w = (T', croot up w) ∧
    Rep T' np up (N cp (N BLACK X p kp vp Wl) w kw vw (N BLACK C wr kr vr D)).
Proof.
  intros HR Hnp. cbv beta delta [del_rest_l]. unfold_sets. rep_open HR.
  repeat first [hstep | rewrite andb_false_r].
  rot_left np up (N BLACK X p kp vp (N cp Wl w kw vw (N BLACK C wr kr vr D))).
  repeat hstep. eexists; (split; [done|]); rep_done.
Qed.

Lemma del_case1_r_red T np cp p kp vp Wl w kw vw Wr up X :
  Rep T np (FR cp (N RED Wl w kw vw Wr) p kp vp :: up) X → (X = E → np = p) →
  ∃ T', del_case1_r T (addr X) = (T', addr Wr) ∧
    Rep T' np (FR RED Wr p kp vp :: FR BLACK Wl w kw vw :: up) X.
Proof.
  intros HR Hnp. cbv beta delta [del_case1_r]. unfold_sets. rep_open HR. repeat hstep.
  rot_right np up (N RED (N BLACK Wl w kw vw Wr) p kp vp X).
  repeat hstep. eexists; (split; [done|]); rep_done.
Qed.

Lemma del_case1_r_black T np cp p kp vp W up X :
  Rep T np (FR cp W p kp vp :: up) X → (X = E → np = p) → col W = BLACK →
  del_case1_r T (addr X) = (T, addr W).
Proof.
  intros HR Hnp HW. cbv beta delta [del_case1_r]. rep_open HR. repeat hstep.
  rewrite HW. by repeat hstep.
Qed.

Lemma del_rest_r_case2 T np cp p kp vp cw Wl w kw vw Wr up X :
  Rep T np (FR cp (N cw Wl w kw vw Wr) p kp vp :: up) X → (X = E → np = p) →
  col Wl = BLACK → col Wr = BLACK →
  ∃ T', del_rest_r T (addr X) w = (T', p) ∧
    Rep T' np up (N cp (N RED Wl w kw vw Wr) p kp vp X).
Proof.
  intros HR Hnp Hl Hr'. cbv beta delta [del_rest_r]. unfold_sets. rep_open HR.
  repeat first [hstep | rewrite Hl | rewrite Hr'].
  eexists; (split; [done|]); rep_done.
Qed.

Lemma del_rest_r_case3 T np cp p kp vp cw Wl w kw vw A a ka va B up X :
  Rep T np (FR cp (N cw Wl w kw vw (N RED A a ka va B)) p kp vp :: up) X →
  (X = E → np = p) → col Wl = BLACK →
  ∃ T', del_rest_r T (addr X) w = (T', croot up a) ∧
    Rep T' np up (N cp (N BLACK Wl w kw vw A) a ka va (N BLACK B p kp vp X)).
Proof.
  intros HR Hnp Hl. cbv beta delta [del_rest_r]. unfold_sets. rep_open HR.
  repeat first [hstep | rewrite Hl].
  rot_left np (FL cp p kp vp X :: up) (N RED Wl w kw vw (N BLACK A a ka va B)).
  repeat hstep.
  rot_right np up (N BLACK (N cp (N BLACK Wl w kw vw A) a ka va B) p kp vp X).
  repeat hstep. eexists; (split; [done|]); rep_done.
Qed.

Lemma del_rest_r_case4 T np cp p kp vp cw C wl kl vl D w kw vw Wr up X :
  Rep T np (FR cp (N cw (N RED C wl kl vl D) w kw vw Wr) p kp vp :: up) X →
  (X = E → np = p) →
  ∃ T', del_rest_r T (addr X) w = (T', croot up w) ∧
    Rep T' np up (N cp (N BLACK C wl kl vl D) w kw vw (N BLACK Wr p kp vp X)).
Proof.
  intros HR Hnp. cbv beta delta [del_rest_r]. unfold_sets. rep_open HR.
  repeat first [hstep | rewrite andb_false_r].
  rot_right np up (N BLACK (N cp (N BLACK C wl kl vl D) w kw vw Wr) p kp vp X).
  repeat hstep. eexists; (split; [done|]); rep_done.
Qed.

End DeleteFixupSteps.

Section DeleteFixupLoop.
Context {K V : Type} `{KeyOrd K}.
Implicit Types (T : RBTree K V) (c up : ctx K V) (t X : tree K V) (f : frame K V).

Lemma plug_ne_E c t : t ≠ E → plug c t ≠ E.
Proof.
  revert t. induction c as [|f c IH]; intros t Ht; [done|].
  simpl. apply IH. by destruct f.
Qed.

Lemma Rep_parent_focus T np c X :
  Rep T np c X → np_ok np c X → parent_of T (addr X) = caddr c NIL.
Proof.
  intros HR Hnp. destruct X as [|co l a k v r].
  - simpl. rewrite (Rep_parent_NIL _ _ _ _ HR). by apply Hnp.
  - by apply Rep_parent with np co l k v r.
Qed.

Lemma Rep_side_l T np cp p kp vp W up X :
  Rep T np (FL cp p kp vp W :: up) X → np_ok np (FL cp p kp vp W :: up) X →
  (addr X =? left_of T (parent_of T (addr X))) = true.
Proof.
  intros HR Hnp. unfold np_ok in Hnp. simpl in Hnp. rep_open HR. by repeat hstep.
Qed.

Lemma Rep_side_r T np cp cw Wl w kw vw Wr p kp vp up X :
  Rep T np (FR cp (N cw Wl w kw vw Wr) p kp vp :: up) X →
  np_ok np (FR cp (N cw Wl w kw vw Wr) p kp vp :: up) X →
  (addr X =? left_of T (parent_of T (addr X))) = false.
Proof.
  intros HR Hnp. unfold np_ok in Hnp. simpl in Hnp. rep_open HR. by repeat hstep.
Qed.

Lemma croot_in_ccells c child top : c ≠ [] → croot c child ∈ (ccells c child top).*1.
Proof.
  revert child. induction c as [|f up IH]; intros child Hc; [done|].
  simpl. destruct up as [|f2 up].
  - destruct f; left.
  - right. rewrite fmap_app. apply elem_of_app. right. by apply IH.
Qed.

Lemma Rep_addr_ne_root T np f up X : Rep T np (f :: up) X → (addr X =? root T) = false.
Proof.
  intros [Hr Hs]. apply Nat.eqb_neq. rewrite Hr. destruct Hs as [Hnd _].
  pose proof (croot_in_ccells (f :: up) (addr X) NIL) as Hin.
  rewrite app_comm_cons, fmap_app in Hnd. apply NoDup_app in Hnd as (_ & Hdisj & _).
  intros Heq. apply (Hdisj (addr X)); [|rewrite Heq at 1; by apply Hin].
  destruct X; simpl; [by left|right; by left].
Qed.

(** Leaving the loop: [x] is the root or is RED. *)
Lemma delete_fixup_exit fuel T np c X :
  Rep T np c X → c = [] ∨ col X = RED →
  _delete_fixup (S fuel) T (addr X) = Some (set_color T (addr X) BLACK) ∧
  Rep (set_color T (addr X) BLACK) np c (blacken X).
Proof.
  intros HR Hex. split.
  - simpl. rewrite (Rep_color _ _ _ _ HR). destruct Hex as [-> | ->].
    + destruct HR as [-> _]. simpl. by rewrite Nat.eqb_refl.
    + simpl. by rewrite andb_false_r.
  - destruct X as [|co l a k v r]; simpl.
    + by apply Rep_set_color_NIL.
    + by apply Rep_set_color with co.
Qed.

(** What one turn of the loop achieves, for a BLACK [x] below the root:
    either a state of the same kind higher up, or a state from which the
    loop leaves with a red-black tree. *)
Definition fixup_next (np : ptr) (c : ctx K V) (c1 : ctx K V) (X1 : tree K V) : Prop :=
  (∃ n1, col X1 = BLACK ∧ rbt n1 X1 ∧ crb (S n1) c1 ∧ length c1 < length c) ∨
  ((c1 = [] ∨ col X1 = RED) ∧ is_rb (plug c1 (blacken X1))).

Lemma fixup_next_root np c c1 t1 m :
  t1 ≠ E → crb m c1 → rbt m t1 → (pcol c1 = RED → col t1 = BLACK) →
  fixup_next np c [] (plug c1 t1).
Proof.
  intros Ht Hc Hm Hred. right. split; [by left|]. simpl.
  destruct (plug_rbt m c1 t1) as [m' Hm']; try done. by apply rbt_blacken with m'.
Qed.

Lemma fixup_next_red np c c1 l a k v r m :
  crb (S m) c1 → rbt m l → rbt m r →
  fixup_next np c c1 (N RED l a k v r).
Proof.
  intros Hc Hl Hr'. right. split; [by right|]. simpl.
  apply (plug_rb (S m)); simpl; done.
Qed.

End DeleteFixupLoop.

Section DeleteFixupStep.
Context {K V : Type} `{KeyOrd K}.
Implicit Types (T : RBTree K V) (c up : ctx K V) (t X : tree K V) (f : frame K V).

Lemma rbt_black_node n t :
  rbt (S n) t → col t = BLACK → ∃ l a k v r, t = N BLACK l a k v r ∧ rbt n l ∧ rbt n r.
Proof.
  destruct t as [|[] l a k v r]; simpl; [done|done|]. intros [? ?] _. eauto 10.
Qed.

Lemma col_red_node t : col t = RED → ∃ l a k v r, t = N RED l a k v r.
Proof. destruct t as [|[] l a k v r]; simpl; [done| |done]. eauto 10. Qed.

Lemma crb_black_up n cp up (W : tree K V) :
  match cp with
  | BLACK => crb (S n) up
  | RED => col W = BLACK ∧ pcol up = BLACK ∧ up ≠ [] ∧ crb n up
  end →
  ∃ m, crb m up ∧ (pcol up = RED → cp = BLACK) ∧ m = (if is_red cp then n else S n).
Proof.
  destruct cp.
  - intros (_ & Hp & _ & Hc). exists n. split; [done|]. split; [congruence|done].
  - intros Hc. exists (S n). done.
Qed.

(** The outcome of cases 3 and 4: a subtree with root colour [cp] and two
    BLACK children replaces the subtree at [p], and [x] becomes the root. *)
Lemma fixup_next_case34 np c cp up (W : tree K V) n l1 a1 k1 v1 r1 b kb vb l2 a2 k2 v2 r2 :
  match cp with
  | BLACK => crb (S (S n)) up
  | RED => col W = BLACK ∧ pcol up = BLACK ∧ up ≠ [] ∧ crb (S n) up
  end →
  rbt n l1 → rbt n r1 → rbt n l2 → rbt n r2 →
  fixup_next np c []
    (plug up (N cp (N BLACK l1 a1 k1 v1 r1) b kb vb (N BLACK l2 a2 k2 v2 r2))).
Proof.
  intros Hc H1 H2 H3 H4.
  destruct (crb_black_up (S n) cp up W Hc) as (m & Hm & Hred & ->).
  apply fixup_next_root with (if is_red cp then S n else S (S n)); try done.
  - destruct cp; simpl; done.
Qed.

Lemma delete_fixup_step_l T np cp p kp vp W up X n :
  Rep T np (FL cp p kp vp W :: up) X → np_ok np (FL cp p kp vp W :: up) X →
  col X = BLACK → rbt n X → crb (S n) (FL cp p kp vp W :: up) →
  ∃ T1 c1 X1, _delete_fixup_body T (addr X) = (T1, addr X1) ∧ Rep T1 np c1 X1 ∧
    np_ok np c1 X1 ∧ elements (plug c1 X1) = elements (plug (FL cp p kp vp W :: up) X) ∧
    fixup_next np (FL cp p kp vp W :: up) c1 X1.
Proof.
  intros HR Hnp HcX HX [HW Hc]. simpl in HW, Hc.
  rewrite delete_fixup_body_eq, (Rep_side_l _ _ _ _ _ _ _ _ _ HR Hnp).
  assert (Hnp' : X = E → np = p) by exact Hnp.
  destruct (col W) eqn:HcW.
  - (* case 1: the sibling is RED *)
    destruct (col_red_node _ HcW) as (Wl & w & kw & vw & Wr & ->).
    simpl in HW. destruct HW as (HcWl & HcWr & HWl & HWr).
    destruct cp; [by destruct Hc as [? _]|].
    apply del_case1_l_red in HR as (T1 & -> & HR1); [|done].
    destruct (rbt_black_node _ _ HWl HcWl) as (A & wl & kl & vl & B & -> & HA & HB).
    simpl addr. destruct (col B) eqn:HcB.
    + destruct (col_red_node _ HcB) as (C & b & kb & vb & D & ->).
      simpl in HB. destruct HB as (_ & _ & HC & HD).
      apply del_rest_l_case4 in HR1 as (T2 & -> & HR2); [|done].
      exists T2, [], (plug (FL BLACK w kw vw Wr :: up)
                        (N RED (N BLACK X p kp vp A) wl kl vl (N BLACK C b kb vb D))).
      split; [by rewrite addr_plug|]. split; [by apply (proj1 (Rep_plug _ _ _ _))|].
      split; [intros Hbad; by apply plug_ne_E in Hbad|]. split; [elems|].
      apply fixup_next_root with (S n); simpl; done.
    + destruct (col A) eqn:HcA.
      * destruct (col_red_node _ HcA) as (C & a & ka & va & D & ->).
        simpl in HA. destruct HA as (_ & _ & HC & HD).
        apply del_rest_l_case3 in HR1 as (T2 & -> & HR2); [|done|done].
        exists T2, [], (plug (FL BLACK w kw vw Wr :: up)
                          (N RED (N BLACK X p kp vp C) a ka va (N BLACK D wl kl vl B))).
        split; [by rewrite addr_plug|]. split; [by apply (proj1 (Rep_plug _ _ _ _))|].
        split; [intros Hbad; by apply plug_ne_E in Hbad|]. split; [elems|].
        apply fixup_next_root with (S n); simpl; done.
      * apply del_rest_l_case2 in HR1 as (T2 & -> & HR2); [|done|done|done].
        exists T2, (FL BLACK w kw vw Wr :: up), (N RED X p kp vp (N RED A wl kl vl B)).
        split; [done|]. split; [done|]. split; [done|]. split; [elems|].
        apply fixup_next_red with n; simpl; done.
  - (* the sibling is BLACK *)
    rewrite (del_case1_l_black _ _ _ _ _ _ _ _ _ HR Hnp' HcW).
    destruct (rbt_black_node _ _ HW HcW) as (A & w & kw & vw & B & -> & HA & HB).
    simpl addr. destruct (col B) eqn:HcB.
    + destruct (col_red_node _ HcB) as (C & b & kb & vb & D & ->).
      simpl in HB. destruct HB as (_ & _ & HC & HD).
      apply del_rest_l_case4 in HR as (T2 & -> & HR2); [|done].
      exists T2, [], (plug up (N cp (N BLACK X p kp vp A) w kw vw (N BLACK C b kb vb D))).
      split; [by rewrite addr_plug|]. split; [by apply (proj1 (Rep_plug _ _ _ _))|].
      split; [intros Hbad; by apply plug_ne_E in Hbad|]. split; [elems|].
      by apply fixup_next_case34 with (N BLACK A w kw vw (N RED C b kb vb D)) n.
    + destruct (col A) eqn:HcA.
      * destruct (col_red_node _ HcA) as (C & a & ka & va & D & ->).
        simpl in HA. destruct HA as (_ & _ & HC & HD).
        apply del_rest_l_case3 in HR as (T2 & -> & HR2); [|done|done].
        exists T2, [], (plug up (N cp (N BLACK X p kp vp C) a ka va (N BLACK D w kw vw B))).
        split; [by rewrite addr_plug|]. split; [by apply (proj1 (Rep_plug _ _ _ _))|].
        split; [intros Hbad; by apply plug_ne_E in Hbad|]. split; [elems|].
        by apply fixup_next_case34 with (N BLACK (N RED C a ka va D) w kw vw B) n.
      * apply del_rest_l_case2 in HR as (T2 & -> & HR2); [|done|done|done].
        exists T2, up, (N cp X p kp vp (N RED A w kw vw B)).
        split; [done|]. split; [done|]. split; [done|]. split; [elems|].
        destruct cp.
        -- destruct Hc as (_ & Hp & _ & Hc). by apply fixup_next_red with n.
        -- left. exists (S n). simpl. repeat split; try done. lia.
Qed.

Lemma delete_fixup_step_r T np cp p kp vp W up X n :
  Rep T np (FR cp W p kp vp :: up) X → np_ok np (FR cp W p kp vp :: up) X →
  col X = BLACK → rbt n X → crb (S n) (FR cp W p kp vp :: up) →
  ∃ T1 c1 X1, _delete_fixup_body T (addr X) = (T1, addr X1) ∧ Rep T1 np c1 X1 ∧
    np_ok np c1 X1 ∧ elements (plug c1 X1) = elements (plug (FR cp W p kp vp :: up) X) ∧
    fixup_next np (FR cp W p kp vp :: up) c1 X1.
Proof.
  intros HR Hnp HcX HX [HW Hc]. simpl in HW, Hc.
  rewrite delete_fixup_body_eq.
  assert (Hnp' : X = E → np = p) by exact Hnp.
  destruct (col W) eqn:HcW.
  - (* case 1: the sibling is RED *)
    destruct (col_red_node _ HcW) as (Wl & w & kw & vw & Wr & ->).
    rewrite (Rep_side_r _ _ _ _ _ _ _ _ _ _ _ _ _ _ HR Hnp).
    simpl in HW. destruct HW as (HcWl & HcWr & HWl & HWr).
    destruct cp; [by destruct Hc as [? _]|].
    apply del_case1_r_red in HR as (T1 & -> & HR1); [|done].
    destruct (rbt_black_node _ _ HWr HcWr) as (A & wr & kr & vr & B & -> & HA & HB).
    simpl addr. destruct (col A) eqn:HcA.
    + destruct (col_red_node _ HcA) as (C & a & ka & va & D & ->).
      simpl in HA. destruct HA as (_ & _ & HC & HD).
      apply del_rest_r_case4 in HR1 as (T2 & -> & HR2); [|done].
      exists T2, [], (plug (FR BLACK Wl w kw vw :: up)
                        (N RED (N BLACK C a ka va D) wr kr vr (N BLACK B p kp vp X))).
      split; [by rewrite addr_plug|]. split; [by apply (proj1 (Rep_plug _ _ _ _))|].
      split; [intros Hbad; by apply plug_ne_E in Hbad|]. split; [elems|].
      apply fixup_next_root with (S n); simpl; done.
    + destruct (col B) eqn:HcB.
      * destruct (col_red_node _ HcB) as (C & b & kb & vb & D & ->).
        simpl in HB. destruct HB as (_ & _ & HC & HD).
        apply del_rest_r_case3 in HR1 as (T2 & -> & HR2); [|done|done].
        exists T2, [], (plug (FR BLACK Wl w kw vw :: up)
                          (N RED (N BLACK A wr kr vr C) b kb vb (N BLACK D p kp vp X))).
        split; [by rewrite addr_plug|]. split; [by apply (proj1 (Rep_plug _ _ _ _))|].
        split; [intros Hbad; by apply plug_ne_E in Hbad|]. split; [elems|].
        apply fixup_next_root with (S n); simpl; done.
      * apply del_rest_r_case2 in HR1 as (T2 & -> & HR2); [|done|done|done].
        exists T2, (FR BLACK Wl w kw vw :: up), (N RED (N RED A wr kr vr B) p kp vp X).
        split; [done|]. split; [done|]. split; [done|]. split; [elems|].
        apply fixup_next_red with n; simpl; done.
  - (* the sibling is BLACK *)
    destruct (rbt_black_node _ _ HW HcW) as (A & w & kw & vw & B & -> & HA & HB).
    rewrite (Rep_side_r _ _ _ _ _ _ _ _ _ _ _ _ _ _ HR Hnp).
    rewrite (del_case1_r_black _ _ _ _ _ _ _ _ _ HR Hnp' HcW).
    simpl addr. destruct (col A) eqn:HcA.
    + destruct (col_red_node _ HcA) as (C & a & ka & va & D & ->).
      simpl in HA. destruct HA as (_ & _ & HC & HD).
      apply del_rest_r_case4 in HR as (T2 & -> & HR2); [|done].
      exists T2, [], (plug up (N cp (N BLACK C a ka va D) w kw vw (N BLACK B p kp vp X))).
      split; [by rewrite addr_plug|]. split; [by apply (proj1 (Rep_plug _ _ _ _))|].
      split; [intros Hbad; by apply plug_ne_E in Hbad|]. split; [elems|].
      by apply fixup_next_case34 with (N BLACK (N RED C a ka va D) w kw vw B) n.
    + destruct (col B) eqn:HcB.
      * destruct (col_red_node _ HcB) as (C & b & kb & vb & D & ->).
        simpl in HB. destruct HB as (_ & _ & HC & HD).
        apply del_rest_r_case3 in HR as (T2 & -> & HR2); [|done|done].
        exists T2, [], (plug up (N cp (N BLACK A w kw vw C) b kb vb (N BLACK D p kp vp X))).
        split; [by rewrite addr_plug|]. split; [by apply (proj1 (Rep_plug _ _ _ _))|].
        split; [intros Hbad; by apply plug_ne_E in Hbad|]. split; [elems|].
        by apply fixup_next_case34 with (N BLACK A w kw vw (N RED C b kb vb D)) n.
      * apply del_rest_r_case2 in HR as (T2 & -> & HR2); [|done|done|done].
        exists T2, up, (N cp (N RED A w kw vw B) p kp vp X).
        split; [done|]. split; [done|]. split; [done|]. split; [elems|].
        destruct cp.
        -- destruct Hc as (_ & Hp & _ & Hc). by apply fixup_next_red with n.
        -- left. exists (S n). simpl. repeat split; try done. lia.
Qed.

End DeleteFixupStep.

Section DeleteFixupSpec.
Context {K V : Type} `{KeyOrd K}.
Implicit Types (T : RBTree K V) (c up : ctx K V) (t X : tree K V) (f : frame K V).

Lemma elements_plug_blacken c t : elements (plug c (blacken t)) = elements (plug c t).
Proof. by rewrite !elements_plug, elements_blacken. Qed.

Lemma delete_fixup_loop fuel T np c X n :
  Rep T np c X → np_ok np c X → col X = BLACK → rbt n X → crb (S n) c →
  length c < fuel →
  ∃ T' t', _delete_fixup fuel T (addr X) = Some T' ∧ Rep T' np [] t' ∧ is_rb t' ∧
           elements t' = elements (plug c X).
Proof.
  revert T c X n.
  induction fuel as [|fuel IH]; intros T c X n HR Hnp HcX HX Hc Hfuel; [lia|].
  destruct c as [|fr up].
  - destruct (delete_fixup_exit fuel T np [] X HR) as [-> HR']; [by left|].
    eexists _, _. split; [done|]. split; [exact HR'|]. split.
    + by apply rbt_blacken with n.
    + apply elements_blacken.
  - assert (∃ T1 c1 X1, _delete_fixup_body T (addr X) = (T1, addr X1) ∧ Rep T1 np c1 X1 ∧
      np_ok np c1 X1 ∧ elements (plug c1 X1) = elements (plug (fr :: up) X) ∧
      fixup_next np (fr :: up) c1 X1) as (T1 & c1 & X1 & Hbody & HR1 & Hnp1 & Hel & Hnext).
    { destruct fr; [by apply delete_fixup_step_l with n|by apply delete_fixup_step_r with n]. }
    cbn [_delete_fixup].
    rewrite (Rep_addr_ne_root _ _ _ _ _ HR), (Rep_color _ _ _ _ HR), HcX. cbn [negb andb is_red].
    rewrite Hbody. simpl in Hfuel. destruct Hnext as [(n1 & Hc1 & Hn1 & Hcrb1 & Hlen)|[Hex Hrb]].
    + destruct (IH T1 c1 X1 n1) as (T' & t' & Hfix & ? & ? & Hel'); try done.
      { simpl in Hlen. lia. }
      exists T', t'. do 3 (split; [done|]). by rewrite Hel'.
    + destruct fuel as [|fuel]; [lia|].
      destruct (delete_fixup_exit fuel T1 np c1 X1 HR1 Hex) as [-> HR'].
      exists (set_color T1 (addr X1) BLACK), (plug c1 (blacken X1)).
      split; [done|]. split; [by apply (proj1 (Rep_plug _ _ _ _))|].
      split; [done|]. by rewrite elements_plug_blacken.
Qed.

(** [_delete_fixup] from a subtree [X] one BLACK node short: the result is
    a red-black tree with the same contents. *)
Lemma delete_fixup_spec fuel T np c X n :
  Rep T np c X → np_ok np c X → rbt n X → crb (S n) c → length c < fuel →
  ∃ T' t', _delete_fixup fuel T (addr X) = Some T' ∧ Rep T' np [] t' ∧ is_rb t' ∧
           elements t' = elements (plug c X).
Proof.
  intros HR Hnp HX Hc Hfuel. destruct (col X) eqn:HcX.
  - destruct fuel as [|fuel]; [lia|].
    destruct (delete_fixup_exit fuel T np c X HR) as [-> HR']; [by right|].
    exists (set_color T (addr X) BLACK), (plug c (blacken X)).
    split; [done|]. split; [by apply (proj1 (Rep_plug _ _ _ _))|].
    split; [|by rewrite elements_plug_blacken].
    destruct (col_red_node _ HcX) as (l & a & k & v & r & ->).
    simpl in HX. destruct HX as (_ & _ & ? & ?).
    apply (plug_rb (S n)); simpl; done.
  - by apply delete_fixup_loop with n.
Qed.

End DeleteFixupSpec.

(** ** Deletion *)

Section Spine.
Context {K V : Type} `{KeyOrd K}.
Implicit Types (T : RBTree K V) (c up : ctx K V) (t X : tree K V) (f : frame K V).

Definition is_FL (f : frame K V) : Prop :=
  match f with FL _ _ _ _ _ => True | FR _ _ _ _ _ => False end.

Lemma descend_min_spine c t : ∃ cM, (descend_min c t).1 = cM ++ c ∧ Forall is_FL cM.
Proof.
  revert c. induction t as [|co l IHl a k v r IHr]; intros c.
  - by exists [].
  - simpl. destruct l as [|co' l' a' k' v' r'].
    + by exists [].
    + destruct (IHl (FL co a k v r :: c)) as (cM & -> & HcM).
      exists (cM ++ [FL co a k v r]). split; [by rewrite <- app_assoc|].
      apply Forall_app. split; [done|]. by apply Forall_singleton.
Qed.

Lemma spine_cases (cM : ctx K V) :
  Forall is_FL cM →
  cM = [] ∨ (∃ cr r kr vr Rr, cM = [FL cr r kr vr Rr]) ∨
  (∃ cq q kq vq Qr cJ cr r kr vr Rr,
     cM = FL cq q kq vq Qr :: cJ ++ [FL cr r kr vr Rr]).
Proof.
  intros HcM. destruct cM as [|fr cI _] using rev_ind; [by left|].
  right. apply Forall_app in HcM as [HcI Hfr]. rewrite Forall_singleton in Hfr.
  destruct fr as [cr r kr vr Rr|]; [|simpl in Hfr; contradiction].
  destruct cI as [|fq cJ]; [left; eauto 10|].
  right. apply Forall_cons in HcI as [Hfq _]. destruct fq as [cq q kq vq Qr|]; [|simpl in Hfq; contradiction].
  eauto 20.
Qed.

Lemma cbefore_app c1 c2 : cbefore (c1 ++ c2) = cbefore c2 ++ cbefore c1.
Proof.
  induction c1 as [|f c1 IH]; simpl; [by rewrite app_nil_r|].
  destruct f; rewrite IH; by rewrite <- ?app_assoc.
Qed.

Lemma cafter_app c1 c2 : cafter (c1 ++ c2) = cafter c1 ++ cafter c2.
Proof.
  induction c1 as [|f c1 IH]; simpl; [done|].
  destruct f; rewrite IH; simpl; by rewrite <- ?app_assoc.
Qed.

Lemma cbefore_spine (cM : ctx K V) : Forall is_FL cM → cbefore cM = [].
Proof.
  induction cM as [|f cM IH]; [done|]. intros Hf. apply Forall_cons in Hf as [Hf HcM].
  destruct f; [|simpl in Hf; contradiction]. simpl. by apply IH.
Qed.

(** The invariant of a context does not depend on the node stored in a
    frame, only on its colour and its sibling. *)
Lemma pcol_app_rekey (cM : ctx K V) cz L z kz vz y ky vy c :
  pcol (cM ++ FR cz L z kz vz :: c) = pcol (cM ++ FR cz L y ky vy :: c).
Proof. by destruct cM. Qed.

Lemma crb_app_rekey n (cM : ctx K V) cz L z kz vz y ky vy c :
  crb n (cM ++ FR cz L z kz vz :: c) → crb n (cM ++ FR cz L y ky vy :: c).
Proof.
  revert n. induction cM as [|f cM IH]; intros n; [done|].
  simpl. intros [Hsib Hc]. split; [done|]. destruct (fcol f).
  - destruct Hc as (? & Hp & Hne & Hc). split; [done|].
    split; [by rewrite <- (pcol_app_rekey cM cz L z kz vz)|].
    split; [by destruct cM|]. by apply IH.
  - by apply IH.
Qed.

(** The three shapes of the left spine in one statement. *)
Lemma Rep_splice2 T np (cM : ctx K V) c cz L z kz vz cy y ky vy X :
  Forall is_FL cM → L ≠ E →
  Rep T np (cM ++ FR cz L z kz vz :: c) (N cy E y ky vy X) →
  Rep (splice2 T z y) (np_after X (caddr (cM ++ FR cz L y ky vy :: c) NIL) np)
    (cM ++ FR cz L y ky vy :: c) X.
Proof.
  intros HcM HL HR. destruct L as [|cl Ll l kl vl Lr]; [done|].
  destruct (spine_cases cM HcM) as
    [->|[(cr & r & kr & vr & Rr & ->)|
         (cq & q & kq & vq & Qr & cJ & cr & r & kr & vr & Rr & ->)]].
  - eapply Rep_splice2_child. exact HR.
  - eapply Rep_splice2_grandchild. exact HR.
  - simpl. rewrite <- !app_assoc. simpl. eapply Rep_splice2_deep.
    simpl in HR. rewrite <- app_assoc in HR. exact HR.
Qed.

End Spine.

Section DeleteSpec.
Context {K V : Type} `{KeyOrdLaws K}.
Implicit Types (T : RBTree K V) (c up : ctx K V) (t X : tree K V) (f : frame K V).
#[local] Arguments _delete_fixup : simpl never.

Lemma Rep_descend T np c t k :
  Rep T np c t → Rep T np (descend k c t).1 (descend k c t).2.
Proof.
  intros HR. apply (insert_descend_spec (S (tsize t)) T np c t k HR). lia.
Qed.

Lemma search_node_spec T np t k :
  Rep T np [] t →
  search_node T k =
    Some (match (descend k [] t).2 with E => None | N _ _ a _ _ _ => Some a end).
Proof.
  intros HR. unfold search_node. rewrite (Rep_root _ _ _ HR).
  apply search_loop_spec with np; [done|].
  pose proof (Rep_size _ _ _ _ HR). lia.
Qed.

Lemma descend_min_app c t :
  descend_min c t = ((descend_min [] t).1 ++ c, (descend_min [] t).2).
Proof.
  revert c. induction t as [|co l IHl a k v r IHr]; intros c; [done|].
  simpl. destruct l as [|co' l' a' k' v' r']; [done|].
  rewrite (IHl (FL co a k v r :: c)), (IHl [FL co a k v r]). simpl.
  by rewrite <- app_assoc.
Qed.

Lemma descend_min_spine0 t : Forall is_FL (descend_min [] t).1.
Proof.
  destruct (descend_min_spine [] t) as (cM & -> & HcM). by rewrite app_nil_r.
Qed.

(** [delete] with the two-children branch named. *)
Lemma delete_eq T k :
  delete T k =
  z_node ← search_node T k;
  match z_node with
  | None => Some (T, false)
  | Some z =>
    r ← (if left_of T z =? NIL then
           Some (_transplant T z (right_of T z), right_of T z, color_of T z)
         else if right_of T z =? NIL then
           Some (_transplant T z (left_of T z), left_of T z, color_of T z)
         else
           y ← _minimum (length (heap T)) T (right_of T z);
           Some (splice2 T z y, right_of T y, color_of T y));
    let '(T, x, y_original_color) := r in
    T ← (if negb (is_red y_original_color) then _delete_fixup (S (length (heap T))) T x
         else Some T);
    Some (T, true)
  end.
Proof. reflexivity. Qed.

(** After the node is unlinked: recolour if a BLACK node was removed. *)
Lemma delete_finish T np c X n yoc :
  Rep T np c X → np_ok np c X → rbt n X →
  (if is_red yoc then crb n c ∧ col X = BLACK else crb (S n) c) →
  ∃ T' t',
    (if negb (is_red yoc) then _delete_fixup (S (length (heap T))) T (addr X) else Some T)
      = Some T' ∧
    Rep T' np [] t' ∧ is_rb t' ∧ elements t' = elements (plug c X).
Proof.
  intros HR Hnp HX Hc. destruct yoc; cbn [is_red negb] in *.
  - destruct Hc as [Hc HcX]. exists T, (plug c X). split; [done|].
    split; [by apply (proj1 (Rep_plug _ _ _ _))|]. split; [|done].
    apply (plug_rb n); done.
  - apply delete_fixup_spec with n; try done.
    pose proof (Rep_size _ _ _ _ HR). lia.
Qed.

Lemma rbt_E_inv n : rbt n (@E K V) → n = 0.
Proof. done. Qed.

(** [delete] on a represented red-black search tree: the result is again
    one, its contents are those of the sorted-list deletion, and the
    boolean tells whether the key was there. *)
Lemma delete_spec T np t k :
  Rep T np [] t → is_rb t → ksorted (elements t) →
  ∃ T' np' t',
    delete T k = Some (T', bool_decide (is_Some (l_lookup k (elements t)))) ∧
    Rep T' np' [] t' ∧ is_rb t' ∧ elements t' = l_delete k (elements t).
Proof.
  intros HR Hrb Hsort. rewrite delete_eq, (search_node_spec _ _ _ _ HR). simpl.
  pose proof (descend_plug k [] t) as Hplug.
  destruct (descend_bounds k [] t) as (Hlt & Hgt & Hsort'); [by constructor..|done|].
  pose proof (descend_found k [] t) as Hfound.
  pose proof (Rep_descend T np [] t k HR) as HR'.
  destruct (descend k [] t) as [c t'] eqn:Hdesc. simpl in *.
  assert (elements t = cbefore c ++ elements t' ++ cafter c) as Hel.
  { by rewrite <- Hplug, elements_plug. }
  destruct Hfound as [->|(cz & L & z & vz & R & ->)].
  - exists T, np, t. simpl in Hel. rewrite Hel, l_lookup_absent, l_delete_absent by done.
    rewrite bool_decide_eq_false_2 by (by intros [? ?]). done.
  - simpl in Hsort'. apply ksorted_mid in Hsort' as (HsL & HsR & HltL & HgtR & _).
    simpl in HltL, HgtR.
    assert (elements t = (cbefore c ++ elements L) ++ (k, vz) :: elements R ++ cafter c) as Hel'.
    { rewrite Hel. simpl. by rewrite <- !app_assoc. }
    assert (keys_lt (cbefore c ++ elements L) k) as Hlt' by (by apply keys_lt_app).
    assert (keys_gt (elements R ++ cafter c) k) as Hgt' by (by apply keys_gt_app).
    rewrite Hel', l_lookup_mid, l_delete_mid by done.
    rewrite bool_decide_eq_true_2 by eauto.
    destruct Hrb as [Hcol [m Hm]]. rewrite <- Hplug in Hm, Hcol.
    destruct (plug_rb_inv _ _ _ Hm Hcol) as (n & Hn & Hc & Hred).
    pose proof (Rep_color _ _ _ _ HR') as Hcz. simpl in Hcz.
    rewrite Hcz, (Rep_left _ _ _ _ _ _ _ _ _ HR'), (Rep_right _ _ _ _ _ _ _ _ _ HR').
    assert (∀ X c' T1 np1 n1 yoc, Rep T1 np1 c' X → np_ok np1 c' X → rbt n1 X →
      (if is_red yoc then crb n1 c' ∧ col X = BLACK else crb (S n1) c') →
      elements (plug c' X) = (cbefore c ++ elements L) ++ elements R ++ cafter c →
      ∃ T' np' t',
        (Some (T1, addr X, yoc) ≫= λ '(T, x, y_original_color),
           (if negb (is_red y_original_color)
            then _delete_fixup (S (length (heap T))) T x else Some T) ≫= λ T, Some (T, true))
          = Some (T', true) ∧
        Rep T' np' [] t' ∧ is_rb t' ∧
        elements t' = (cbefore c ++ elements L) ++ elements R ++ cafter c) as Hfinish.
    { intros X c' T1 np1 n1 yoc HR1 Hnp1 HX1 Hc1 Hel1.
      destruct (delete_finish T1 np1 c' X n1 yoc HR1 Hnp1 HX1 Hc1) as (T' & tf & Hf & ? & ? & Helf).
      exists T', np1, tf. cbn -[_delete_fixup]. rewrite Hf. cbn. do 3 (split; [done|]). by rewrite Helf. }
    destruct L as [|cl Ll l kl vl Lr].
    + (* no left child *)
      simpl. pose proof (Rep_transplant_right _ _ _ _ _ _ _ _ _ HR') as HR1.
      apply (Hfinish R c _ _ (if is_red cz then n else pred n) cz HR1).
      * intros ->. done.
      * destruct cz; simpl in Hn |- *; [tauto|]. destruct n; [done|]. simpl. tauto.
      * destruct cz; simpl in Hn |- *; [tauto|]. destruct n; [done|]. done.
      * rewrite elements_plug. simpl. by rewrite <- !app_assoc.
    + pose proof (Rep_down_l _ _ _ _ _ _ _ _ _ HR') as HRl.
      cbn [addr]. rewrite (proj2 (Nat.eqb_neq l NIL) (Rep_addr_ne _ _ _ _ _ _ _ _ _ HRl)).
      destruct R as [|cr Rl r kr vr Rr].
      * (* no right child *)
        simpl. pose proof (Rep_transplant_left _ _ _ _ _ _ _ _ _ HR') as HR1.
        apply (Hfinish (N cl Ll l kl vl Lr) c _ _ (if is_red cz then n else pred n) cz HR1).
        -- done.
        -- destruct cz; simpl in Hn |- *; [tauto|]. destruct n; [done|]. simpl. tauto.
        -- destruct cz; simpl in Hn |- *; [tauto|]. destruct n; [done|]. done.
        -- rewrite elements_plug. simpl. by rewrite <- !app_assoc.
      * (* two children *)
        pose proof (Rep_down_r _ _ _ _ _ _ _ _ _ HR') as HRr.
        cbn [addr]. rewrite (proj2 (Nat.eqb_neq r NIL) (Rep_addr_ne _ _ _ _ _ _ _ _ _ HRr)).
        set (R := N cr Rl r kr vr Rr) in *.
        set (L := N cl Ll l kl vl Lr) in *.
        destruct (minimum_spec (length (heap T)) T np (FR cz L z k vz :: c) R HRr)
          as [Hmin HRy]; [done| |].
        { pose proof (Rep_size _ _ _ _ HRr). lia. }
        change r with (addr R). rewrite Hmin. cbn [mbind option_bind].
        rewrite descend_min_app in HRy |- *. cbn [fst snd] in HRy |- *.
        pose proof (descend_min_spine0 R) as HcM.
        pose proof (descend_min_plug [] R) as HplugR. cbn [plug] in HplugR.
        destruct (descend_min_shape [] R) as (cy & y & ky & vy & X & HY); [done|].
        destruct (descend_min [] R) as [cM Y]. cbn [fst snd] in *. subst Y. cbn [addr].
        rewrite (Rep_right _ _ _ _ _ _ _ _ _ HRy).
        pose proof (Rep_color _ _ _ _ HRy) as Hcy. cbn [addr col] in Hcy. cbn [addr].
        rewrite Hcy.
        pose proof (Rep_splice2 T np cM c cz L z k vz cy y ky vy X HcM) as HR1.
        specialize (HR1 ltac:(done) HRy).
        assert (Hm' : rbt m (plug (cM ++ FR cz L z k vz :: c) (N cy E y ky vy X))).
        { rewrite plug_app, HplugR. exact Hm. }
        assert (Hcol' : col (plug (cM ++ FR cz L z k vz :: c) (N cy E y ky vy X)) = BLACK).
        { rewrite plug_app, HplugR. exact Hcol. }
        destruct (plug_rb_inv _ _ _ Hm' Hcol') as (ny & Hny & Hcy' & Hredy).
        apply (crb_app_rekey _ _ _ _ _ _ _ y ky vy) in Hcy'.
        apply (Hfinish X _ _ _ (if is_red cy then ny else pred ny) cy HR1).
        -- intros ->. done.
        -- destruct cy; simpl in Hny |- *; [tauto|]. destruct ny; [done|]. simpl. tauto.
        -- destruct cy; simpl in Hny |- *; [tauto|]. destruct ny; [done|]. done.
        -- rewrite elements_plug, cbefore_app, cafter_app, (cbefore_spine cM HcM).
           rewrite <- HplugR, elements_plug, (cbefore_spine cM HcM). simpl.
           rewrite <- !app_assoc. simpl. by rewrite <- ?app_assoc.
Qed.

End DeleteSpec.

(** * The two key orders satisfy the order laws *)

Global Instance Z_KeyOrdLaws : KeyOrdLaws Z.
Proof.
  split; unfold key_ltb; simpl.
  - intros a. apply Z.ltb_irrefl.
  - intros a b c Hab Hbc. apply Z.ltb_lt in Hab, Hbc. apply Z.ltb_lt. lia.
  - intros a b Hab Hba. apply Z.ltb_ge in Hab, Hba. lia.
Qed.

Lemma string_ltb_irrefl s : string_ltb s s = false.
Proof.
  induction s as [|a s IH]; [done|]. simpl. by rewrite N.ltb_irrefl.
Qed.

Lemma string_ltb_trans s1 s2 s3 :
  string_ltb s1 s2 = true → string_ltb s2 s3 = true → string_ltb s1 s3 = true.
Proof.
  revert s2 s3. induction s1 as [|a s1 IH]; intros [|b s2] [|c s3]; simpl; try done.
  intros H1 H2.
  repeat match goal with
  | |- context [(?x <? ?y)%N] => destruct (N.ltb_spec x y)
  | H : context [(?x <? ?y)%N] |- _ => destruct (N.ltb_spec x y)
  end; try done; try lia.
  by apply (IH s2).
Qed.

Lemma string_ltb_total s1 s2 :
  string_ltb s1 s2 = false → string_ltb s2 s1 = false → s1 = s2.
Proof.
  revert s2. induction s1 as [|a s1 IH]; intros [|b s2]; simpl; try done.
  destruct (N.ltb_spec (N_of_ascii a) (N_of_ascii b)) as [Hab|Hab]; [done|].
  destruct (N.ltb_spec (N_of_ascii b) (N_of_ascii a)) as [Hba|Hba]; [done|].
  intros H1 H2. f_equal; [|by apply IH].
  assert (N_of_ascii a = N_of_ascii b) as Heq by lia.
  by rewrite <- (ascii_N_embedding a), <- (ascii_N_embedding b), Heq.
Qed.

Global Instance title_key_KeyOrdLaws : KeyOrdLaws title_key.
Proof.
  split; unfold key_ltb; simpl; unfold title_key_ltb.
  - intros [s i]. simpl. rewrite bool_decide_eq_true_2 by done. apply Z.ltb_irrefl.
  - intros [s1 i1] [s2 i2] [s3 i3]. simpl.
    repeat case_bool_decide; subst; try done.
    + intros Hab Hbc. apply Z.ltb_lt in Hab, Hbc. apply Z.ltb_lt. lia.
    + intros H1 H2. pose proof (string_ltb_trans _ _ _ H1 H2) as H3. by rewrite string_ltb_irrefl in H3.
    + apply string_ltb_trans.
  - intros [s1 i1] [s2 i2]. simpl.
    repeat case_bool_decide; subst; try done.
    + intros Hab Hba. apply Z.ltb_ge in Hab, Hba. f_equal. lia.
    + intros H1 H2. by destruct (string_ltb_total _ _ H1 H2).
Qed.

(** The order on title keys, spelled out. *)
Lemma title_key_klt (a b : title_key) :
  klt a b ↔ string_ltb a.1 b.1 = true ∨ (a.1 = b.1 ∧ (a.2 < b.2)%Z).
Proof.
  unfold klt, key_ltb; simpl. unfold title_key_ltb. case_bool_decide as Heq.
  - rewrite Z.ltb_lt. split; [by right|]. intros [Hlt|[_ ?]]; [|done].
    by rewrite Heq, string_ltb_irrefl in Hlt.
  - split; [by left|]. intros [?|[? _]]; done.
Qed.

(** * Trees as finite maps *)

Section TreeSpec.
Context {K V : Type} `{KeyOrdLaws K}.
Implicit Types (T : RBTree K V) (c : ctx K V) (t : tree K V) (l : list (K * V)).

(** [wf T l]: the arena of [T] holds a red-black search tree whose
    contents, in key order, are [l]. *)
Definition wf (T : RBTree K V) (l : list (K * V)) : Prop :=
  ∃ np t, Rep T np [] t ∧ is_rb t ∧ ksorted l ∧ elements t = l.

Lemma wf_sorted T l : wf T l → ksorted l.
Proof. by intros (np & t & _ & _ & Hs & _). Qed.

Lemma wf_init : wf (@RBTree_init K V) [].
Proof.
  exists NIL, E. split; [|split; [split; [done|by exists 0]|done]].
  split; [done|]. split.
  - simpl. apply NoDup_singleton.
  - by repeat constructor.
Qed.

Lemma wf_insert T l k v :
  wf T l → ∃ T' x, insert T k v = Some (T', x) ∧ wf T' (l_insert k v l).
Proof.
  intros (np & t & HR & Hrb & Hs & <-).
  destruct (insert_spec T np t k v HR Hrb Hs) as (T' & a & t' & Hi & HR' & Hrb' & Hel).
  exists T', a. split; [done|]. exists np, t'. do 2 (split; [done|]).
  split; [by apply ksorted_l_insert|done].
Qed.

Lemma wf_delete T l k :
  wf T l →
  ∃ T', delete T k = Some (T', bool_decide (is_Some (l_lookup k l))) ∧
        wf T' (l_delete k l).
Proof.
  intros (np & t & HR & Hrb & Hs & <-).
  destruct (delete_spec T np t k HR Hrb Hs) as (T' & np' & t' & Hd & HR' & Hrb' & Hel).
  exists T'. split; [done|]. exists np', t'. do 2 (split; [done|]).
  split; [by apply ksorted_l_delete|done].
Qed.

Lemma wf_inorder T l : wf T l → inorder T = Some l.
Proof.
  intros (np & t & HR & _ & _ & <-). unfold inorder. rewrite (Rep_root _ _ _ HR).
  apply inorder_spec with np []; [done|].
  pose proof (Rep_size _ _ _ _ HR). lia.
Qed.

(** What [search_node] finds, and what overwriting the value of the node
    found does. *)
Lemma wf_search_node T l k :
  wf T l →
  match l_lookup k l with
  | None => search_node T k = Some None
  | Some v0 =>
    ∃ x, search_node T k = Some (Some x) ∧ key_of T x = Some k ∧
         value_of T x = Some v0 ∧ ∀ v, wf (set_value T x v) (l_insert k v l)
  end.
Proof.
  intros (np & t & HR & Hrb & Hs & <-). rewrite (search_node_spec _ _ _ _ HR).
  pose proof (descend_plug k [] t) as Hplug.
  destruct (descend_bounds k [] t) as (Hlt & Hgt & Hsort'); [by constructor..|done|].
  pose proof (descend_found k [] t) as Hfound.
  pose proof (Rep_descend T np [] t k HR) as HR'.
  destruct (descend k [] t) as [c t'] eqn:Hdesc. simpl in *.
  assert (elements t = cbefore c ++ elements t' ++ cafter c) as Hel.
  { by rewrite <- Hplug, elements_plug. }
  destruct Hfound as [->|(cz & L & z & vz & R & ->)].
  - simpl in Hel. by rewrite Hel, l_lookup_absent.
  - simpl in Hsort'. apply ksorted_mid in Hsort' as (HsL & HsR & HltL & HgtR & _).
    simpl in HltL, HgtR.
    assert (elements t = (cbefore c ++ elements L) ++ (k, vz) :: elements R ++ cafter c) as Hel'.
    { rewrite Hel. simpl. by rewrite <- !app_assoc. }
    assert (keys_lt (cbefore c ++ elements L) k) as Hlt' by (by apply keys_lt_app).
    rewrite Hel', l_lookup_mid by done. exists z.
    split; [done|]. split; [by apply (Rep_key _ _ _ _ _ _ _ _ _ HR')|].
    split; [by apply (Rep_value _ _ _ _ _ _ _ _ _ HR')|].
    intros v. exists np, (plug c (N cz L z k v R)).
    split; [apply (proj1 (Rep_plug _ _ _ _)); by apply Rep_set_value with vz|].
    split; [apply is_rb_plug_revalue with vz; by rewrite Hplug|].
    split; [apply ksorted_l_insert; by rewrite <- Hel'|].
    rewrite elements_plug, l_insert_replace by done. simpl. by rewrite <- !app_assoc.
Qed.

Lemma wf_search T l k : wf T l → search T k = Some (l_lookup k l).
Proof.
  intros Hwf. pose proof (wf_search_node T l k Hwf) as Hsn. unfold search.
  destruct (l_lookup k l) as [v0|].
  - destruct Hsn as (x & -> & _ & Hv & _). simpl. by rewrite Hv.
  - by rewrite Hsn.
Qed.

(** An existing key is overwritten where it is: [insert] does what
    [search_node] followed by an assignment to [value] does. *)
Lemma insert_descend_found fuel T k x y a :
  search_loop fuel T k x = Some (Some a) →
  insert_descend fuel T k y x = Some (inl a).
Proof.
  revert x y. induction fuel as [|fuel IH]; intros x y; [done|]. simpl.
  destruct (x =? NIL); [done|].
  destruct (key_of T x) as [kx|]; [|done]. simpl.
  case_bool_decide as Hk.
  - intros [= <-]. subst kx. by rewrite key_ltb_irrefl.
  - destruct (key_ltb k kx) eqn:Hlt; [by apply IH|].
    destruct (key_ltb kx k) eqn:Hgt; [by apply IH|].
    destruct Hk. by apply key_ltb_total.
Qed.

Lemma insert_found T k v x :
  search_node T k = Some (Some x) → insert T k v = Some (set_value T x v, x).
Proof.
  unfold search_node, insert. intros Hs.
  by rewrite (insert_descend_found _ _ _ _ NIL _ Hs).
Qed.

End TreeSpec.

(** * The red-black properties, read off the arena *)

Section RedBlack.
Context {K V : Type} `{KeyOrd K}.
Implicit Types (T : RBTree K V) (c : ctx K V) (t : tree K V).

(** The nodes that the child links lead to from the root. *)
Inductive reachable (T : RBTree K V) : ptr → Prop :=
| reach_root : reachable T (root T)
| reach_left x : reachable T x → x ≠ NIL → reachable T (left_of T x)
| reach_right x : reachable T x → x ≠ NIL → reachable T (right_of T x).

(** [black_path T x m]: some path from [x] down to the sentinel passes
    [m] BLACK nodes, the sentinel not counted. *)
Inductive black_path (T : RBTree K V) : ptr → nat → Prop :=
| bp_nil : black_path T NIL 0
| bp_left x m :
    x ≠ NIL → black_path T (left_of T x) m →
    black_path T x (if is_red (color_of T x) then m else S m)
| bp_right x m :
    x ≠ NIL → black_path T (right_of T x) m →
    black_path T x (if is_red (color_of T x) then m else S m).

Definition root_black (T : RBTree K V) : Prop := color_of T (root T) = BLACK.

Definition no_red_red_heap (T : RBTree K V) : Prop :=
  ∀ x, reachable T x → x ≠ NIL → color_of T x = RED →
       color_of T (left_of T x) = BLACK ∧ color_of T (right_of T x) = BLACK.

Definition equal_black_height (T : RBTree K V) : Prop :=
  ∃ n, black_path T (root T) n ∧ ∀ m, black_path T (root T) m → m = n.

Definition red_black (T : RBTree K V) : Prop :=
  root_black T ∧ no_red_red_heap T ∧ equal_black_height T.

(** Sequences of operations. *)
Inductive tree_op := OpInsert (k : K) (v : V) | OpDelete (k : K).

Definition apply_op (T : RBTree K V) (op : tree_op) : option (RBTree K V) :=
  match op with
  | OpInsert k v => fst <$> insert T k v
  | OpDelete k => fst <$> delete T k
  end.

(** The trees after each operation of the sequence. *)
Fixpoint run_trace (T : RBTree K V) (ops : list tree_op) : option (list (RBTree K V)) :=
  match ops with
  | [] => Some []
  | op :: ops =>
    T' ← apply_op T op;
    tr ← run_trace T' ops;
    Some (T' :: tr)
  end.

Lemma reachable_focus T np t x :
  Rep T np [] t → reachable T x →
  ∃ c t', Rep T np c t' ∧ addr t' = x ∧ plug c t' = t.
Proof.
  intros HR Hx. induction Hx as [|x Hx (c & t' & HR' & <- & Hp) Hne
                                  |x Hx (c & t' & HR' & <- & Hp) Hne].
  - exists [], t. by rewrite (Rep_root _ _ _ HR).
  - destruct t' as [|co l a k v r]; [done|].
    exists (FL co a k v r :: c), l. split; [by apply Rep_down_l|].
    split; [|done]. simpl. by rewrite (Rep_left _ _ _ _ _ _ _ _ _ HR').
  - destruct t' as [|co l a k v r]; [done|].
    exists (FR co l a k v :: c), r. split; [by apply Rep_down_r|].
    split; [|done]. simpl. by rewrite (Rep_right _ _ _ _ _ _ _ _ _ HR').
Qed.

Lemma black_path_sound T np c t m :
  Rep T np c t → black_path T (addr t) m → path_blacks t m.
Proof.
  intros HR Hp. remember (addr t) as x eqn:Hx. revert c t HR Hx.
  induction Hp as [|x m Hne Hp IH|x m Hne Hp IH]; intros c t HR Hx.
  - symmetry in Hx. apply (Rep_addr_NIL _ _ _ _ HR) in Hx as ->. constructor.
  - destruct t as [|co l a k v r]; [done|]. simpl in Hx. subst x.
    pose proof (Rep_color _ _ _ _ HR) as Hc. simpl in Hc. rewrite Hc.
    apply pb_left. apply (IH (FL co a k v r :: c)); [by apply Rep_down_l|].
    by rewrite (Rep_left _ _ _ _ _ _ _ _ _ HR).
  - destruct t as [|co l a k v r]; [done|]. simpl in Hx. subst x.
    pose proof (Rep_color _ _ _ _ HR) as Hc. simpl in Hc. rewrite Hc.
    apply pb_right. apply (IH (FR co l a k v :: c)); [by apply Rep_down_r|].
    by rewrite (Rep_right _ _ _ _ _ _ _ _ _ HR).
Qed.

Lemma black_path_exists T np c t n :
  Rep T np c t → rbt n t → black_path T (addr t) n.
Proof.
  revert c n. induction t as [|co l IHl a k v r _]; intros c n HR Hn.
  - simpl in Hn. subst n. constructor.
  - pose proof (Rep_color _ _ _ _ HR) as Hc. simpl in Hc.
    pose proof (Rep_addr_ne _ _ _ _ _ _ _ _ _ HR) as Hne.
    pose proof (Rep_left _ _ _ _ _ _ _ _ _ HR) as Hl.
    pose proof (Rep_down_l _ _ _ _ _ _ _ _ _ HR) as HRl.
    destruct co; simpl in Hn.
    + destruct Hn as (_ & _ & Hnl & _).
      pose proof (bp_left T a n Hne) as Hb. rewrite Hc, Hl in Hb. simpl in Hb.
      apply Hb. by apply (IHl _ _ HRl).
    + destruct n as [|n]; [done|]. destruct Hn as [Hnl _].
      pose proof (bp_left T a n Hne) as Hb. rewrite Hc, Hl in Hb. simpl in Hb.
      apply Hb. by apply (IHl _ _ HRl).
Qed.

(** A represented red-black tree has the three properties. *)
Lemma Rep_red_black T np t : Rep T np [] t → is_rb t → red_black T.
Proof.
  intros HR [Hcol [n Hn]]. split; [|split].
  - unfold root_black. by rewrite (Rep_root _ _ _ HR), (Rep_color _ _ _ _ HR).
  - intros x Hx Hne Hred.
    destruct (reachable_focus T np t x HR Hx) as (c & t' & HR' & <- & Hp).
    rewrite (Rep_color _ _ _ _ HR') in Hred.
    destruct t' as [|co l a k v r]; [done|]. simpl in Hred. subst co.
    rewrite <- Hp in Hn, Hcol.
    destruct (plug_rb_inv _ _ _ Hn Hcol) as (n' & Hn' & _ & _). simpl in Hn'.
    destruct Hn' as (Hl & Hr & _). simpl.
    rewrite (Rep_left _ _ _ _ _ _ _ _ _ HR'), (Rep_right _ _ _ _ _ _ _ _ _ HR').
    rewrite (Rep_color _ _ _ _ (Rep_down_l _ _ _ _ _ _ _ _ _ HR')).
    by rewrite (Rep_color _ _ _ _ (Rep_down_r _ _ _ _ _ _ _ _ _ HR')).
  - exists n. rewrite (Rep_root _ _ _ HR). split.
    + by apply black_path_exists with np [].
    + intros m Hm. apply (rbt_path_blacks n t m Hn).
      by apply black_path_sound with T np [].
Qed.

End RedBlack.

Arguments tree_op : clear implicits.

Section Balance.
Context {K V : Type} `{KeyOrdLaws K}.
Implicit Types (T : RBTree K V) (l : list (K * V)).

Lemma wf_red_black T l : wf T l → red_black T.
Proof. intros (np & t & HR & Hrb & _). by apply Rep_red_black with np t. Qed.

Lemma wf_apply_op T l (op : tree_op K V) :
  wf T l → ∃ T' l', apply_op T op = Some T' ∧ wf T' l'.
Proof.
  intros Hwf. destruct op as [k v|k]; simpl.
  - destruct (wf_insert T l k v Hwf) as (T' & x & -> & Hwf'). by exists T', (l_insert k v l).
  - destruct (wf_delete T l k Hwf) as (T' & -> & Hwf'). by exists T', (l_delete k l).
Qed.

Lemma wf_run_trace T l (ops : list (tree_op K V)) :
  wf T l →
  ∃ tr, run_trace T ops = Some tr ∧ length tr = length ops ∧ Forall red_black tr.
Proof.
  revert T l. induction ops as [|op ops IH]; intros T l Hwf; simpl.
  - by exists [].
  - destruct (wf_apply_op T l op Hwf) as (T' & l' & -> & Hwf'). simpl.
    destruct (IH T' l' Hwf') as (tr & -> & Hlen & Hall). simpl.
    exists (T' :: tr). split; [done|]. split; [simpl; by rewrite Hlen|].
    constructor; [by apply wf_red_black with l'|done].
Qed.

(** C2: from the empty tree, every sequence of [insert] and [delete]
    calls runs to the end, and the tree after each call has a BLACK root,
    no RED node with a RED child, and the same number of BLACK nodes on
    every path from the root to the sentinel. *)
Theorem insert_delete_red_black (ops : list (tree_op K V)) :
  ∃ tr, run_trace RBTree_init ops = Some tr ∧ length tr = length ops ∧
        Forall red_black tr.
Proof. apply wf_run_trace with []. apply wf_init. Qed.

End Balance.

Lemma insert_delete_red_black_witness :
  ∃ tr, run_trace (K:=Z) (V:=string) RBTree_init
          [OpInsert 3%Z "c"%string; OpInsert 1%Z "a"%string; OpDelete 3%Z;
           OpInsert 2%Z "b"%string] = Some tr ∧
        length tr = 4 ∧ Forall red_black tr.
Proof. apply (insert_delete_red_black (K:=Z) (V:=string)). Defined.

(** * Overwriting an existing key *)

Section InsertExisting.
Context {K V : Type} `{KeyOrdLaws K}.
Implicit Types (T : RBTree K V) (l : list (K * V)).

(** An assignment to [value] leaves every other field alone. *)
Lemma set_value_frame T x v y :
  key_of (set_value T x v) y = key_of T y ∧
  left_of (set_value T x v) y = left_of T y ∧
  right_of (set_value T x v) y = right_of T y ∧
  parent_of (set_value T x v) y = parent_of T y ∧
  color_of (set_value T x v) y = color_of T y ∧
  (y ≠ x → value_of (set_value T x v) y = value_of T y).
Proof.
  unfold key_of, left_of, right_of, parent_of, color_of, value_of, set_value, upd. simpl.
  destruct (decide (x = y)) as [->|Hne].
  - rewrite list_lookup_alter_eq. by destruct (heap T !! y).
  - by rewrite list_lookup_alter_ne.
Qed.

Lemma set_value_value T x v k :
  key_of T x = Some k → value_of (set_value T x v) x = Some v.
Proof.
  unfold key_of, value_of, set_value, upd. simpl. rewrite list_lookup_alter_eq.
  by destruct (heap T !! x).
Qed.

(** C4: [insert] of a key that the tree already holds only replaces the
    value stored with it: the node returned is the node that held the key,
    it now holds the new value, and the root, the number of nodes, and the
    key, the child and parent links and the colour of every node (hence the
    shape of the tree) are what they were; no node is created and nothing
    is rebalanced. *)
Theorem insert_existing_key_replaces_value T l k v :
  wf T l → k ∈ l.*1 →
  ∃ T' x,
    insert T k v = Some (T', x) ∧
    search_node T k = Some (Some x) ∧ key_of T x = Some k ∧
    value_of T' x = Some v ∧
    root T' = root T ∧ length (heap T') = length (heap T) ∧
    ∀ y, key_of T' y = key_of T y ∧ left_of T' y = left_of T y ∧
         right_of T' y = right_of T y ∧ parent_of T' y = parent_of T y ∧
         color_of T' y = color_of T y ∧ (y ≠ x → value_of T' y = value_of T y).
Proof.
  intros Hwf Hk. apply list_elem_of_fmap in Hk as ([k' v0] & -> & Hin). simpl.
  pose proof (wf_search_node T l k' Hwf) as Hsn.
  rewrite (l_lookup_elem l k' v0 (wf_sorted _ _ Hwf) Hin) in Hsn.
  destruct Hsn as (x & Hs & Hkx & _ & _).
  exists (set_value T x v), x. split; [by apply insert_found|].
  do 2 (split; [done|]). split; [by apply set_value_value with k'|].
  split; [done|]. split; [apply length_alter|]. intros y. apply set_value_frame.
Qed.

End InsertExisting.

(** A tree with the single key [1], as [insert] builds it. *)
Definition one_key_tree : RBTree Z string :=
  mkRBTree [sentinel; mkRBNode (Some 1%Z) (Some "a"%string) NIL NIL NIL BLACK] 1.

Lemma one_key_tree_wf : wf one_key_tree [(1%Z, "a"%string)].
Proof.
  exists NIL, (N BLACK E 1 1%Z "a"%string E).
  split; [|split; [split; [done|by exists 1]|split; [by repeat constructor|done]]].
  split; [done|]. split.
  - simpl. apply NoDup_cons. split; [|apply NoDup_singleton].
    rewrite list_elem_of_singleton. discriminate.
  - by repeat constructor.
Qed.

Lemma insert_existing_key_replaces_value_witness :
  wf one_key_tree [(1%Z, "a"%string)] ∧ 1%Z ∈ [(1%Z, "a"%string)].*1 ∧
  ∃ T' x,
    insert one_key_tree 1%Z "b"%string = Some (T', x) ∧
    search_node one_key_tree 1%Z = Some (Some x) ∧ key_of one_key_tree x = Some 1%Z ∧
    value_of T' x = Some "b"%string ∧
    root T' = root one_key_tree ∧ length (heap T') = length (heap one_key_tree) ∧
    ∀ y, key_of T' y = key_of one_key_tree y ∧ left_of T' y = left_of one_key_tree y ∧
         right_of T' y = right_of one_key_tree y ∧
         parent_of T' y = parent_of one_key_tree y ∧
         color_of T' y = color_of one_key_tree y ∧
         (y ≠ x → value_of T' y = value_of one_key_tree y).
Proof.
  split; [exact one_key_tree_wf|]. split; [by apply list_elem_of_here|].
  apply (insert_existing_key_replaces_value one_key_tree [(1%Z, "a"%string)] 1%Z
           "b"%string one_key_tree_wf).
  by apply list_elem_of_here.
Defined.

(** * More on sorted association lists *)

Section SortedExt.
Context {K V : Type} `{KeyOrdLaws K}.
Implicit Types (l : list (K * V)) (k : K) (v : V).

Lemma l_lookup_None l k v : ksorted l → l_lookup k l = None → (k, v) ∉ l.
Proof. intros Hs Hl Hin. by rewrite (l_lookup_elem l k v Hs Hin) in Hl. Qed.

Lemma ksorted_functional l k v1 v2 : ksorted l → (k, v1) ∈ l → (k, v2) ∈ l → v1 = v2.
Proof.
  intros Hs H1 H2. apply (l_lookup_elem _ _ _ Hs) in H1, H2. congruence.
Qed.

Lemma l_lookup_is_Some l k : ksorted l → is_Some (l_lookup k l) ↔ k ∈ l.*1.
Proof.
  intros Hs. split.
  - intros [v Hv]. apply l_lookup_Some in Hv. apply list_elem_of_fmap. by exists (k, v).
  - intros Hk. apply list_elem_of_fmap in Hk as ([k' v] & -> & Hin).
    exists v. by apply l_lookup_elem.
Qed.

(** Two sorted lists with the same entries are the same list. *)
Lemma ksorted_ext l1 l2 :
  ksorted l1 → ksorted l2 → (∀ kv, kv ∈ l1 ↔ kv ∈ l2) → l1 = l2.
Proof.
  revert l2. induction l1 as [|kv1 l1 IH]; intros [|kv2 l2] Hs1 Hs2 Hext.
  - done.
  - exfalso. apply (not_elem_of_nil kv2), Hext, list_elem_of_here.
  - exfalso. apply (not_elem_of_nil kv1), Hext, list_elem_of_here.
  - destruct Hs1 as [Hgt1 Hs1], Hs2 as [Hgt2 Hs2].
    assert (kv1 = kv2) as <-.
    { pose proof (proj1 (Hext kv1) (list_elem_of_here _ _)) as H1.
      pose proof (proj2 (Hext kv2) (list_elem_of_here _ _)) as H2.
      apply elem_of_cons in H1 as [?|H1]; [done|].
      apply elem_of_cons in H2 as [?|H2]; [done|].
      apply (proj1 (Forall_forall _ _) Hgt2) in H1.
      apply (proj1 (Forall_forall _ _) Hgt1) in H2.
      destruct (klt_asym _ _ H1 H2). }
    f_equal. apply IH; [done..|]. intros kv.
    pose proof (Hext kv) as Hkv. rewrite !elem_of_cons in Hkv.
    split; intros Hin.
    + destruct (proj1 Hkv (or_intror Hin)) as [->|?]; [|done].
      apply (proj1 (Forall_forall _ _) Hgt1) in Hin. by destruct (klt_irrefl kv1.1).
    + destruct (proj2 Hkv (or_intror Hin)) as [->|?]; [|done].
      apply (proj1 (Forall_forall _ _) Hgt2) in Hin. by destruct (klt_irrefl kv1.1).
Qed.

Lemma l_lookup_l_insert l k v : ksorted l → l_lookup k (l_insert k v l) = Some v.
Proof.
  intros Hs. apply l_lookup_elem; [by apply ksorted_l_insert|].
  apply elem_of_l_insert; [done|]. by left.
Qed.

Lemma l_insert_idemp l k v : ksorted l → l_insert k v (l_insert k v l) = l_insert k v l.
Proof.
  intros Hs. apply ksorted_ext; [by do 2 apply ksorted_l_insert|by apply ksorted_l_insert|].
  intros kv. rewrite !elem_of_l_insert by (done || by apply ksorted_l_insert). tauto.
Qed.

Lemma l_delete_None l k : ksorted l → l_lookup k l = None → l_delete k l = l.
Proof.
  intros Hs Hl. apply l_delete_id. apply Forall_forall. intros [k' v] Hin Hk. simpl in Hk. subst k'.
  by apply (l_lookup_None l k v).
Qed.

End SortedExt.

(** * The catalog *)

Section CatalogModel.
Context {pystr : PyStr}.

(** The key under which [add_book] files a record in the title tree. *)
Definition title_key_of (b : Book) : title_key := (lower (title b), book_id b).

(** [cat_inv C lid lt]: both trees are well formed, [lid] and [lt] are
    their contents, every record is filed under its own identifier, and the
    title tree holds exactly the records of the identifier tree, each under
    its title key. *)
Definition cat_inv (C : LibraryCatalog) (lid : list (Z * Book))
    (lt : list (title_key * Book)) : Prop :=
  wf (by_id C) lid ∧ wf (by_title C) lt ∧
  (∀ id b, (id, b) ∈ lid → book_id b = id) ∧
  (∀ key b, (key, b) ∈ lt ↔ (book_id b, b) ∈ lid ∧ key = title_key_of b).

(** Sequences of catalog operations. *)
Inductive cat_op := AddBook (b : Book) | DeleteById (id : Z) | Clear.

Definition apply_cat_op (C : LibraryCatalog) (op : cat_op) : option LibraryCatalog :=
  match op with
  | AddBook b => fst <$> add_book C b
  | DeleteById id => fst <$> delete_by_id C id
  | Clear => Some (clear C)
  end.

Fixpoint run_cat (C : LibraryCatalog) (ops : list cat_op) : option LibraryCatalog :=
  match ops with
  | [] => Some C
  | op :: ops => C' ← apply_cat_op C op; run_cat C' ops
  end.

End CatalogModel.

Section Catalog.
Context {pystr : PyStr}.

(** ** Titles in ASCII *)

(** On ASCII titles every [PyStr] computes what the example instance
    computes. *)
Lemma add_book_ascii C b :
  ascii_only (title b) = true → add_book C b = @add_book ascii_PyStr C b.
Proof. intros Ha. unfold add_book. by rewrite (lower_ascii_only _ Ha). Qed.

Definition ascii_op (op : cat_op) : bool :=
  match op with
  | AddBook b => ascii_only (title b)
  | DeleteById _ => false
  | Clear => true
  end.

Lemma apply_cat_op_ascii C op :
  ascii_op op = true → apply_cat_op C op = @apply_cat_op ascii_PyStr C op.
Proof.
  destruct op as [b|id|]; [|done|done]. intros Ha. unfold apply_cat_op.
  by rewrite (add_book_ascii C b Ha).
Qed.

Lemma run_cat_ascii C ops :
  forallb ascii_op ops = true → run_cat C ops = @run_cat ascii_PyStr C ops.
Proof.
  revert C. induction ops as [|op ops IH]; intros C Ha; [done|].
  apply andb_true_iff in Ha as [Hop Hops]. cbn [run_cat].
  rewrite (apply_cat_op_ascii C op Hop).
  destruct (@apply_cat_op ascii_PyStr C op) as [C1|]; [|done]. by apply IH.
Qed.

Lemma search_by_title_exact_ascii C t :
  ascii_only t = true →
  search_by_title_exact C t = @search_by_title_exact ascii_PyStr C t.
Proof. intros Ha. unfold search_by_title_exact. by rewrite (lower_ascii_only _ Ha). Qed.

Lemma search_by_title_prefix_ascii C p :
  ascii_only p = true →
  search_by_title_prefix C p = @search_by_title_prefix ascii_PyStr C p.
Proof. intros Ha. unfold search_by_title_prefix. by rewrite (lower_ascii_only _ Ha). Qed.

Lemma cat_inv_init : cat_inv LibraryCatalog_init [] [].
Proof.
  split; [apply wf_init|]. split; [apply wf_init|]. split.
  - intros id b Hin. by apply elem_of_nil in Hin.
  - intros key b. rewrite !elem_of_nil. tauto.
Qed.

Lemma wf_delete_all (T : RBTree title_key Book) lt ks :
  wf T lt →
  ∃ T' lt', delete_all T ks = Some T' ∧ wf T' lt' ∧
            ∀ kv, kv ∈ lt' ↔ kv ∈ lt ∧ kv.1 ∉ ks.
Proof.
  revert T lt. induction ks as [|k ks IH]; intros T lt Hwf; simpl.
  - exists T, lt. do 2 (split; [done|]). intros kv. rewrite elem_of_nil. tauto.
  - destruct (wf_delete T lt k Hwf) as (T1 & -> & Hwf1). simpl.
    destruct (IH T1 _ Hwf1) as (T' & lt' & -> & Hwf' & Hin).
    exists T', lt'. do 2 (split; [done|]). intros kv.
    rewrite Hin, elem_of_l_delete, not_elem_of_cons. tauto.
Qed.

Lemma remove_title_nodes_spec Tid (T : RBTree title_key Book) lt id :
  wf T lt →
  ∃ T' lt', _remove_title_nodes_for_id (mkCatalog Tid T) id = Some (mkCatalog Tid T') ∧
            wf T' lt' ∧ ∀ kv, kv ∈ lt' ↔ kv ∈ lt ∧ kv.1.2 ≠ id.
Proof.
  intros Hwf. unfold _remove_title_nodes_for_id. simpl.
  rewrite (wf_inorder T lt Hwf). simpl.
  destruct (wf_delete_all T lt (title_keys_for_id lt id) Hwf) as (T' & lt' & -> & Hwf' & Hin).
  exists T', lt'. do 2 (split; [done|]). intros kv. rewrite Hin.
  unfold title_keys_for_id. rewrite list_elem_of_filter.
  split; [|tauto]. intros [Hkv Hnot]. split; [done|]. intros Hid. apply Hnot.
  split; [done|]. apply list_elem_of_fmap. by exists kv.
Qed.

Lemma title_key_of_inj_id b b' : title_key_of b = title_key_of b' → book_id b = book_id b'.
Proof. by intros [= _ ?]. Qed.

(** [add_book] files the record under its identifier. *)
Lemma add_book_spec C lid lt b :
  cat_inv C lid lt →
  ∃ C' lt',
    add_book C b =
      Some (C', match l_lookup (book_id b) lid with
                | Some _ => updated
                | None => inserted
                end) ∧
    cat_inv C' (l_insert (book_id b) b lid) lt'.
Proof.
  intros (Hid & Ht & Hids & Hrel). unfold add_book.
  pose proof (wf_sorted _ _ Hid) as Hsid. pose proof (wf_sorted _ _ Ht) as Hst.
  pose proof (wf_search_node _ _ (book_id b) Hid) as Hsn.
  assert (Hids' : ∀ id b', (id, b') ∈ l_insert (book_id b) b lid → book_id b' = id).
  { intros id b' Hin. apply elem_of_l_insert in Hin as [[= -> ->]|[_ Hin]]; eauto. }
  destruct (l_lookup (book_id b) lid) as [b0|] eqn:Hl.
  - destruct Hsn as (x & -> & _ & _ & Hset). simpl.
    destruct (remove_title_nodes_spec (set_value (by_id C) x b) (by_title C) lt (book_id b) Ht)
      as (T1 & lt1 & -> & Hwf1 & Hin1). simpl.
    destruct (wf_insert T1 lt1 (title_key_of b) b Hwf1) as (T2 & y & Hi & Hwf2).
    unfold title_key_of in Hi. rewrite Hi. simpl.
    eexists _, _. split; [done|]. split; [apply Hset|]. split; [exact Hwf2|].
    split; [done|]. intros key b'.
    rewrite !elem_of_l_insert by (done || by apply (wf_sorted _ _ Hwf1)).
    rewrite Hin1, Hrel. simpl. split.
    + intros [[= -> ->]|(Hne & (Hin & ->) & Hne')]; [by split; [left|]|].
      split; [|done]. right. done.
    + intros [[[= Hb ->]|[Hne Hin]] ->]; [by left|]. right.
      split; [intros Heq; by apply title_key_of_inj_id in Heq|]. done.
  - rewrite Hsn. simpl.
    destruct (wf_insert (by_id C) lid (book_id b) b Hid) as (T1 & x & -> & Hwf1). simpl.
    destruct (wf_insert (by_title C) lt (title_key_of b) b Ht) as (T2 & y & Hi & Hwf2).
    unfold title_key_of in Hi. rewrite Hi. simpl.
    eexists _, _. split; [done|]. split; [exact Hwf1|]. split; [exact Hwf2|].
    split; [done|]. intros key b'.
    rewrite !elem_of_l_insert by done. rewrite Hrel. simpl. split.
    + intros [[= -> ->]|(Hne & Hin & ->)]; [by split; [left|]|].
      split; [|done]. right. split; [|done]. intros Heq. rewrite Heq in Hin.
      by apply (l_lookup_None lid (book_id b) b').
    + intros [[[= Hb ->]|[Hne Hin]] ->]; [by left|]. right.
      split; [intros Heq; by apply title_key_of_inj_id in Heq|]. done.
Qed.

(** [delete_by_id] removes the record filed under the identifier, if any. *)
Lemma delete_by_id_spec C lid lt id :
  cat_inv C lid lt →
  ∃ C' lt',
    delete_by_id C id = Some (C', bool_decide (is_Some (l_lookup id lid))) ∧
    cat_inv C' (l_delete id lid) lt' ∧
    (l_lookup id lid = None → C' = C).
Proof.
  intros (Hid & Ht & Hids & Hrel). unfold delete_by_id.
  pose proof (wf_sorted _ _ Hid) as Hsid. pose proof (wf_sorted _ _ Ht) as Hst.
  pose proof (wf_search_node _ _ id Hid) as Hsn.
  destruct (l_lookup id lid) as [b0|] eqn:Hl.
  - destruct Hsn as (x & -> & _ & Hv & _). simpl. rewrite Hv. simpl.
    destruct (wf_delete (by_id C) lid id Hid) as (T1 & -> & Hwf1). simpl.
    destruct (wf_delete (by_title C) lt (title_key_of b0) Ht) as (T2 & Hd & Hwf2).
    unfold title_key_of in Hd. rewrite Hd. simpl.
    apply l_lookup_Some in Hl. pose proof (Hids _ _ Hl) as Hb0.
    eexists _, _. split; [by rewrite ?bool_decide_eq_true_2 by eauto|].
    split; [|done]. split; [exact Hwf1|]. split; [exact Hwf2|]. split.
    { intros id' b' Hin. apply elem_of_l_delete in Hin as [_ Hin]. eauto. }
    intros key b'. rewrite !elem_of_l_delete, Hrel. simpl. split.
    + intros (Hne & Hin & ->). split; [|done]. split; [|done]. intros Heq.
      apply Hne. rewrite Heq in Hin. by rewrite (ksorted_functional lid id b' b0).
    + intros ((Hne & Hin) & ->). split; [|done]. intros Heq.
      apply title_key_of_inj_id in Heq. congruence.
  - rewrite Hsn. simpl. exists C, lt. rewrite ?bool_decide_eq_false_2 by (by intros [? ?]).
    split; [done|]. split; [|done]. rewrite l_delete_None by done. done.
Qed.

(** Every sequence of operations runs to the end, and keeps the invariant. *)
Lemma cat_inv_apply C lid lt op :
  cat_inv C lid lt → ∃ C' lid' lt', apply_cat_op C op = Some C' ∧ cat_inv C' lid' lt'.
Proof.
  intros Hinv. destruct op as [b|id|]; simpl.
  - destruct (add_book_spec C lid lt b Hinv) as (C' & lt' & -> & Hinv'). eauto.
  - destruct (delete_by_id_spec C lid lt id Hinv) as (C' & lt' & -> & Hinv' & _). eauto.
  - exists LibraryCatalog_init, [], []. split; [done|apply cat_inv_init].
Qed.

Lemma cat_inv_run C lid lt ops :
  cat_inv C lid lt → ∃ C' lid' lt', run_cat C ops = Some C' ∧ cat_inv C' lid' lt'.
Proof.
  revert C lid lt. induction ops as [|op ops IH]; intros C lid lt Hinv; simpl; [eauto|].
  destruct (cat_inv_apply C lid lt op Hinv) as (C1 & lid1 & lt1 & -> & Hinv1). simpl. eauto.
Qed.

Lemma run_cat_inv ops :
  ∃ C lid lt, run_cat LibraryCatalog_init ops = Some C ∧ cat_inv C lid lt.
Proof. apply cat_inv_run with [] []. apply cat_inv_init. Qed.

Lemma cat_inv_inorder C lid lt :
  cat_inv C lid lt → inorder (by_id C) = Some lid ∧ inorder (by_title C) = Some lt.
Proof. intros (Hid & Ht & _). split; by apply wf_inorder. Qed.

(** * Properties of the catalog *)

Lemma cat_inv_ids C lid lt :
  cat_inv C lid lt → ∀ id, id ∈ lid.*1 ↔ id ∈ lt.*1.*2.
Proof.
  intros (_ & _ & Hids & Hrel) id. rewrite !list_elem_of_fmap. split.
  - intros ([id' b] & -> & Hin). simpl. exists (title_key_of b). split.
    + simpl. symmetry. eauto.
    + apply list_elem_of_fmap. exists (title_key_of b, b). split; [done|].
      apply Hrel. split; [|done]. by rewrite (Hids _ _ Hin).
  - intros (key & -> & Hkey). apply list_elem_of_fmap in Hkey as ([key' b] & -> & Hin).
    apply Hrel in Hin as [Hin ->]. exists (book_id b, b). done.
Qed.

Lemma cat_inv_title_key C lid lt :
  cat_inv C lid lt →
  ∀ id b key, (id, b) ∈ lid → key ∈ lt.*1 → key.2 = id → key = title_key_of b.
Proof.
  intros (Hid & _ & Hids & Hrel) id b key Hin Hkey Hk.
  apply list_elem_of_fmap in Hkey as ([key' b'] & -> & Hin').
  apply Hrel in Hin' as [Hin' ->]. simpl in Hk. subst id.
  by rewrite (ksorted_functional lid _ b b' (wf_sorted _ _ Hid) Hin Hin').
Qed.

(** After [add_book] of record 101 titled "Title A", the key filed for
    101 in the title tree has a first component that differs from the
    record's [title], whatever [str.lower()] does outside ASCII. *)
Lemma title_key_is_lowered :
  ∃ C b key,
    run_cat LibraryCatalog_init [AddBook (mkBook 101 "Title A" "Author" 2000 1)] = Some C ∧
    inorder (by_id C) = Some [(101%Z, b)] ∧
    inorder (by_title C) = Some [(key, b)] ∧
    key.2 = 101%Z ∧ key.1 ≠ title b.
Proof.
  eexists _, _, _. split; [rewrite run_cat_ascii by reflexivity; vm_compute; reflexivity|].
  split; [vm_compute; reflexivity|]. split; [vm_compute; reflexivity|].
  split; [reflexivity|]. simpl. discriminate.
Qed.

(** C1 (amended): every sequence of [add_book], [delete_by_id] and reset
    operations runs to the end, and in the state reached the identifiers
    that are keys of the identifier tree are exactly the identifiers that
    are second components of keys of the title tree, no identifier occurs
    in two keys of the title tree, and the first component of the title key
    of an identifier is the lower-cased [title] of the record filed under
    that identifier. *)
Theorem cross_index_consistency (ops : list cat_op) :
  ∃ C lid lt,
    run_cat LibraryCatalog_init ops = Some C ∧
    inorder (by_id C) = Some lid ∧ inorder (by_title C) = Some lt ∧
    (∀ id, id ∈ lid.*1 ↔ id ∈ lt.*1.*2) ∧
    NoDup lt.*1.*2 ∧
    (∀ id b key, (id, b) ∈ lid → key ∈ lt.*1 → key.2 = id →
                 key.1 = lower (title b)).
Proof.
  destruct (run_cat_inv ops) as (C & lid & lt & Hrun & Hinv).
  destruct (cat_inv_inorder _ _ _ Hinv) as [Hi1 Hi2].
  exists C, lid, lt. do 3 (split; [done|]).
  split; [by apply cat_inv_ids with C|]. split.
  - pose proof Hinv as (Hid & Ht & Hids & Hrel).
    apply NoDup_fmap_2_strong; [|apply ksorted_NoDup_keys, (wf_sorted _ _ Ht)].
    intros k1 k2 Hk1 Hk2 Heq.
    apply list_elem_of_fmap in Hk1 as ([k1' b1] & -> & Hin1). simpl in *.
    pose proof (proj1 (Hrel _ _) Hin1) as [Hb1 Hk1]. subst k1'.
    symmetry. by apply (cat_inv_title_key C lid lt Hinv (book_id b1) b1 k2).
  - intros id b key Hin Hkey Hk.
    by rewrite (cat_inv_title_key C lid lt Hinv id b key).
Qed.

(** C10: every sequence of [add_book], [delete_by_id] and reset operations
    runs to the end, and in the state reached [list_all_by_id] and
    [list_all_by_title] return lists of the same length, one a permutation
    of the other, and the record that [search_by_id] returns for an
    identifier is the value stored in the title tree under the title key
    of that record. *)
Theorem listings_agree (ops : list cat_op) :
  ∃ C byid bytitle,
    run_cat LibraryCatalog_init ops = Some C ∧
    list_all_by_id C = Some byid ∧ list_all_by_title C = Some bytitle ∧
    length byid = length bytitle ∧ byid ≡ₚ bytitle ∧
    ∀ id, ∃ r, search_by_id C id = Some r ∧
      ∀ b, r = Some b → search (by_title C) (lower (title b), id) = Some (Some b).
Proof.
  destruct (run_cat_inv ops) as (C & lid & lt & Hrun & Hinv).
  destruct (cat_inv_inorder _ _ _ Hinv) as [Hi1 Hi2].
  pose proof Hinv as (Hid & Ht & Hids & Hrel).
  pose proof (wf_sorted _ _ Hid) as Hsid. pose proof (wf_sorted _ _ Ht) as Hst.
  exists C, lid.*2, lt.*2. split; [done|].
  unfold list_all_by_id, list_all_by_title. rewrite Hi1, Hi2.
  do 2 (split; [done|]).
  assert (lid.*2 ≡ₚ lt.*2) as Hperm.
  { apply NoDup_Permutation.
    - apply NoDup_fmap_2_strong.
      + intros [i1 b1] [i2 b2] H1 H2 Heq. simpl in Heq. subst b2.
        by rewrite <- (Hids _ _ H1), <- (Hids _ _ H2).
      + eapply NoDup_fmap_1. by apply ksorted_NoDup_keys.
    - apply NoDup_fmap_2_strong.
      + intros [k1 b1] [k2 b2] H1 H2 Heq. simpl in Heq. subst b2.
        apply Hrel in H1 as [_ ->], H2 as [_ ->]. done.
      + eapply NoDup_fmap_1. by apply ksorted_NoDup_keys.
    - intros b. rewrite !list_elem_of_fmap. split.
      + intros ([i b'] & -> & Hin). exists (title_key_of b', b'). split; [done|].
        apply Hrel. split; [|done]. by rewrite (Hids _ _ Hin).
      + intros ([k b'] & -> & Hin). apply Hrel in Hin as [Hin _].
        by exists (book_id b', b'). }
  split; [by apply Permutation_length|]. split; [done|].
  intros id. exists (l_lookup id lid). unfold search_by_id.
  split; [by apply wf_search|]. intros b Hb. apply l_lookup_Some in Hb.
  etrans; [by apply (wf_search _ _ _ Ht)|]. f_equal.
  apply l_lookup_elem; [done|]. apply Hrel. rewrite (Hids _ _ Hb).
  split; [done|]. unfold title_key_of. by rewrite (Hids _ _ Hb).
Qed.

(** The invariant determines the contents of the title tree. *)
Lemma cat_inv_title_unique C C' lid lt lt' :
  cat_inv C lid lt → cat_inv C' lid lt' → lt = lt'.
Proof.
  intros (_ & Ht & _ & Hrel) (_ & Ht' & _ & Hrel').
  apply ksorted_ext; [by apply (wf_sorted _ _ Ht)|by apply (wf_sorted _ _ Ht')|].
  intros [key b]. by rewrite Hrel, Hrel'.
Qed.

Lemma reachable_inv C ops lid :
  run_cat LibraryCatalog_init ops = Some C → inorder (by_id C) = Some lid →
  ∃ lt, cat_inv C lid lt.
Proof.
  intros Hrun Hin. destruct (run_cat_inv ops) as (C' & lid' & lt & Hrun' & Hinv).
  rewrite Hrun in Hrun'. injection Hrun' as <-.
  destruct (cat_inv_inorder _ _ _ Hinv) as [Hi _]. rewrite Hin in Hi.
  injection Hi as <-. by exists lt.
Qed.

(** C5: in a reachable state in which the identifier of [r] is not a key
    of the identifier tree, the first [add_book r] returns "inserted", a
    second one returns "updated", and after the second call the two trees
    list the same entries as after the first. *)
Theorem add_book_twice (ops : list cat_op) C lid r :
  run_cat LibraryCatalog_init ops = Some C →
  inorder (by_id C) = Some lid → book_id r ∉ lid.*1 →
  ∃ C1 C2 lid1 lt1,
    add_book C r = Some (C1, inserted) ∧ add_book C1 r = Some (C2, updated) ∧
    inorder (by_id C1) = Some lid1 ∧ inorder (by_id C2) = Some lid1 ∧
    inorder (by_title C1) = Some lt1 ∧ inorder (by_title C2) = Some lt1.
Proof.
  intros Hrun Hin Hnot. destruct (reachable_inv C ops lid Hrun Hin) as (lt & Hinv).
  pose proof Hinv as (Hid & _). pose proof (wf_sorted _ _ Hid) as Hs.
  destruct (add_book_spec C lid lt r Hinv) as (C1 & lt1 & Ha1 & Hinv1).
  destruct (add_book_spec C1 _ lt1 r Hinv1) as (C2 & lt2 & Ha2 & Hinv2).
  rewrite l_lookup_l_insert in Ha2 by done. rewrite l_insert_idemp in Hinv2 by done.
  destruct (l_lookup (book_id r) lid) as [b0|] eqn:Hl.
  { destruct Hnot. apply l_lookup_is_Some; [done|]. by rewrite Hl. }
  rewrite (cat_inv_title_unique _ _ _ _ _ Hinv2 Hinv1) in Hinv2.
  destruct (cat_inv_inorder _ _ _ Hinv1) as [? ?].
  destruct (cat_inv_inorder _ _ _ Hinv2) as [? ?].
  by exists C1, C2, (l_insert (book_id r) r lid), lt1.
Qed.

(** C6: in a reachable state, [delete_by_id] of an identifier that is not
    a key of the identifier tree returns [False] and the catalog it leaves
    is the catalog it was given, both trees untouched; the call returns,
    it does not fail. *)
Theorem delete_absent_id (ops : list cat_op) C lid id :
  run_cat LibraryCatalog_init ops = Some C →
  inorder (by_id C) = Some lid → id ∉ lid.*1 →
  delete_by_id C id = Some (C, false).
Proof.
  intros Hrun Hin Hnot. destruct (reachable_inv C ops lid Hrun Hin) as (lt & Hinv).
  pose proof Hinv as (Hid & _). pose proof (wf_sorted _ _ Hid) as Hs.
  destruct (delete_by_id_spec C lid lt id Hinv) as (C' & lt' & Hd & _ & Hsame).
  destruct (l_lookup id lid) as [b0|] eqn:Hl.
  { destruct Hnot. apply l_lookup_is_Some; [done|]. by rewrite Hl. }
  by rewrite Hd, Hsame.
Qed.

(** C8: from the empty catalog, [add_book] of record 101 titled "Title A"
    and then of record 101 titled "Title B" leaves a catalog in which
    [search_by_id 101] returns the second record, whose title is
    "Title B", [search_by_title_exact "title a"] returns no record and
    [search_by_title_exact "title b"] returns exactly the second record. *)
Theorem retitle_scenario (au1 au2 : string) (y1 c1 y2 c2 : Z) :
  let a := mkBook 101 "Title A" au1 y1 c1 in
  let b := mkBook 101 "Title B" au2 y2 c2 in
  ∃ C, run_cat LibraryCatalog_init [AddBook a; AddBook b] = Some C ∧
       search_by_id C 101 = Some (Some b) ∧ title b = "Title B"%string ∧
       search_by_title_exact C "title a" = Some [] ∧
       search_by_title_exact C "title b" = Some [b].
Proof.
  intros a b. eexists. split; [rewrite run_cat_ascii by reflexivity; vm_compute; reflexivity|].
  split; [vm_compute; reflexivity|]. split; [reflexivity|].
  split; rewrite search_by_title_exact_ascii by reflexivity; vm_compute; reflexivity.
Qed.

End Catalog.

Section CatalogExamples.
#[local] Existing Instance ascii_PyStr.

(** C1 (as stated, refuted): after [add_book] of record 101 titled
    "Title A", the key filed for 101 in the title tree has a first
    component that differs from the record's [title]. *)
Lemma title_key_differs_from_title :
  ∃ C b key,
    run_cat LibraryCatalog_init [AddBook (mkBook 101 "Title A" "Author" 2000 1)] = Some C ∧
    inorder (by_id C) = Some [(101%Z, b)] ∧
    inorder (by_title C) = Some [(key, b)] ∧
    key.2 = 101%Z ∧ key.1 ≠ title b.
Proof.
  eexists _, _, _. split; [vm_compute; reflexivity|].
  split; [vm_compute; reflexivity|]. split; [vm_compute; reflexivity|].
  split; [reflexivity|]. simpl. discriminate.
Qed.

(** A catalog with one record, to try the statements on. *)
Definition dune : Book := mkBook 7 "Dune" "Frank Herbert" 1965 2.
Definition emma : Book := mkBook 8 "Emma" "Jane Austen" 1815 1.
Definition demo_ops : list cat_op := [AddBook dune].
Definition demo_catalog : LibraryCatalog :=
  default LibraryCatalog_init (run_cat LibraryCatalog_init demo_ops).

Lemma add_book_twice_witness :
  run_cat LibraryCatalog_init demo_ops = Some demo_catalog ∧
  inorder (by_id demo_catalog) = Some [(7%Z, dune)] ∧
  (book_id emma ∉ [(7%Z, dune)].*1) ∧
  ∃ C1 C2 lid1 lt1,
    add_book demo_catalog emma = Some (C1, inserted) ∧
    add_book C1 emma = Some (C2, updated) ∧
    inorder (by_id C1) = Some lid1 ∧ inorder (by_id C2) = Some lid1 ∧
    inorder (by_title C1) = Some lt1 ∧ inorder (by_title C2) = Some lt1.
Proof.
  assert (run_cat LibraryCatalog_init demo_ops = Some demo_catalog) as H1
    by (vm_compute; reflexivity).
  assert (inorder (by_id demo_catalog) = Some [(7%Z, dune)]) as H2
    by (vm_compute; reflexivity).
  assert (book_id emma ∉ [(7%Z, dune)].*1) as H3.
  { simpl. apply not_elem_of_cons. split; [discriminate|apply not_elem_of_nil]. }
  split; [exact H1|]. split; [exact H2|]. split; [exact H3|].
  exact (add_book_twice demo_ops demo_catalog [(7%Z, dune)] emma H1 H2 H3).
Defined.

Lemma delete_absent_id_witness :
  run_cat LibraryCatalog_init demo_ops = Some demo_catalog ∧
  inorder (by_id demo_catalog) = Some [(7%Z, dune)] ∧
  (8%Z ∉ [(7%Z, dune)].*1) ∧
  delete_by_id demo_catalog 8 = Some (demo_catalog, false).
Proof.
  assert (run_cat LibraryCatalog_init demo_ops = Some demo_catalog) as H1
    by (vm_compute; reflexivity).
  assert (inorder (by_id demo_catalog) = Some [(7%Z, dune)]) as H2
    by (vm_compute; reflexivity).
  assert (8%Z ∉ [(7%Z, dune)].*1) as H3.
  { simpl. apply not_elem_of_cons. split; [discriminate|apply not_elem_of_nil]. }
  split; [exact H1|]. split; [exact H2|]. split; [exact H3|].
  exact (delete_absent_id demo_ops demo_catalog [(7%Z, dune)] 8%Z H1 H2 H3).
Defined.

End CatalogExamples.

(** * Title searches below [-sys.maxsize] *)

Section TitleAnchor.
Context {pystr : PyStr}.

(** C3 (defect shown): the anchor of the scan is [(tkey, -sys.maxsize)],
    and [-sys.maxsize] is [-(2^63 - 1)], one above the least 64-bit
    identifier.  A record titled "a" with identifier [-2^63] is in the
    catalog, its lower-cased title is the lower-cased query, and
    [search_by_title_exact "a"] returns no record. *)
Theorem exact_search_misses_least_id :
  ∃ C b,
    b = mkBook (- 2 ^ 63) "a" "" 0 1 ∧
    run_cat LibraryCatalog_init [AddBook b] = Some C ∧
    list_all_by_title C = Some [b] ∧
    lower (title b) = lower "a" ∧
    search_by_title_exact C "a" = Some [].
Proof.
  eexists _, _. split; [reflexivity|].
  split; [rewrite run_cat_ascii by reflexivity; vm_compute; reflexivity|].
  split; [vm_compute; reflexivity|]. split; [reflexivity|].
  rewrite search_by_title_exact_ascii by reflexivity. vm_compute. reflexivity.
Qed.

(** C7 (defect shown): with the empty prefix the anchor is
    [("", -sys.maxsize)].  A record with the empty title and identifier
    [-2^63] sorts below the anchor: the catalog lists two records in title
    order, and [search_by_title_prefix ""] returns only the second. *)
Theorem empty_prefix_misses_least_id :
  ∃ C b1 b2,
    b1 = mkBook (- 2 ^ 63) "" "" 0 1 ∧ b2 = mkBook 5 "a" "" 0 1 ∧
    run_cat LibraryCatalog_init [AddBook b1; AddBook b2] = Some C ∧
    list_all_by_title C = Some [b1; b2] ∧
    search_by_title_prefix C "" = Some [b2].
Proof.
  eexists _, _, _. split; [reflexivity|]. split; [reflexivity|].
  split; [rewrite run_cat_ascii by reflexivity; vm_compute; reflexivity|].
  split; [vm_compute; reflexivity|].
  rewrite search_by_title_prefix_ascii by reflexivity. vm_compute. reflexivity.
Qed.

End TitleAnchor.

(** * Loading a batch of records *)

(** ** JSON values, as [json.load] returns them *)

(** A [float]: [Finite m e] is [m * 2^e]. *)
Inductive PyFloat := Finite (m e : Z) | Infinity | NaN.

(** A [dict] is the list of its items, in the order of insertion; its
    keys are distinct. *)
#[warnings="-register-all"] Inductive json :=
| JNull
| JBool (b : bool)
| JInt (z : Z)
| JFloat (f : PyFloat)
| JStr (s : string)
| JArr (l : list json)
| JObj (o : list (string * json)).

Fixpoint dict_get (o : list (string * json)) (k : string) : option json :=
  match o with
  | [] => None
  | (k', v) :: o => if bool_decide (k = k') then Some v else dict_get o k
  end.

(** The exceptions that leave [from_dict]. *)
Inductive exn := KeyError (key : string) | TypeError | ValueError | OverflowError.

(** [int(x)]: a [float] is cut towards zero, a [str] is parsed, [None], a
    [list] and a [dict] are refused. *)
Definition float_trunc (m e : Z) : Z :=
  if (0 <=? e)%Z then (m * 2 ^ e)%Z else Z.quot m (2 ^ (- e)).

Definition py_int `{PyStr} (x : json) : exn + Z :=
  match x with
  | JInt z => inr z
  | JBool b => inr (if b then 1 else 0)%Z
  | JFloat (Finite m e) => inr (float_trunc m e)
  | JFloat Infinity => inl OverflowError
  | JFloat NaN => inl ValueError
  | JStr s =>
    match int_of_str s with
    | Some z => inr z
    | None => inl ValueError
    end
  | JNull | JArr _ | JObj _ => inl TypeError
  end.

(** The [Book] object that [from_dict] builds: [book_id], [title] and
    [author] are whatever the object holds, [year] and [copies] went
    through [int]. *)
Record RawBook := mkRawBook {
  r_book_id : json;
  r_title : json;
  r_author : json;
  r_year : Z;
  r_copies : Z
}.

(** [Book.from_dict]: the arguments are evaluated in order, so the first
    failure among [d["book_id"]], [d["title"]], [int(year)] and
    [int(copies)] is the one raised; subscripting anything but a [dict]
    with a [str] is a [TypeError]. *)
Definition from_dict `{PyStr} (d : json) : exn + RawBook :=
  match d with
  | JObj o =>
    match dict_get o "book_id" with
    | None => inl (KeyError "book_id")
    | Some id =>
      match dict_get o "title" with
      | None => inl (KeyError "title")
      | Some t =>
        let a := default (JStr "") (dict_get o "author") in
        match py_int (default (JInt 0) (dict_get o "year")) with
        | inl e => inl e
        | inr y =>
          match py_int (default (JInt 1) (dict_get o "copies")) with
          | inl e => inl e
          | inr c => inr (mkRawBook id t a y c)
          end
        end
      end
    end
  | _ => inl TypeError
  end.

(** A [RawBook] whose fields have the types that [Book] declares.  The
    catalog is modelled for such records only. *)
Definition as_book (r : RawBook) : option Book :=
  match r_book_id r, r_title r, r_author r with
  | JInt i, JStr t, JStr a => Some (mkBook i t a (r_year r) (r_copies r))
  | _, _, _ => None
  end.

(** How [load_from_file] ends: it returns [True], or an exception leaves
    it. *)
Inductive load_result := ReturnedTrue | Raised (e : exn).

(** The [for d in arr] loop; the status that [add_book] returns is
    dropped.  The result is [None] when a record puts a value of another
    type than declared into a [Book]: what [add_book] does with such a
    record is outside this model. *)
Fixpoint load_loop `{PyStr} (C : LibraryCatalog) (arr : list json)
    : option (LibraryCatalog * load_result) :=
  match arr with
  | [] => Some (C, ReturnedTrue)
  | d :: arr =>
    match from_dict d with
    | inl e => Some (C, Raised e)
    | inr r =>
      book ← as_book r;
      r ← add_book C book;
      load_loop r.1 arr
    end
  end.

(** The characters of a text: a byte that continues a UTF-8 sequence goes
    with the bytes before it. *)
Definition is_continuation (c : ascii) : bool :=
  let n := N_of_ascii c in ((128 <=? n) && (n <? 192))%N.

Fixpoint chars (s : string) : list string :=
  match s with
  | EmptyString => []
  | String c s' =>
    match chars s' with
    | String c' ch :: l =>
      if is_continuation c' then String c (String c' ch) :: l
      else String c EmptyString :: String c' ch :: l
    | l => String c EmptyString :: l
    end
  end.

(** What [for d in arr] goes through: the elements of a [list], the keys
    of a [dict], the characters of a [str]; [None] for a value that is not
    iterable. *)
Definition iter_items (arr : json) : option (list json) :=
  match arr with
  | JArr l => Some l
  | JObj o => Some (JStr <$> o.*1)
  | JStr s => Some (JStr <$> chars s)
  | JNull | JBool _ | JInt _ | JFloat _ => None
  end.

(** [load_from_file], from the value that [json.load] returned: the two
    trees are replaced by empty ones before the loop starts. *)
Definition load_from_file `{PyStr} (C : LibraryCatalog) (arr : json)
    : option (LibraryCatalog * load_result) :=
  match iter_items arr with
  | None => Some (clear C, Raised TypeError)
  | Some l => load_loop (clear C) l
  end.

(** A record whose [book_id], [title] and [author], where present, have
    the declared types. *)
Definition is_int (v : json) : bool := match v with JInt _ => true | _ => false end.
Definition is_str (v : json) : bool := match v with JStr _ => true | _ => false end.

Definition fields_typed (d : json) : bool :=
  match d with
  | JObj o =>
    from_option is_int true (dict_get o "book_id") &&
    from_option is_str true (dict_get o "title") &&
    from_option is_str true (dict_get o "author")
  | _ => true
  end.

Definition batch_typed (arr : json) : Prop :=
  ∀ l, iter_items arr = Some l → Forall (λ d, fields_typed d = true) l.

(** The records that come before the first one that [from_dict] refuses,
    and how the loop ends. *)
Fixpoint applied `{PyStr} (arr : list json) : list Book :=
  match arr with
  | [] => []
  | d :: arr =>
    match from_dict d with
    | inl _ => []
    | inr r =>
      match as_book r with
      | Some book => book :: applied arr
      | None => []
      end
    end
  end.

Fixpoint first_error `{PyStr} (arr : list json) : load_result :=
  match arr with
  | [] => ReturnedTrue
  | d :: arr =>
    match from_dict d with
    | inl e => Raised e
    | inr _ => first_error arr
    end
  end.

Definition batch_applied `{PyStr} (arr : json) : list Book :=
  from_option applied [] (iter_items arr).

Definition load_outcome `{PyStr} (arr : json) : load_result :=
  from_option first_error (Raised TypeError) (iter_items arr).

(** [from_dict] accepts the record. *)
Definition accepted `{PyStr} (d : json) : Prop := ∃ r, from_dict d = inr r.

(** Upserting a list of records into the contents of the identifier tree. *)
Definition upsert_all (lid : list (Z * Book)) (bs : list Book) : list (Z * Book) :=
  foldl (λ l b, l_insert (book_id b) b l) lid bs.

Section Load.
Context {pystr : PyStr}.

Lemma from_dict_missing_book_id o :
  dict_get o "book_id" = None → from_dict (JObj o) = inl (KeyError "book_id").
Proof. intros Hn. unfold from_dict. by rewrite Hn. Qed.

Lemma from_dict_missing_title o :
  is_Some (dict_get o "book_id") → dict_get o "title" = None →
  from_dict (JObj o) = inl (KeyError "title").
Proof. intros [id Hid] Hn. unfold from_dict. by rewrite Hid, Hn. Qed.

Lemma fields_typed_as_book d r :
  fields_typed d = true → from_dict d = inr r → is_Some (as_book r).
Proof.
  destruct d as [| | | | | |o]; try done. unfold fields_typed, from_dict.
  destruct (dict_get o "book_id") as [id|]; [|done].
  destruct (dict_get o "title") as [t|]; [|done].
  intros Htyped. apply andb_true_iff in Htyped as [Htyped Ha].
  apply andb_true_iff in Htyped as [Hid Ht]. simpl in Hid, Ht.
  destruct (py_int _) as [|y]; [done|]. destruct (py_int _) as [|c]; [done|].
  intros [= <-]. unfold as_book. simpl.
  destruct id; try done. destruct t; try done.
  destruct (dict_get o "author") as [a|]; simpl in *; [|done]. by destruct a.
Qed.

Lemma first_error_ReturnedTrue arr :
  first_error arr = ReturnedTrue ↔ Forall accepted arr.
Proof.
  induction arr as [|d arr IH]; simpl; [by split|].
  rewrite Forall_cons, <- IH. unfold accepted.
  destruct (from_dict d) as [e|r]; split.
  - done.
  - by intros [[? ?] _].
  - eauto.
  - tauto.
Qed.

(** The first record that [from_dict] refuses ends the loop. *)
Lemma first_error_at pre d post e :
  Forall accepted pre → from_dict d = inl e →
  first_error (pre ++ d :: post) = Raised e.
Proof.
  intros Hpre Hd. induction Hpre as [|d' pre [r Hr] _ IH]; simpl.
  - by rewrite Hd.
  - by rewrite Hr.
Qed.

Lemma load_loop_spec C lid lt arr :
  cat_inv C lid lt → Forall (λ d, fields_typed d = true) arr →
  ∃ C' lt',
    load_loop C arr = Some (C', first_error arr) ∧
    run_cat C (AddBook <$> applied arr) = Some C' ∧
    cat_inv C' (upsert_all lid (applied arr)) lt'.
Proof.
  intros Hinv Htyped. revert C lid lt Hinv.
  induction Htyped as [|d arr Hd _ IH]; intros C lid lt Hinv; simpl.
  - by exists C, lt.
  - destruct (from_dict d) as [e|r] eqn:Hfd; simpl.
    + by exists C, lt.
    + destruct (fields_typed_as_book d r Hd Hfd) as [b ->]. simpl.
      destruct (add_book_spec C lid lt b Hinv) as (C1 & lt1 & -> & Hinv1). simpl.
      apply (IH C1 _ lt1 Hinv1).
Qed.

Lemma load_from_file_spec C arr :
  batch_typed arr →
  ∃ C' lt',
    load_from_file C arr = Some (C', load_outcome arr) ∧
    run_cat LibraryCatalog_init (AddBook <$> batch_applied arr) = Some C' ∧
    cat_inv C' (upsert_all [] (batch_applied arr)) lt'.
Proof.
  intros Htyped. unfold load_from_file, load_outcome, batch_applied, batch_typed, clear in *.
  destruct (iter_items arr) as [l|]; simpl.
  - apply (load_loop_spec LibraryCatalog_init [] [] l cat_inv_init). by apply Htyped.
  - exists LibraryCatalog_init, []. split; [done|]. split; [done|]. apply cat_inv_init.
Qed.

(** A batch of ASCII titles is loaded as by the example instance. *)
Definition ascii_record (d : json) : Prop :=
  @from_dict ascii_PyStr d = from_dict d ∧
  match from_dict d with
  | inr r => from_option (λ b, ascii_only (title b)) true (as_book r)
  | inl _ => true
  end = true.

Lemma load_loop_ascii C arr :
  Forall ascii_record arr → load_loop C arr = @load_loop ascii_PyStr C arr.
Proof.
  intros Harr. revert C. induction Harr as [|d arr [Hfd Hd] _ IH]; intros C; [done|].
  cbn [load_loop]. rewrite Hfd. clear Hfd.
  destruct (@from_dict pystr d) as [e|r]; [done|].
  destruct (as_book r) as [b|]; [|done]. simpl in Hd |- *.
  rewrite (add_book_ascii C b Hd).
  destruct (@add_book ascii_PyStr C b) as [[C1 st]|]; [|done]. simpl. by apply IH.
Qed.

(** A batch of two records that carry the same identifier is loaded to
    the end, whatever [str.lower()] does outside ASCII: the second record
    replaces the first. *)
Lemma repeated_identifier_loaded :
  ∃ C,
    load_from_file LibraryCatalog_init
      (JArr [JObj [("book_id"%string, JInt 1); ("title"%string, JStr "A")];
             JObj [("book_id"%string, JInt 1); ("title"%string, JStr "B")]])
      = Some (C, ReturnedTrue) ∧
    list_all_by_id C = Some [mkBook 1 "B" "" 0 1].
Proof.
  eexists. split.
  - unfold load_from_file. cbn [iter_items]. rewrite load_loop_ascii.
    + vm_compute. reflexivity.
    + by repeat constructor.
  - vm_compute. reflexivity.
Qed.

(** C9 (amended): for a batch in which [book_id], [title] and [author],
    where present, are an integer, a string and a string,
    [load_from_file] always ends.  It returns [True] when [from_dict]
    accepts every record; otherwise the exception of the first record that
    [from_dict] refuses leaves it, which is [KeyError] of the field when
    that record lacks [book_id] or [title].  Records that repeat an
    identifier are not reported, each replaces the record filed before it.
    The catalog it leaves is the one that [add_book] of the records before
    the first refused one, in order, builds from the empty catalog, and in
    it the two trees agree: same identifiers, and each title key is the
    lower-cased title and the identifier of the record filed under that
    identifier. *)
Theorem load_from_file_outcome C (arr : json) :
  batch_typed arr →
  ∃ C' lid lt,
    load_from_file C arr = Some (C', load_outcome arr) ∧
    (load_outcome arr = ReturnedTrue ↔
       ∃ l, iter_items arr = Some l ∧ Forall accepted l) ∧
    (∀ pre o post,
       iter_items arr = Some (pre ++ JObj o :: post) → Forall accepted pre →
       (dict_get o "book_id" = None →
          load_outcome arr = Raised (KeyError "book_id")) ∧
       (is_Some (dict_get o "book_id") → dict_get o "title" = None →
          load_outcome arr = Raised (KeyError "title"))) ∧
    run_cat LibraryCatalog_init (AddBook <$> batch_applied arr) = Some C' ∧
    inorder (by_id C') = Some lid ∧ inorder (by_title C') = Some lt ∧
    lid = upsert_all [] (batch_applied arr) ∧
    (∀ id, id ∈ lid.*1 ↔ id ∈ lt.*1.*2) ∧
    (∀ id b key, (id, b) ∈ lid → key ∈ lt.*1 → key.2 = id →
                 key = (lower (title b), id)).
Proof.
  intros Htyped.
  destruct (load_from_file_spec C arr Htyped) as (C' & lt & Hload & Hrun & Hinv).
  destruct (cat_inv_inorder _ _ _ Hinv) as [Hi1 Hi2].
  exists C', (upsert_all [] (batch_applied arr)), lt.
  split; [done|]. split; [|split].
  - unfold load_outcome. destruct (iter_items arr) as [l|]; simpl.
    + rewrite first_error_ReturnedTrue. split; [eauto|]. by intros (l' & [= <-] & ?).
    + split; [done|]. by intros (l' & ? & _).
  - intros pre o post Hitems Hpre. unfold load_outcome. rewrite Hitems. simpl. split.
    + intros Hn. apply first_error_at; [done|]. by apply from_dict_missing_book_id.
    + intros Hid Hn. apply first_error_at; [done|]. by apply from_dict_missing_title.
  - do 4 (split; [done|]). split; [by apply cat_inv_ids with C'|].
    intros id b key Hin Hkey Hk.
    rewrite (cat_inv_title_key _ _ _ Hinv id b key Hin Hkey Hk). unfold title_key_of.
    pose proof Hinv as (_ & _ & Hids & _). by rewrite (Hids _ _ Hin).
Qed.

End Load.

Section LoadExamples.
#[local] Existing Instance ascii_PyStr.

(** C9 (as stated, refuted): a batch of two records that carry the same
    identifier is loaded to the end, [load_from_file] returns [True], and
    the second record has replaced the first: nothing about the repeated
    identifier reaches the caller. *)
Lemma duplicate_identifier_not_surfaced :
  ∃ C,
    load_from_file LibraryCatalog_init
      (JArr [JObj [("book_id"%string, JInt 1); ("title"%string, JStr "A")];
             JObj [("book_id"%string, JInt 1); ("title"%string, JStr "B")]])
      = Some (C, ReturnedTrue) ∧
    list_all_by_id C = Some [mkBook 1 "B" "" 0 1].
Proof. eexists. split; vm_compute; reflexivity. Qed.

(** A batch to try the statement on: the second record lacks its title. *)
Definition demo_batch : json :=
  JArr [JObj [("book_id"%string, JInt 1); ("title"%string, JStr "A");
              ("year"%string, JStr "1999")];
        JObj [("book_id"%string, JInt 2)];
        JObj [("book_id"%string, JInt 3); ("title"%string, JStr "C")]].

Lemma demo_batch_typed : batch_typed demo_batch.
Proof. intros l [= <-]. by repeat constructor. Qed.

Lemma load_from_file_outcome_witness :
  batch_typed demo_batch ∧
  ∃ C' lid lt,
    load_from_file LibraryCatalog_init demo_batch = Some (C', load_outcome demo_batch) ∧
    (load_outcome demo_batch = ReturnedTrue ↔
       ∃ l, iter_items demo_batch = Some l ∧ Forall accepted l) ∧
    (∀ pre o post,
       iter_items demo_batch = Some (pre ++ JObj o :: post) → Forall accepted pre →
       (dict_get o "book_id" = None →
          load_outcome demo_batch = Raised (KeyError "book_id")) ∧
       (is_Some (dict_get o "book_id") → dict_get o "title" = None →
          load_outcome demo_batch = Raised (KeyError "title"))) ∧
    run_cat LibraryCatalog_init (AddBook <$> batch_applied demo_batch) = Some C' ∧
    inorder (by_id C') = Some lid ∧ inorder (by_title C') = Some lt ∧
    lid = upsert_all [] (batch_applied demo_batch) ∧
    (∀ id, id ∈ lid.*1 ↔ id ∈ lt.*1.*2) ∧
    (∀ id b key, (id, b) ∈ lid → key ∈ lt.*1 → key.2 = id →
                 key = (lower (title b), id)).
Proof.
  split; [exact demo_batch_typed|].
  exact (load_from_file_outcome LibraryCatalog_init demo_batch demo_batch_typed).
Defined.

End LoadExamples.

(** Every tree that [insert] and [delete] build from the empty tree is
    well formed, so the statements about well-formed trees apply to it. *)
Lemma run_trace_wf {K V : Type} `{KeyOrdLaws K} (ops : list (tree_op K V)) :
  ∃ tr, run_trace RBTree_init ops = Some tr ∧ Forall (λ T, ∃ l, wf T l) tr.
Proof.
  assert (∀ (T : RBTree K V) l, wf T l →
            ∃ tr, run_trace T ops = Some tr ∧ Forall (λ T, ∃ l, wf T l) tr) as Hgen.
  { induction ops as [|op ops IH]; intros T l Hwf; simpl; [by exists []|].
    destruct (wf_apply_op T l op Hwf) as (T' & l' & -> & Hwf'). simpl.
    destruct (IH T' l' Hwf') as (tr & -> & Hall). simpl.
    exists (T' :: tr). split; [done|]. constructor; [by exists l'|done]. }
  apply (Hgen RBTree_init []), wf_init.
Qed.

(** * The tree as a finite map: lookups after updates *)

Section SortedSplit.
Context {K V : Type} `{KeyOrdLaws K}.
Implicit Types (l : list (K * V)) (k : K) (v : V).

(** A sorted list splits around any key. *)
Lemma ksorted_split k l :
  ksorted l →
  ∃ l1 l2, keys_lt l1 k ∧ keys_gt l2 k ∧
           (l = l1 ++ l2 ∨ ∃ v, l = l1 ++ (k, v) :: l2).
Proof.
  induction l as [|[k0 v0] l IH]; intros Hs.
  - exists [], []. split; [constructor|]. split; [constructor|]. by left.
  - destruct Hs as [Hgt Hs]. simpl in Hgt.
    destruct (key_trichotomy k k0) as [Hlt|[->|Hlt]].
    + exists [], ((k0, v0) :: l). split; [constructor|]. split; [|by left].
      constructor; [done|]. by apply keys_gt_trans with k0.
    + exists [], l. split; [constructor|]. split; [done|]. right. by exists v0.
    + destruct (IH Hs) as (l1 & l2 & H1 & H2 & Hl).
      exists ((k0, v0) :: l1), l2. split; [by constructor|]. split; [done|].
      destruct Hl as [->|[v ->]]; [by left|right; by exists v].
Qed.

Lemma l_lookup_Some_iff l k v : ksorted l → l_lookup k l = Some v ↔ (k, v) ∈ l.
Proof. intros Hs. split; [apply l_lookup_Some|by apply l_lookup_elem]. Qed.

Lemma l_lookup_insert_ne l k k' v :
  ksorted l → k' ≠ k → l_lookup k' (l_insert k v l) = l_lookup k' l.
Proof.
  intros Hs Hne. apply option_eq. intros v'.
  rewrite !l_lookup_Some_iff by (done || by apply ksorted_l_insert).
  rewrite elem_of_l_insert by done. simpl. split; [|tauto].
  intros [[= ? _]|[_ ?]]; done.
Qed.

Lemma l_lookup_delete l k : ksorted l → l_lookup k (l_delete k l) = None.
Proof.
  intros Hs. apply eq_None_not_Some. intros [v Hv].
  apply l_lookup_Some in Hv. apply elem_of_l_delete in Hv as [Hne _]. done.
Qed.

Lemma l_lookup_delete_ne l k k' :
  ksorted l → k' ≠ k → l_lookup k' (l_delete k l) = l_lookup k' l.
Proof.
  intros Hs Hne. apply option_eq. intros v'.
  rewrite !l_lookup_Some_iff by (done || by apply ksorted_l_delete).
  rewrite elem_of_l_delete. simpl. tauto.
Qed.

Lemma length_l_insert l k v :
  ksorted l →
  length (l_insert k v l) =
    match l_lookup k l with Some _ => length l | None => S (length l) end.
Proof.
  intros Hs. destruct (ksorted_split k l Hs) as (l1 & l2 & H1 & H2 & [->|[v0 ->]]).
  - rewrite l_insert_new, l_lookup_absent by done. rewrite !length_app. simpl. lia.
  - by rewrite l_insert_replace, l_lookup_mid, !length_app by done.
Qed.

Lemma length_l_delete l k :
  ksorted l →
  length (l_delete k l) =
    match l_lookup k l with Some _ => length l - 1 | None => length l end.
Proof.
  intros Hs. destruct (ksorted_split k l Hs) as (l1 & l2 & H1 & H2 & [->|[v0 ->]]).
  - by rewrite l_delete_absent, l_lookup_absent by done.
  - rewrite l_delete_mid, l_lookup_mid by done. rewrite !length_app. simpl. lia.
Qed.

(** Sorted means: entries further right have larger keys. *)
Lemma ksorted_lookup_lt l i j kv1 kv2 :
  ksorted l → l !! i = Some kv1 → l !! j = Some kv2 → i < j → klt kv1.1 kv2.1.
Proof.
  revert i j. induction l as [|kv l IH]; intros i j Hs Hi Hj Hij; [done|].
  destruct Hs as [Hgt Hs].
  destruct j as [|j]; [lia|]. simpl in Hj. destruct i as [|i].
  - simpl in Hi. injection Hi as ->.
    apply list_elem_of_lookup_2 in Hj. by apply (proj1 (Forall_forall _ _) Hgt).
  - simpl in Hi. apply (IH i j); [done..|lia].
Qed.

End SortedSplit.

Section TreeMap.
Context {K V : Type} `{KeyOrdLaws K}.
Implicit Types (T : RBTree K V) (l : list (K * V)).

(** The tree after a sequence of operations. *)
Fixpoint run_ops (T : RBTree K V) (ops : list (tree_op K V)) : option (RBTree K V) :=
  match ops with
  | [] => Some T
  | op :: ops => T' ← apply_op T op; run_ops T' ops
  end.

Lemma wf_run_ops T l ops : wf T l → ∃ T' l', run_ops T ops = Some T' ∧ wf T' l'.
Proof.
  revert T l. induction ops as [|op ops IH]; intros T l Hwf; simpl; [eauto|].
  destruct (wf_apply_op T l op Hwf) as (T' & l' & -> & Hwf'). simpl. eauto.
Qed.

Lemma run_ops_wf ops T : run_ops RBTree_init ops = Some T → ∃ l, wf T l.
Proof.
  intros Hrun. destruct (wf_run_ops RBTree_init [] ops wf_init) as (T' & l & Hrun' & Hwf).
  rewrite Hrun in Hrun'. injection Hrun' as <-. by exists l.
Qed.

Lemma wf_size T l : wf T l → size T = Some (length l).
Proof. intros Hwf. unfold size. by rewrite (wf_inorder T l Hwf). Qed.

End TreeMap.

Section TreeMapTheorems.
Context {K V : Type} `{KeyOrdLaws K}.
Implicit Types (T : RBTree K V) (l : list (K * V)).

(** X1: in a tree built by [insert] and [delete] calls, [insert k v]
    returns, after it [search k] returns [v], and [search] of every other
    key returns what it returned before. *)
Theorem insert_then_search (ops : list (tree_op K V)) T k v :
  run_ops RBTree_init ops = Some T →
  ∃ T' x, insert T k v = Some (T', x) ∧
          search T' k = Some (Some v) ∧
          ∀ k', k' ≠ k → search T' k' = search T k'.
Proof.
  intros Hrun. destruct (run_ops_wf ops T Hrun) as (l & Hwf).
  pose proof (wf_sorted _ _ Hwf) as Hs.
  destruct (wf_insert T l k v Hwf) as (T' & x & Hi & Hwf').
  exists T', x. split; [done|]. split.
  - by rewrite (wf_search _ _ k Hwf'), l_lookup_l_insert.
  - intros k' Hne.
    by rewrite (wf_search _ _ k' Hwf'), (wf_search _ _ k' Hwf), l_lookup_insert_ne.
Qed.

(** X2: in a tree built by [insert] and [delete] calls, [delete k]
    returns [True] exactly when [search k] finds a value, after it
    [search k] returns [None], and [search] of every other key returns
    what it returned before. *)
Theorem delete_then_search (ops : list (tree_op K V)) T k :
  run_ops RBTree_init ops = Some T →
  ∃ T' found, delete T k = Some (T', found) ∧
              (found = true ↔ ∃ v, search T k = Some (Some v)) ∧
              search T' k = Some None ∧
              ∀ k', k' ≠ k → search T' k' = search T k'.
Proof.
  intros Hrun. destruct (run_ops_wf ops T Hrun) as (l & Hwf).
  pose proof (wf_sorted _ _ Hwf) as Hs.
  destruct (wf_delete T l k Hwf) as (T' & Hd & Hwf').
  exists T', (bool_decide (is_Some (l_lookup k l))). split; [done|]. split; [|split].
  - rewrite bool_decide_eq_true, (wf_search _ _ k Hwf). unfold is_Some.
    split; intros [v Hv]; exists v; congruence.
  - by rewrite (wf_search _ _ k Hwf'), l_lookup_delete.
  - intros k' Hne.
    by rewrite (wf_search _ _ k' Hwf'), (wf_search _ _ k' Hwf), l_lookup_delete_ne.
Qed.

(** X3: in a tree built by [insert] and [delete] calls, [inorder] yields
    the entries with strictly increasing keys, and an entry is yielded
    exactly when [search] of its key returns its value. *)
Theorem inorder_sorted_complete (ops : list (tree_op K V)) T :
  run_ops RBTree_init ops = Some T →
  ∃ l, inorder T = Some l ∧
       (∀ i j kv1 kv2, l !! i = Some kv1 → l !! j = Some kv2 → i < j →
                       key_ltb kv1.1 kv2.1 = true) ∧
       ∀ k v, (k, v) ∈ l ↔ search T k = Some (Some v).
Proof.
  intros Hrun. destruct (run_ops_wf ops T Hrun) as (l & Hwf).
  pose proof (wf_sorted _ _ Hwf) as Hs.
  exists l. split; [by apply wf_inorder|]. split.
  - intros i j kv1 kv2 Hi Hj Hij. by apply (ksorted_lookup_lt l i j).
  - intros k v. rewrite (wf_search _ _ k Hwf), <- l_lookup_Some_iff by done.
    split; congruence.
Qed.

(** X4: in a tree built by [insert] and [delete] calls, [size] counts the
    keys: [insert] of a key that [search] does not find adds one, [insert]
    of a key that it finds adds none, [delete] of a key that it finds
    removes one, [delete] of a key that it does not find removes none. *)
Theorem size_after_update (ops : list (tree_op K V)) T k v :
  run_ops RBTree_init ops = Some T →
  ∃ n r, size T = Some n ∧ search T k = Some r ∧
    (∃ T' x, insert T k v = Some (T', x) ∧
             size T' = Some (match r with Some _ => n | None => S n end)) ∧
    (∃ T' found, delete T k = Some (T', found) ∧
             size T' = Some (match r with Some _ => n - 1 | None => n end)).
Proof.
  intros Hrun. destruct (run_ops_wf ops T Hrun) as (l & Hwf).
  pose proof (wf_sorted _ _ Hwf) as Hs.
  exists (length l), (l_lookup k l). split; [by apply wf_size|].
  split; [by apply wf_search|]. split.
  - destruct (wf_insert T l k v Hwf) as (T' & x & Hi & Hwf').
    exists T', x. split; [done|]. by rewrite (wf_size _ _ Hwf'), length_l_insert.
  - destruct (wf_delete T l k Hwf) as (T' & Hd & Hwf').
    eexists T', _. split; [done|]. by rewrite (wf_size _ _ Hwf'), length_l_delete.
Qed.

End TreeMapTheorems.

(** A small tree to try the statements on. *)
Definition demo_tree_ops : list (tree_op Z string) :=
  [OpInsert 2%Z "b"%string; OpInsert 1%Z "a"%string; OpInsert 3%Z "c"%string;
   OpDelete 2%Z].
Definition demo_tree : RBTree Z string :=
  default RBTree_init (run_ops RBTree_init demo_tree_ops).

Lemma demo_tree_run : run_ops RBTree_init demo_tree_ops = Some demo_tree.
Proof. vm_compute. reflexivity. Qed.

Lemma insert_then_search_witness :
  run_ops RBTree_init demo_tree_ops = Some demo_tree ∧
  ∃ T' x, insert demo_tree 5%Z "e"%string = Some (T', x) ∧
          search T' 5%Z = Some (Some "e"%string) ∧
          ∀ k', k' ≠ 5%Z → search T' k' = search demo_tree k'.
Proof.
  split; [exact demo_tree_run|].
  exact (insert_then_search demo_tree_ops demo_tree 5%Z "e"%string demo_tree_run).
Defined.

Lemma delete_then_search_witness :
  run_ops RBTree_init demo_tree_ops = Some demo_tree ∧
  ∃ T' found, delete demo_tree 3%Z = Some (T', found) ∧
              (found = true ↔ ∃ v, search demo_tree 3%Z = Some (Some v)) ∧
              search T' 3%Z = Some None ∧
              ∀ k', k' ≠ 3%Z → search T' k' = search demo_tree k'.
Proof.
  split; [exact demo_tree_run|].
  exact (delete_then_search demo_tree_ops demo_tree 3%Z demo_tree_run).
Defined.

Lemma inorder_sorted_complete_witness :
  run_ops RBTree_init demo_tree_ops = Some demo_tree ∧
  ∃ l, inorder demo_tree = Some l ∧
       (∀ i j kv1 kv2, l !! i = Some kv1 → l !! j = Some kv2 → i < j →
                       key_ltb kv1.1 kv2.1 = true) ∧
       ∀ k v, (k, v) ∈ l ↔ search demo_tree k = Some (Some v).
Proof.
  split; [exact demo_tree_run|].
  exact (inorder_sorted_complete demo_tree_ops demo_tree demo_tree_run).
Defined.

Lemma size_after_update_witness :
  run_ops RBTree_init demo_tree_ops = Some demo_tree ∧
  ∃ n r, size demo_tree = Some n ∧ search demo_tree 1%Z = Some r ∧
    (∃ T' x, insert demo_tree 1%Z "z"%string = Some (T', x) ∧
             size T' = Some (match r with Some _ => n | None => S n end)) ∧
    (∃ T' found, delete demo_tree 1%Z = Some (T', found) ∧
             size T' = Some (match r with Some _ => n - 1 | None => n end)).
Proof.
  split; [exact demo_tree_run|].
  exact (size_after_update demo_tree_ops demo_tree 1%Z "z"%string demo_tree_run).
Defined.

(** * The catalog as a table of records *)

Section CatalogTable.
Context {pystr : PyStr}.

Lemma reachable_cat_inv (ops : list cat_op) C :
  run_cat LibraryCatalog_init ops = Some C → ∃ lid lt, cat_inv C lid lt.
Proof.
  intros Hrun. destruct (run_cat_inv ops) as (C' & lid & lt & Hrun' & Hinv).
  rewrite Hrun in Hrun'. injection Hrun' as <-. eauto.
Qed.

Lemma cat_inv_search_by_id C lid lt id :
  cat_inv C lid lt → search_by_id C id = Some (l_lookup id lid).
Proof. intros (Hid & _). by apply wf_search. Qed.

Lemma cat_inv_listings C lid lt :
  cat_inv C lid lt →
  list_all_by_id C = Some lid.*2 ∧ list_all_by_title C = Some lt.*2.
Proof.
  intros Hinv. destruct (cat_inv_inorder _ _ _ Hinv) as [H1 H2].
  unfold list_all_by_id, list_all_by_title. by rewrite H1, H2.
Qed.

Lemma cat_inv_by_id_elem C lid lt b :
  cat_inv C lid lt → b ∈ lid.*2 ↔ (book_id b, b) ∈ lid.
Proof.
  intros (_ & _ & Hids & _). rewrite list_elem_of_fmap. split.
  - intros ([id b'] & -> & Hin). simpl. by rewrite (Hids _ _ Hin).
  - intros Hin. by exists (book_id b, b).
Qed.

Lemma cat_inv_by_title_elem C lid lt b :
  cat_inv C lid lt → b ∈ lt.*2 ↔ (book_id b, b) ∈ lid.
Proof.
  intros (_ & _ & _ & Hrel). rewrite list_elem_of_fmap. split.
  - intros ([key b'] & -> & Hin). simpl. by apply Hrel in Hin as [? _].
  - intros Hin. exists (title_key_of b, b). split; [done|]. by apply Hrel.
Qed.

(** X5: in a reachable catalog [add_book] returns "updated" when
    [search_by_id] finds a record under the identifier and "inserted" when
    it finds none; afterwards [search_by_id] of that identifier returns the
    new record, and the records under all other identifiers are as before. *)
Theorem add_book_then_search_by_id (ops : list cat_op) C b :
  run_cat LibraryCatalog_init ops = Some C →
  ∃ C' st,
    add_book C b = Some (C', st) ∧
    (st = updated ↔ ∃ b0, search_by_id C (book_id b) = Some (Some b0)) ∧
    (st = inserted ↔ search_by_id C (book_id b) = Some None) ∧
    search_by_id C' (book_id b) = Some (Some b) ∧
    ∀ id, id ≠ book_id b → search_by_id C' id = search_by_id C id.
Proof.
  intros Hrun. destruct (reachable_cat_inv ops C Hrun) as (lid & lt & Hinv).
  pose proof Hinv as (Hid & _). pose proof (wf_sorted _ _ Hid) as Hs.
  destruct (add_book_spec C lid lt b Hinv) as (C' & lt' & Ha & Hinv').
  eexists C', _. split; [exact Ha|].
  rewrite (cat_inv_search_by_id _ _ _ (book_id b) Hinv).
  rewrite (cat_inv_search_by_id _ _ _ (book_id b) Hinv'), l_lookup_l_insert by done.
  destruct (l_lookup (book_id b) lid) as [b0|].
  - split; [split; [eauto|done]|]. split; [split; done|]. split; [done|].
    intros id Hne. rewrite (cat_inv_search_by_id _ _ _ id Hinv).
    by rewrite (cat_inv_search_by_id _ _ _ id Hinv'), l_lookup_insert_ne.
  - split; [split; [done|by intros [? ?]]|]. split; [done|]. split; [done|].
    intros id Hne. rewrite (cat_inv_search_by_id _ _ _ id Hinv).
    by rewrite (cat_inv_search_by_id _ _ _ id Hinv'), l_lookup_insert_ne.
Qed.

(** X6: in a reachable catalog [delete_by_id] returns [True] exactly when
    [search_by_id] finds a record; afterwards [search_by_id] of the
    identifier returns [None], the records under all other identifiers are
    as before, and both listings hold the records they held before except
    those with that identifier. *)
Theorem delete_by_id_then_search (ops : list cat_op) C id :
  run_cat LibraryCatalog_init ops = Some C →
  ∃ C' found byid bytitle byid' bytitle',
    delete_by_id C id = Some (C', found) ∧
    (found = true ↔ ∃ b, search_by_id C id = Some (Some b)) ∧
    search_by_id C' id = Some None ∧
    (∀ id', id' ≠ id → search_by_id C' id' = search_by_id C id') ∧
    list_all_by_id C = Some byid ∧ list_all_by_title C = Some bytitle ∧
    list_all_by_id C' = Some byid' ∧ list_all_by_title C' = Some bytitle' ∧
    (∀ b, b ∈ byid' ↔ b ∈ byid ∧ book_id b ≠ id) ∧
    (∀ b, b ∈ bytitle' ↔ b ∈ bytitle ∧ book_id b ≠ id).
Proof.
  intros Hrun. destruct (reachable_cat_inv ops C Hrun) as (lid & lt & Hinv).
  pose proof Hinv as (Hid & _). pose proof (wf_sorted _ _ Hid) as Hs.
  destruct (delete_by_id_spec C lid lt id Hinv) as (C' & lt' & Hd & Hinv' & _).
  destruct (cat_inv_listings _ _ _ Hinv) as [Hl1 Hl2].
  destruct (cat_inv_listings _ _ _ Hinv') as [Hl1' Hl2'].
  eexists C', _, _, _, _, _. split; [exact Hd|].
  split.
  { rewrite bool_decide_eq_true, (cat_inv_search_by_id _ _ _ id Hinv). unfold is_Some.
    split; intros [v Hv]; exists v; congruence. }
  split; [by rewrite (cat_inv_search_by_id _ _ _ id Hinv'), l_lookup_delete|].
  split.
  { intros id' Hne. rewrite (cat_inv_search_by_id _ _ _ id' Hinv).
    by rewrite (cat_inv_search_by_id _ _ _ id' Hinv'), l_lookup_delete_ne. }
  do 4 (split; [done|]). split; intros b.
  - rewrite (cat_inv_by_id_elem _ _ _ b Hinv'), (cat_inv_by_id_elem _ _ _ b Hinv).
    rewrite elem_of_l_delete. simpl. tauto.
  - rewrite (cat_inv_by_title_elem _ _ _ b Hinv'), (cat_inv_by_title_elem _ _ _ b Hinv).
    rewrite elem_of_l_delete. simpl. tauto.
Qed.

(** X7: in a reachable catalog [list_all_by_id] is in strictly increasing
    order of identifier, and [list_all_by_title] is in strictly increasing
    order of the pair (lower-cased title, identifier). *)
Theorem listings_sorted (ops : list cat_op) C :
  run_cat LibraryCatalog_init ops = Some C →
  ∃ byid bytitle,
    list_all_by_id C = Some byid ∧ list_all_by_title C = Some bytitle ∧
    (∀ i j b1 b2, byid !! i = Some b1 → byid !! j = Some b2 → i < j →
                  (book_id b1 < book_id b2)%Z) ∧
    (∀ i j b1 b2, bytitle !! i = Some b1 → bytitle !! j = Some b2 → i < j →
                  title_key_ltb (lower (title b1), book_id b1)
                                (lower (title b2), book_id b2) = true).
Proof.
  intros Hrun. destruct (reachable_cat_inv ops C Hrun) as (lid & lt & Hinv).
  pose proof Hinv as (Hid & Ht & Hids & Hrel).
  destruct (cat_inv_listings _ _ _ Hinv) as [Hl1 Hl2].
  exists lid.*2, lt.*2. do 2 (split; [done|]). split.
  - intros i j b1 b2 Hi Hj Hij. rewrite list_lookup_fmap in Hi, Hj.
    destruct (lid !! i) as [[i1 b1']|] eqn:Hi'; [|done].
    destruct (lid !! j) as [[i2 b2']|] eqn:Hj'; [|done].
    simpl in Hi, Hj. injection Hi as ->. injection Hj as ->.
    pose proof (ksorted_lookup_lt lid i j _ _ (wf_sorted _ _ Hid) Hi' Hj' Hij) as Hlt.
    rewrite (Hids _ _ (list_elem_of_lookup_2 _ _ _ Hi')).
    rewrite (Hids _ _ (list_elem_of_lookup_2 _ _ _ Hj')).
    by apply Z.ltb_lt.
  - intros i j b1 b2 Hi Hj Hij. rewrite list_lookup_fmap in Hi, Hj.
    destruct (lt !! i) as [[k1 b1']|] eqn:Hi'; [|done].
    destruct (lt !! j) as [[k2 b2']|] eqn:Hj'; [|done].
    simpl in Hi, Hj. injection Hi as ->. injection Hj as ->.
    pose proof (ksorted_lookup_lt lt i j _ _ (wf_sorted _ _ Ht) Hi' Hj' Hij) as Hlt.
    apply list_elem_of_lookup_2, Hrel in Hi' as [_ ->].
    apply list_elem_of_lookup_2, Hrel in Hj' as [_ ->]. exact Hlt.
Qed.

Lemma cat_inv_length C lid lt : cat_inv C lid lt → length lid = length lt.
Proof.
  intros Hinv. pose proof Hinv as (Hid & Ht & Hids & Hrel).
  rewrite <- (length_fmap snd lid), <- (length_fmap snd lt).
  apply Permutation_length, NoDup_Permutation.
  - apply NoDup_fmap_2_strong.
    + intros [i1 b1] [i2 b2] H1 H2 Heq. simpl in Heq. subst b2.
      by rewrite <- (Hids _ _ H1), <- (Hids _ _ H2).
    + eapply NoDup_fmap_1. apply ksorted_NoDup_keys, (wf_sorted _ _ Hid).
  - apply NoDup_fmap_2_strong.
    + intros [k1 b1] [k2 b2] H1 H2 Heq. simpl in Heq. subst b2.
      apply Hrel in H1 as [_ ->], H2 as [_ ->]. done.
    + eapply NoDup_fmap_1. apply ksorted_NoDup_keys, (wf_sorted _ _ Ht).
  - intros b.
    by rewrite (cat_inv_by_id_elem _ _ _ b Hinv), (cat_inv_by_title_elem _ _ _ b Hinv).
Qed.

(** X8: in a reachable catalog the two trees have the same [size], which
    is the number of records that [list_all_by_id] returns. *)
Theorem index_sizes_agree (ops : list cat_op) C :
  run_cat LibraryCatalog_init ops = Some C →
  ∃ n byid,
    size (by_id C) = Some n ∧ size (by_title C) = Some n ∧
    list_all_by_id C = Some byid ∧ length byid = n.
Proof.
  intros Hrun. destruct (reachable_cat_inv ops C Hrun) as (lid & lt & Hinv).
  pose proof (cat_inv_length _ _ _ Hinv) as Hlen.
  pose proof Hinv as (Hid & Ht & _).
  destruct (cat_inv_listings _ _ _ Hinv) as [Hl1 _].
  exists (length lid), lid.*2. split; [by apply wf_size|].
  split; [rewrite Hlen; by apply wf_size|]. split; [done|]. by rewrite length_fmap.
Qed.

End CatalogTable.

Section CatalogTableExamples.
#[local] Existing Instance ascii_PyStr.

Lemma demo_catalog_run : run_cat LibraryCatalog_init demo_ops = Some demo_catalog.
Proof. vm_compute. reflexivity. Qed.

Lemma add_book_then_search_by_id_witness :
  run_cat LibraryCatalog_init demo_ops = Some demo_catalog ∧
  ∃ C' st,
    add_book demo_catalog emma = Some (C', st) ∧
    (st = updated ↔ ∃ b0, search_by_id demo_catalog (book_id emma) = Some (Some b0)) ∧
    (st = inserted ↔ search_by_id demo_catalog (book_id emma) = Some None) ∧
    search_by_id C' (book_id emma) = Some (Some emma) ∧
    ∀ id, id ≠ book_id emma → search_by_id C' id = search_by_id demo_catalog id.
Proof.
  split; [exact demo_catalog_run|].
  exact (add_book_then_search_by_id demo_ops demo_catalog emma demo_catalog_run).
Defined.

Lemma delete_by_id_then_search_witness :
  run_cat LibraryCatalog_init demo_ops = Some demo_catalog ∧
  ∃ C' found byid bytitle byid' bytitle',
    delete_by_id demo_catalog 7 = Some (C', found) ∧
    (found = true ↔ ∃ b, search_by_id demo_catalog 7 = Some (Some b)) ∧
    search_by_id C' 7 = Some None ∧
    (∀ id', id' ≠ 7%Z → search_by_id C' id' = search_by_id demo_catalog id') ∧
    list_all_by_id demo_catalog = Some byid ∧
    list_all_by_title demo_catalog = Some bytitle ∧
    list_all_by_id C' = Some byid' ∧ list_all_by_title C' = Some bytitle' ∧
    (∀ b, b ∈ byid' ↔ b ∈ byid ∧ book_id b ≠ 7%Z) ∧
    (∀ b, b ∈ bytitle' ↔ b ∈ bytitle ∧ book_id b ≠ 7%Z).
Proof.
  split; [exact demo_catalog_run|].
  exact (delete_by_id_then_search demo_ops demo_catalog 7%Z demo_catalog_run).
Defined.

Lemma listings_sorted_witness :
  run_cat LibraryCatalog_init demo_ops = Some demo_catalog ∧
  ∃ byid bytitle,
    list_all_by_id demo_catalog = Some byid ∧
    list_all_by_title demo_catalog = Some bytitle ∧
    (∀ i j b1 b2, byid !! i = Some b1 → byid !! j = Some b2 → i < j →
                  (book_id b1 < book_id b2)%Z) ∧
    (∀ i j b1 b2, bytitle !! i = Some b1 → bytitle !! j = Some b2 → i < j →
                  title_key_ltb (lower (title b1), book_id b1)
                                (lower (title b2), book_id b2) = true).
Proof.
  split; [exact demo_catalog_run|].
  exact (listings_sorted demo_ops demo_catalog demo_catalog_run).
Defined.

Lemma index_sizes_agree_witness :
  run_cat LibraryCatalog_init demo_ops = Some demo_catalog ∧
  ∃ n byid,
    size (by_id demo_catalog) = Some n ∧ size (by_title demo_catalog) = Some n ∧
    list_all_by_id demo_catalog = Some byid ∧ length byid = n.
Proof.
  split; [exact demo_catalog_run|].
  exact (index_sizes_agree demo_ops demo_catalog demo_catalog_run).
Defined.

End CatalogTableExamples.

(** * Saving and loading *)

(** [Book.to_dict]: [asdict] lists every field, in the order of their
    declaration. *)
Definition to_dict (b : Book) : json :=
  JObj [("book_id"%string, JInt (book_id b)); ("title"%string, JStr (title b));
        ("author"%string, JStr (author b)); ("year"%string, JInt (year b));
        ("copies"%string, JInt (copies b))].

(** [save_to_file]: the array handed to [json.dump].  The file and the
    JSON text in it are not modelled: what [json.load] reads back is the
    array that was written. *)
Definition save_to_file (C : LibraryCatalog) : option json :=
  l ← list_all_by_id C; Some (JArr (to_dict <$> (l : list Book))).

(** Inserting the entries of a sorted list in order rebuilds the list. *)
Lemma upsert_all_sorted (l1 l2 : list (Z * Book)) :
  ksorted (l1 ++ l2) → (∀ id b, (id, b) ∈ l2 → book_id b = id) →
  upsert_all l1 l2.*2 = l1 ++ l2.
Proof.
  revert l1. induction l2 as [|[k b] l2 IH]; intros l1 Hs Hids; simpl.
  - by rewrite app_nil_r.
  - unfold upsert_all in *. simpl.
    rewrite (Hids k b) by apply list_elem_of_here.
    pose proof Hs as Hs'. apply ksorted_mid in Hs' as (_ & _ & Hlt & _). simpl in Hlt.
    rewrite <- (app_nil_r l1) at 1. rewrite l_insert_new by (done || constructor).
    rewrite IH.
    + by rewrite <- app_assoc.
    + by rewrite <- app_assoc.
    + intros id b' Hin. apply Hids. by apply list_elem_of_further.
Qed.

(** What [search_by_id] finds after a list of upserts: the last record
    with the identifier. *)
Lemma l_lookup_upsert_all (l : list (Z * Book)) bs id :
  ksorted l →
  ksorted (upsert_all l bs) ∧
  l_lookup id (upsert_all l bs) =
    match last (filter (λ b, book_id b = id) bs) with
    | Some b => Some b
    | None => l_lookup id l
    end.
Proof.
  revert l. induction bs as [|b bs IH]; intros l Hs; [done|].
  unfold upsert_all in *. simpl.
  destruct (IH (l_insert (book_id b) b l)) as [Hs' Hl]; [by apply ksorted_l_insert|].
  split; [done|]. rewrite Hl. rewrite filter_cons. case_decide as Hid.
  - rewrite last_cons. destruct (last (filter _ bs)); [done|].
    rewrite <- Hid. by apply l_lookup_l_insert.
  - destruct (last (filter _ bs)); [done|]. apply l_lookup_insert_ne; [done|]. congruence.
Qed.

Section SaveLoad.
Context {pystr : PyStr}.

Lemma from_dict_to_dict b :
  from_dict (to_dict b) =
    inr (mkRawBook (JInt (book_id b)) (JStr (title b)) (JStr (author b)) (year b) (copies b)).
Proof. reflexivity. Qed.

Lemma as_book_to_dict b :
  as_book (mkRawBook (JInt (book_id b)) (JStr (title b)) (JStr (author b)) (year b) (copies b))
    = Some b.
Proof. by destruct b. Qed.

Lemma fields_typed_to_dict b : fields_typed (to_dict b) = true.
Proof. reflexivity. Qed.

Lemma applied_to_dict bs : applied (to_dict <$> bs) = bs.
Proof.
  induction bs as [|b bs IH]; [done|]. rewrite fmap_cons.
  change (applied (to_dict b :: (to_dict <$> bs))) with
    (match from_dict (to_dict b) with
     | inl _ => []
     | inr r =>
       match as_book r with
       | Some book => book :: applied (to_dict <$> bs)
       | None => []
       end
     end).
  by rewrite from_dict_to_dict, as_book_to_dict, IH.
Qed.

Lemma first_error_to_dict bs : first_error (to_dict <$> bs) = ReturnedTrue.
Proof.
  induction bs as [|b bs IH]; [done|]. rewrite fmap_cons.
  change (first_error (to_dict b :: (to_dict <$> bs))) with
    (match from_dict (to_dict b) with
     | inl e => Raised e
     | inr _ => first_error (to_dict <$> bs)
     end).
  by rewrite from_dict_to_dict.
Qed.

(** X9: saving a reachable catalog and loading what was saved (into any
    catalog object) returns [True] and gives a catalog with the same
    listings and the same [search_by_id] results. *)
Theorem save_load_round_trip (ops : list cat_op) C C0 :
  run_cat LibraryCatalog_init ops = Some C →
  ∃ arr C',
    save_to_file C = Some arr ∧
    load_from_file C0 arr = Some (C', ReturnedTrue) ∧
    list_all_by_id C' = list_all_by_id C ∧
    list_all_by_title C' = list_all_by_title C ∧
    ∀ id, search_by_id C' id = search_by_id C id.
Proof.
  intros Hrun. destruct (reachable_cat_inv ops C Hrun) as (lid & lt & Hinv).
  pose proof Hinv as (Hid & _ & Hids & _). pose proof (wf_sorted _ _ Hid) as Hs.
  destruct (cat_inv_listings _ _ _ Hinv) as [Hl1 Hl2].
  exists (JArr (to_dict <$> lid.*2)).
  unfold save_to_file, load_from_file, clear. rewrite Hl1. cbn [mbind option_bind iter_items].
  destruct (load_loop_spec LibraryCatalog_init [] [] (to_dict <$> lid.*2) cat_inv_init)
    as (C' & lt' & Hload & _ & Hinv').
  { apply Forall_fmap, Forall_forall. intros b _. apply fields_typed_to_dict. }
  rewrite first_error_to_dict in Hload. rewrite applied_to_dict in Hinv'.
  rewrite (upsert_all_sorted [] lid) in Hinv' by done. simpl in Hinv'.
  rewrite (cat_inv_title_unique _ _ _ _ _ Hinv' Hinv) in Hinv'.
  destruct (cat_inv_listings _ _ _ Hinv') as [Hl1' Hl2'].
  exists C'. split; [done|]. split; [done|]. split; [congruence|]. split; [congruence|].
  intros id. by rewrite (cat_inv_search_by_id _ _ _ id Hinv), (cat_inv_search_by_id _ _ _ id Hinv').
Qed.

(** X10: a batch in which [book_id], [title] and [author], where present,
    are an integer, a string and a string is loaded, whatever the catalog
    held before, so that [search_by_id] returns for each identifier the
    last record with that identifier among the records of the batch that
    come before the first record that [from_dict] refuses, and [None] when
    there is none. *)
Theorem load_last_record_wins C (arr : json) (id : Z) :
  batch_typed arr →
  ∃ C', load_from_file C arr = Some (C', load_outcome arr) ∧
        search_by_id C' id =
          Some (last (filter (λ b, book_id b = id) (batch_applied arr))).
Proof.
  intros Htyped.
  destruct (load_from_file_spec C arr Htyped) as (C' & lt' & Hload & _ & Hinv').
  exists C'. split; [done|]. rewrite (cat_inv_search_by_id _ _ _ id Hinv').
  destruct (l_lookup_upsert_all [] (batch_applied arr) id I) as [_ ->].
  by destruct (last _).
Qed.

End SaveLoad.

Section SaveLoadExamples.
#[local] Existing Instance ascii_PyStr.

Lemma save_load_round_trip_witness :
  run_cat LibraryCatalog_init demo_ops = Some demo_catalog ∧
  ∃ arr C',
    save_to_file demo_catalog = Some arr ∧
    load_from_file LibraryCatalog_init arr = Some (C', ReturnedTrue) ∧
    list_all_by_id C' = list_all_by_id demo_catalog ∧
    list_all_by_title C' = list_all_by_title demo_catalog ∧
    ∀ id, search_by_id C' id = search_by_id demo_catalog id.
Proof.
  split; [exact demo_catalog_run|].
  exact (save_load_round_trip demo_ops demo_catalog LibraryCatalog_init demo_catalog_run).
Defined.

(** A batch that files identifier 1 twice. *)
Definition demo_repeat_batch : json :=
  JArr [JObj [("book_id"%string, JInt 1); ("title"%string, JStr "A")];
        JObj [("book_id"%string, JInt 2); ("title"%string, JStr "C")];
        JObj [("book_id"%string, JInt 1); ("title"%string, JStr "B")]].

Lemma demo_repeat_batch_typed : batch_typed demo_repeat_batch.
Proof. intros l [= <-]. by repeat constructor. Qed.

Lemma load_last_record_wins_witness :
  batch_typed demo_repeat_batch ∧
  ∃ C', load_from_file LibraryCatalog_init demo_repeat_batch
          = Some (C', load_outcome demo_repeat_batch) ∧
        search_by_id C' 1 =
          Some (last (filter (λ b, book_id b = 1%Z) (batch_applied demo_repeat_batch))).
Proof.
  split; [exact demo_repeat_batch_typed|].
  exact (load_last_record_wins LibraryCatalog_init demo_repeat_batch 1 demo_repeat_batch_typed).
Defined.

End SaveLoadExamples.

(** * Walking the tree in key order *)

Section Walk.
Context {K V : Type} `{KeyOrd K}.
Implicit Types (T : RBTree K V) (c up : ctx K V) (t : tree K V) (f : frame K V).

(** A position in a tree: a context and the subtree in its hole, whose
    root is the node the position stands for. *)
Definition zaddr (z : ctx K V * tree K V) : ptr := addr z.2.

(** Entries before, at and after a position. *)
Definition zbefore (z : ctx K V * tree K V) : list (K * V) :=
  match z.2 with
  | E => cbefore z.1
  | N _ l _ _ _ _ => cbefore z.1 ++ elements l
  end.

Definition zafter (z : ctx K V * tree K V) : list (K * V) :=
  match z.2 with
  | E => cafter z.1
  | N _ _ _ _ _ r => elements r ++ cafter z.1
  end.

Definition zentry (z : ctx K V * tree K V) : option (K * V) :=
  match z.2 with
  | E => None
  | N _ _ _ k v _ => Some (k, v)
  end.

(** Going up until a node is entered from its left subtree. *)
Fixpoint climb (c : ctx K V) (t : tree K V) : option (ctx K V * tree K V) :=
  match c with
  | [] => None
  | FL co a k v r :: up => Some (up, N co t a k v r)
  | FR co l a k v :: up => climb up (N co l a k v t)
  end.

(** The position of the next entry. *)
Definition znext (z : ctx K V * tree K V) : option (ctx K V * tree K V) :=
  match z.2 with
  | E => None
  | N co l a k v E => climb z.1 (N co l a k v E)
  | N co l a k v r => Some (descend_min (FR co l a k v :: z.1) r)
  end.

(** The descent of [lower_bound_node]; [lb] is the last position at which
    it went left. *)
Fixpoint lb_descend (k : K) (c : ctx K V) (t : tree K V)
    (lb : option (ctx K V * tree K V)) : option (ctx K V * tree K V) :=
  match t with
  | E => lb
  | N co l a k' v r =>
    if key_geb k' k then lb_descend k (FL co a k' v r :: c) l (Some (c, t))
    else lb_descend k (FR co l a k' v :: c) r lb
  end.

(** [zpos T np t0 z]: [z] is a position at a node of the tree [t0] that
    the arena holds. *)
Definition zpos (T : RBTree K V) (np : ptr) (t0 : tree K V)
    (z : ctx K V * tree K V) : Prop :=
  Rep T np z.1 z.2 ∧ plug z.1 z.2 = t0 ∧ z.2 ≠ E.

Lemma Rep_left_ne_right T np c co cl ll x kx vx lr a k v r :
  Rep T np c (N co (N cl ll x kx vx lr) a k v r) → (x =? addr r) = false.
Proof.
  intros HR. destruct r as [|cr rl y ky vy rr].
  - apply Nat.eqb_neq. apply Rep_down_l in HR. by apply Rep_addr_ne in HR.
  - rep_open HR. by repeat hstep.
Qed.

Lemma climb_spec fuel T np c t :
  Rep T np c t → t ≠ E → length c < fuel →
  successor_up fuel T (addr t) (caddr c NIL) = Some (zaddr <$> climb c t).
Proof.
  revert fuel t. induction c as [|f up IH]; intros fuel t HR Ht Hfuel.
  - destruct fuel as [|fuel]; [simpl in Hfuel; lia|]. done.
  - destruct fuel as [|fuel]; [simpl in Hfuel; lia|]. simpl in Hfuel.
    pose proof (proj1 (Rep_up _ _ _ _ _) HR) as HRup.
    destruct t as [|cl ll x kx vx lr]; [done|].
    destruct f as [co a k v r|co l a k v]; simpl in HRup |- *.
    + rewrite (proj2 (Nat.eqb_neq a NIL) (Rep_addr_ne _ _ _ _ _ _ _ _ _ HRup)).
      rewrite (Rep_right _ _ _ _ _ _ _ _ _ HRup).
      by rewrite (Rep_left_ne_right _ _ _ _ _ _ _ _ _ _ _ _ _ _ HRup).
    + rewrite (proj2 (Nat.eqb_neq a NIL) (Rep_addr_ne _ _ _ _ _ _ _ _ _ HRup)).
      rewrite (Rep_right _ _ _ _ _ _ _ _ _ HRup). simpl. rewrite Nat.eqb_refl. simpl.
      rewrite (Rep_parent _ _ _ _ _ _ _ _ _ HRup).
      apply (IH fuel (N co l a k v (N cl ll x kx vx lr))); [done|done|lia].
Qed.

Lemma climb_zpos T np t0 c t z :
  Rep T np c t → plug c t = t0 → climb c t = Some z → zpos T np t0 z.
Proof.
  revert t. induction c as [|f up IH]; intros t HR Hp Hc; [done|].
  pose proof (proj1 (Rep_up _ _ _ _ _) HR) as HRup.
  destruct f as [co a k v r|co l a k v]; simpl in *.
  - injection Hc as <-. done.
  - by apply (IH (N co l a k v t)).
Qed.

Lemma climb_after c t :
  match climb c t with
  | None => cafter c = []
  | Some z =>
    zbefore z = cbefore c ++ elements t ∧
    ∃ kv, zentry z = Some kv ∧ cafter c = kv :: zafter z
  end.
Proof.
  revert t. induction c as [|f up IH]; intros t; [done|].
  destruct f as [co a k v r|co l a k v]; simpl.
  - split; [done|]. by exists (k, v).
  - specialize (IH (N co l a k v t)). destruct (climb up _) as [z|]; [|done].
    destruct IH as [Hb Ha]. split; [|done]. rewrite Hb. simpl.
    by rewrite <- !app_assoc.
Qed.

(** [_successor] steps to the next position. *)
Lemma successor_spec T np t0 z :
  zpos T np t0 z →
  _successor T (zaddr z) = Some (zaddr <$> znext z) ∧
  ∀ z', znext z = Some z' → zpos T np t0 z'.
Proof.
  destruct z as [c t]. intros (HR & Hp & Ht). simpl in *.
  destruct t as [|co l a k v r]; [done|]. unfold _successor, zaddr. cbn [fst snd addr].
  rewrite (Rep_right _ _ _ _ _ _ _ _ _ HR).
  pose proof (Rep_size _ _ _ _ HR) as Hsz.
  destruct r as [|cr rl y ky vy rr].
  - change (znext (c, N co l a k v E)) with (climb c (N co l a k v E)).
    simpl. rewrite (Rep_parent _ _ _ _ _ _ _ _ _ HR). split.
    + apply (climb_spec _ T np c (N co l a k v E)); [done|done|simpl in Hsz; lia].
    + intros z' Hz'. by apply (climb_zpos T np t0 c (N co l a k v E)).
  - change (znext (c, N co l a k v (N cr rl y ky vy rr))) with
      (Some (descend_min (FR co l a k v :: c) (N cr rl y ky vy rr))).
    pose proof (Rep_down_r _ _ _ _ _ _ _ _ _ HR) as HRr.
    assert (N cr rl y ky vy rr ≠ E) as HRne by done.
    assert (tsize (N cr rl y ky vy rr) ≤ length (heap T)) as Hfuel
      by (simpl in Hsz |- *; lia).
    revert HRr HRne Hfuel Hp. generalize (N cr rl y ky vy rr). intros R HRr HRne Hfuel Hp.
    rewrite (proj2 (Nat.eqb_neq (addr R) NIL)
               (proj2 (not_iff_compat (Rep_addr_NIL _ _ _ _ HRr)) HRne)). cbn [negb].
    destruct (minimum_spec (length (heap T)) T np (FR co l a k v :: c) R HRr HRne Hfuel)
      as [Hmin HRm].
    rewrite Hmin. split; [done|].
    intros z' [= <-]. split; [done|]. split.
    + rewrite <- Hp. apply (descend_min_plug (FR co l a k v :: c) R).
    + destruct (descend_min_shape (FR co l a k v :: c) R HRne)
        as (? & ? & ? & ? & ? & ->). done.
Qed.

(** The next position holds the entry that follows. *)
Lemma znext_after z :
  z.2 ≠ E →
  match znext z with
  | None => zafter z = []
  | Some z' =>
    ∃ kv kv', zentry z = Some kv ∧ zentry z' = Some kv' ∧
              zbefore z' = zbefore z ++ [kv] ∧ zafter z = kv' :: zafter z'
  end.
Proof.
  destruct z as [c t]. simpl. intros Ht. destruct t as [|co l a k v r]; [done|].
  destruct r as [|cr rl y ky vy rr].
  - change (znext (c, N co l a k v E)) with (climb c (N co l a k v E)).
    pose proof (climb_after c (N co l a k v E)) as Hc.
    destruct (climb c _) as [z'|]; [|done]. destruct Hc as [Hb (kv' & Hkv' & Ha)].
    exists (k, v), kv'. split; [done|]. split; [done|]. split.
    + rewrite Hb. unfold zbefore. simpl. by rewrite <- app_assoc.
    + done.
  - change (znext (c, N co l a k v (N cr rl y ky vy rr))) with
      (Some (descend_min (FR co l a k v :: c) (N cr rl y ky vy rr))).
    set (R := N cr rl y ky vy rr).
    pose proof (descend_min_plug (FR co l a k v :: c) R) as Hp.
    pose proof (descend_min_before (FR co l a k v :: c) R) as Hb.
    destruct (descend_min_shape (FR co l a k v :: c) R) as (cm & m & km & vm & rm & Hm);
      [done|].
    destruct (descend_min (FR co l a k v :: c) R) as [c' t']. simpl in Hp, Hb, Hm. subst t'.
    exists (k, v), (km, vm). do 2 (split; [done|]).
    unfold zbefore, zafter. simpl.
    rewrite Hb. simpl. rewrite app_nil_r. split; [by rewrite <- !app_assoc|].
    apply (f_equal elements) in Hp. rewrite !elements_plug in Hp. simpl in Hp.
    rewrite Hb in Hp. simpl in Hp. rewrite <- !app_assoc in Hp. simpl in Hp.
    rewrite <- !app_assoc in Hp. simpl in Hp.
    do 2 apply app_inv_head in Hp. injection Hp as Hp.
    rewrite <- app_assoc. simpl. by rewrite Hp.
Qed.

Lemma zpos_entry T np t0 z :
  zpos T np t0 z →
  ∃ k v, zentry z = Some (k, v) ∧
         key_of T (zaddr z) = Some k ∧ value_of T (zaddr z) = Some v ∧
         elements t0 = zbefore z ++ (k, v) :: zafter z.
Proof.
  destruct z as [c t]. intros (HR & Hp & Ht). simpl in *.
  destruct t as [|co l a k v r]; [done|]. exists k, v.
  unfold zentry, zaddr, zbefore, zafter. simpl. split; [done|].
  split; [by apply (Rep_key _ _ _ _ _ _ _ _ _ HR)|].
  split; [by apply (Rep_value _ _ _ _ _ _ _ _ _ HR)|].
  rewrite <- Hp, elements_plug. simpl. by rewrite <- !app_assoc.
Qed.

Lemma lower_bound_loop_spec fuel T np c t k lb :
  Rep T np c t → tsize t < fuel →
  lower_bound_loop fuel T k (addr t) (zaddr <$> lb) = Some (zaddr <$> lb_descend k c t lb).
Proof.
  revert fuel c lb. induction t as [|co l IHl a k' v r IHr]; intros fuel c lb HR Hfuel.
  - destruct fuel as [|fuel]; [lia|]. done.
  - destruct fuel as [|fuel]; [lia|]. simpl in Hfuel. simpl.
    rewrite (proj2 (Nat.eqb_neq a NIL) (Rep_addr_ne _ _ _ _ _ _ _ _ _ HR)). simpl.
    rewrite (Rep_key _ _ _ _ _ _ _ _ _ HR). simpl.
    rewrite (Rep_left _ _ _ _ _ _ _ _ _ HR), (Rep_right _ _ _ _ _ _ _ _ _ HR).
    destruct (key_geb k' k).
    + apply (IHl fuel (FL co a k' v r :: c) (Some (c, N co l a k' v r)));
        [by apply Rep_down_l|lia].
    + apply (IHr fuel (FR co l a k' v :: c) lb); [by apply Rep_down_r|lia].
Qed.

Lemma lb_descend_zpos T np t0 k c t lb :
  Rep T np c t → plug c t = t0 → (∀ z, lb = Some z → zpos T np t0 z) →
  ∀ z, lb_descend k c t lb = Some z → zpos T np t0 z.
Proof.
  revert c lb. induction t as [|co l IHl a k' v r IHr]; intros c lb HR Hp Hlb z; simpl.
  - apply Hlb.
  - destruct (key_geb k' k).
    + apply IHl; [by apply Rep_down_l|done|]. intros z' [= <-]. done.
    + apply IHr; [by apply Rep_down_r|done|done].
Qed.

End Walk.

Ltac lnorm :=
  repeat first [rewrite <- app_assoc | rewrite <- app_comm_cons | progress cbn [app]].
Ltac lnorm_in H :=
  repeat first [rewrite <- app_assoc in H | rewrite <- app_comm_cons in H
               | progress cbn [app] in H].

Section WalkOrder.
Context {K V : Type} `{KeyOrdLaws K}.
Implicit Types (T : RBTree K V) (c up : ctx K V) (t : tree K V) (l : list (K * V)).

Lemma ksorted_before l1 kv l2 kv' :
  ksorted (l1 ++ kv :: l2) → kv' ∈ l1 → klt kv'.1 kv.1.
Proof.
  intros Hs Hin. apply ksorted_mid in Hs as (_ & _ & Hlt & _).
  by apply (proj1 (Forall_forall _ _) Hlt).
Qed.

Lemma ksorted_after l1 kv l2 kv' :
  ksorted (l1 ++ kv :: l2) → kv' ∈ l2 → klt kv.1 kv'.1.
Proof.
  intros Hs Hin. apply ksorted_mid in Hs as (_ & _ & _ & Hgt & _).
  by apply (proj1 (Forall_forall _ _) Hgt).
Qed.

(** Where the descent of [lower_bound_node] ends. *)
Lemma lb_descend_bounds k c t lb :
  ksorted (cbefore c ++ elements t ++ cafter c) →
  keys_lt (cbefore c) k →
  match lb with
  | Some z => zbefore z = cbefore c ++ elements t ∧
              ∃ kv, zentry z = Some kv ∧ key_ltb kv.1 k = false
  | None => cafter c = []
  end →
  match lb_descend k c t lb with
  | Some z => keys_lt (zbefore z) k ∧ ∃ kv, zentry z = Some kv ∧ key_ltb kv.1 k = false
  | None => keys_lt (cbefore c ++ elements t ++ cafter c) k
  end.
Proof.
  revert c lb. induction t as [|co l IHl a k' v r IHr]; intros c lb Hs Hlt Hlb.
  - simpl. destruct lb as [z|].
    + destruct Hlb as [Hb Hkv]. split; [|done]. rewrite Hb. simpl. by rewrite app_nil_r.
    + rewrite Hlb. simpl. by rewrite app_nil_r.
  - cbn [lb_descend]. unfold key_geb. destruct (key_ltb k' k) eqn:Hk; cbn [negb].
    + assert (cbefore c ++ elements (N co l a k' v r) ++ cafter c =
              cbefore (FR co l a k' v :: c) ++ elements r ++ cafter (FR co l a k' v :: c))
        as Heq.
      { cbn [cbefore cafter elements]. by lnorm. }
      rewrite Heq in Hs |- *. apply IHr; [done| |].
      * cbn [cbefore cafter] in Hs |- *. rewrite !keys_lt_app. split; [done|]. split.
        -- lnorm_in Hs. apply ksorted_app in Hs as (_ & Hs & _).
           apply ksorted_mid in Hs as (_ & _ & Hl & _). simpl in Hl.
           by apply keys_lt_trans with k'.
        -- by repeat constructor.
      * destruct lb as [z|]; [|done]. destruct Hlb as [Hb Hkv]. split; [|done].
        rewrite Hb. cbn [cbefore elements]. by lnorm.
    + assert (cbefore c ++ elements (N co l a k' v r) ++ cafter c =
              cbefore (FL co a k' v r :: c) ++ elements l ++ cafter (FL co a k' v r :: c))
        as Heq.
      { cbn [cbefore cafter elements]. by lnorm. }
      rewrite Heq in Hs |- *. apply IHl; [done|done|].
      split; [done|]. by exists (k', v).
Qed.

(** Reading the three ways a position splits the contents. *)
Lemma wf_positions T l :
  wf T l → ∃ np t0, Rep T np [] t0 ∧ elements t0 = l ∧ ksorted l.
Proof. intros (np & t & HR & _ & Hs & Hel). by exists np, t. Qed.

Lemma lower_bound_node_spec T l k :
  wf T l →
  ∃ r, lower_bound_node T k = Some r ∧
    match r with
    | None => keys_lt l k
    | Some x =>
      ∃ l1 kx vx l2, l = l1 ++ (kx, vx) :: l2 ∧ keys_lt l1 k ∧ key_ltb kx k = false ∧
                     key_of T x = Some kx ∧ value_of T x = Some vx ∧
                     ∃ np t0 z, zpos T np t0 z ∧ zaddr z = x ∧ elements t0 = l ∧
                                zbefore z = l1 ∧ zafter z = l2
    end.
Proof.
  intros Hwf. destruct (wf_positions T l Hwf) as (np & t0 & HR & Hel & Hs).
  unfold lower_bound_node. rewrite (Rep_root _ _ _ HR).
  pose proof (lower_bound_loop_spec (length (heap T)) T np [] t0 k None HR) as Hlb.
  simpl in Hlb. rewrite Hlb by (pose proof (Rep_size _ _ _ _ HR); lia).
  eexists. split; [done|].
  pose proof (lb_descend_bounds k [] t0 None) as Hb. simpl in Hb.
  rewrite app_nil_r in Hb. rewrite Hel in Hb. specialize (Hb Hs ltac:(constructor) eq_refl).
  pose proof (lb_descend_zpos T np t0 k [] t0 None HR eq_refl ltac:(done)) as Hz.
  destruct (lb_descend k [] t0 None) as [z|]; simpl; [|done].
  destruct Hb as [Hlt ([kx vx] & Hkv & Hge)]. specialize (Hz z eq_refl).
  destruct (zpos_entry T np t0 z Hz) as (kx' & vx' & Hkv' & Hkey & Hval & Hsplit).
  rewrite Hkv in Hkv'. injection Hkv' as <- <-.
  exists (zbefore z), kx, vx, (zafter z). rewrite <- Hel.
  do 5 (split; [done|]). by exists np, t0, z.
Qed.

Lemma successor_node_spec T np t0 z :
  zpos T np t0 z →
  ∃ r, _successor T (zaddr z) = Some r ∧
    match r with
    | None => zafter z = []
    | Some y =>
      ∃ z' kv kv', zpos T np t0 z' ∧ zaddr z' = y ∧
                   zentry z = Some kv ∧ zentry z' = Some kv' ∧
                   zbefore z' = zbefore z ++ [kv] ∧ zafter z = kv' :: zafter z'
    end.
Proof.
  intros Hz. destruct (successor_spec T np t0 z Hz) as [Hsucc Hnext].
  pose proof (znext_after z) as Hafter. destruct Hz as (_ & _ & Hne).
  specialize (Hafter Hne). rewrite Hsucc. eexists. split; [done|].
  destruct (znext z) as [z'|]; simpl; [|done].
  destruct Hafter as (kv & kv' & ? & ? & ? & ?). exists z', kv, kv'. eauto 10.
Qed.

Lemma search_node_zpos T np t0 k x :
  Rep T np [] t0 → search_node T k = Some (Some x) →
  ∃ z v, zpos T np t0 z ∧ zaddr z = x ∧ zentry z = Some (k, v).
Proof.
  intros HR Hs. rewrite (search_node_spec _ _ _ _ HR) in Hs.
  pose proof (descend_plug k [] t0) as Hplug.
  pose proof (descend_found k [] t0) as Hfound.
  pose proof (Rep_descend T np [] t0 k HR) as HR'.
  destruct (descend k [] t0) as [c t]. simpl in *.
  destruct Hfound as [->|(co & l & a & v & r & ->)]; [done|].
  injection Hs as <-. by exists (c, N co l a k v r), v.
Qed.

(** X11: in a tree built by [insert] and [delete] calls,
    [lower_bound_node k] returns the node with the least key that is not
    below [k], and [None] when every key is below [k]. *)
Theorem lower_bound_node_least_geq (ops : list (tree_op K V)) T k :
  run_ops RBTree_init ops = Some T →
  ∃ r l, lower_bound_node T k = Some r ∧ inorder T = Some l ∧
    match r with
    | None => ∀ kv, kv ∈ l → key_ltb kv.1 k = true
    | Some x =>
      ∃ kx vx, key_of T x = Some kx ∧ value_of T x = Some vx ∧ (kx, vx) ∈ l ∧
               key_ltb kx k = false ∧
               ∀ kv, kv ∈ l → key_ltb kv.1 k = false → key_ltb kv.1 kx = false
    end.
Proof.
  intros Hrun. destruct (run_ops_wf ops T Hrun) as (l & Hwf).
  pose proof (wf_sorted _ _ Hwf) as Hs.
  destruct (lower_bound_node_spec T l k Hwf) as (r & Hlb & Hr).
  exists r, l. split; [done|]. split; [by apply wf_inorder|].
  destruct r as [x|].
  - destruct Hr as (l1 & kx & vx & l2 & -> & Hlt & Hge & Hkey & Hval & _).
    exists kx, vx. do 2 (split; [done|]).
    split; [apply elem_of_app; right; apply list_elem_of_here|]. split; [done|].
    intros kv Hin Hkv. apply elem_of_app in Hin as [Hin|Hin].
    + apply (proj1 (Forall_forall _ _) Hlt) in Hin. unfold klt in Hin. congruence.
    + apply elem_of_cons in Hin as [->|Hin]; [apply key_ltb_irrefl|].
      pose proof (ksorted_after _ _ _ _ Hs Hin) as Hlt'. simpl in Hlt'.
      destruct (key_ltb kv.1 kx) eqn:Hc; [|done]. by destruct (klt_asym _ _ Hlt').
  - intros kv Hin. by apply (proj1 (Forall_forall _ _) Hr).
Qed.

(** X12: in a tree built by [insert] and [delete] calls, [_successor] of
    the node that [search_node k] finds returns the node with the least
    key above [k], and [None] when [k] is the greatest key. *)
Theorem successor_least_greater (ops : list (tree_op K V)) T k x :
  run_ops RBTree_init ops = Some T → search_node T k = Some (Some x) →
  ∃ r l, _successor T x = Some r ∧ inorder T = Some l ∧
    match r with
    | None => ∀ kv, kv ∈ l → key_ltb k kv.1 = false
    | Some y =>
      ∃ ky vy, key_of T y = Some ky ∧ value_of T y = Some vy ∧ (ky, vy) ∈ l ∧
               key_ltb k ky = true ∧
               ∀ kv, kv ∈ l → key_ltb k kv.1 = true → key_ltb kv.1 ky = false
    end.
Proof.
  intros Hrun Hsearch. destruct (run_ops_wf ops T Hrun) as (l & Hwf).
  destruct (wf_positions T l Hwf) as (np & t0 & HR & Hel & Hs).
  destruct (search_node_zpos T np t0 k x HR Hsearch) as (z & v & Hz & <- & Hkv).
  destruct (successor_node_spec T np t0 z Hz) as (r & Hsucc & Hr).
  destruct (zpos_entry T np t0 z Hz) as (k0 & v0 & Hkv0 & _ & _ & Hsplit).
  rewrite Hkv in Hkv0. injection Hkv0 as <- <-. rewrite Hel in Hsplit.
  exists r, l. split; [done|]. split; [by apply wf_inorder|].
  assert (∀ kv, kv ∈ zbefore z ++ [(k, v)] → key_ltb k kv.1 = false) as Hbefore.
  { intros kv Hin. apply elem_of_app in Hin as [Hin|Hin].
    - rewrite Hsplit in Hs. pose proof (ksorted_before _ _ _ _ Hs Hin) as Hlt.
      simpl in Hlt. destruct (key_ltb k kv.1) eqn:Hc; [|done].
      by destruct (klt_asym _ _ Hlt).
    - apply list_elem_of_singleton in Hin as ->. apply key_ltb_irrefl. }
  destruct r as [y|].
  - destruct Hr as (z' & kv0 & [ky vy] & Hz' & <- & Hkv0 & Hkv' & Hb' & Ha').
    rewrite Hkv in Hkv0. injection Hkv0 as <-.
    destruct (zpos_entry T np t0 z' Hz') as (ky' & vy' & Hkv'' & Hkey & Hval & Hsplit').
    rewrite Hkv' in Hkv''. injection Hkv'' as <- <-. rewrite Hel, Hb' in Hsplit'.
    exists ky, vy. do 2 (split; [done|]).
    split; [rewrite Hsplit'; apply elem_of_app; right; apply list_elem_of_here|].
    rewrite Hsplit' in Hs. split.
    + apply (ksorted_before _ _ _ (k, v) Hs). apply elem_of_app. right.
      apply list_elem_of_here.
    + intros kv Hin Hgt. rewrite Hsplit' in Hin. apply elem_of_app in Hin as [Hin|Hin].
      * rewrite (Hbefore kv Hin) in Hgt. done.
      * apply elem_of_cons in Hin as [->|Hin]; [apply key_ltb_irrefl|].
        pose proof (ksorted_after _ _ _ _ Hs Hin) as Hlt'. simpl in Hlt'.
        destruct (key_ltb kv.1 ky) eqn:Hc; [|done]. by destruct (klt_asym _ _ Hlt').
  - intros kv Hin. rewrite Hsplit, Hr in Hin. by apply Hbefore.
Qed.

(** X13: in a non-empty tree built by [insert] and [delete] calls,
    [_minimum] of the root returns the node that holds the first entry
    that [inorder] yields. *)
Theorem minimum_is_first_entry (ops : list (tree_op K V)) T :
  run_ops RBTree_init ops = Some T → root T ≠ NIL →
  ∃ m k v l, _minimum (length (heap T)) T (root T) = Some m ∧
             key_of T m = Some k ∧ value_of T m = Some v ∧
             inorder T = Some ((k, v) :: l).
Proof.
  intros Hrun Hroot. destruct (run_ops_wf ops T Hrun) as (l & Hwf).
  destruct (wf_positions T l Hwf) as (np & t0 & HR & Hel & Hs).
  rewrite (Rep_root _ _ _ HR) in Hroot |- *.
  assert (t0 ≠ E) as Hne by (by intros ->).
  destruct (minimum_spec (length (heap T)) T np [] t0 HR Hne) as [Hmin HRm].
  { pose proof (Rep_size _ _ _ _ HR). lia. }
  pose proof (descend_min_plug [] t0) as Hp.
  pose proof (descend_min_before [] t0) as Hb.
  destruct (descend_min_shape [] t0 Hne) as (co & m & k & v & r & Hm).
  destruct (descend_min [] t0) as [c t]. simpl in *. subst t.
  exists m, k, v, (elements r ++ cafter c). split; [done|].
  split; [by apply (Rep_key _ _ _ _ _ _ _ _ _ HRm)|].
  split; [by apply (Rep_value _ _ _ _ _ _ _ _ _ HRm)|].
  rewrite (wf_inorder T l Hwf). f_equal. rewrite <- Hel, <- Hp, elements_plug, Hb. done.
Qed.

End WalkOrder.

Lemma lower_bound_node_least_geq_witness :
  run_ops RBTree_init demo_tree_ops = Some demo_tree ∧
  ∃ r l, lower_bound_node demo_tree 2%Z = Some r ∧ inorder demo_tree = Some l ∧
    match r with
    | None => ∀ kv, kv ∈ l → key_ltb kv.1 2%Z = true
    | Some x =>
      ∃ kx vx, key_of demo_tree x = Some kx ∧ value_of demo_tree x = Some vx ∧
               (kx, vx) ∈ l ∧ key_ltb kx 2%Z = false ∧
               ∀ kv, kv ∈ l → key_ltb kv.1 2%Z = false → key_ltb kv.1 kx = false
    end.
Proof.
  split; [exact demo_tree_run|].
  exact (lower_bound_node_least_geq demo_tree_ops demo_tree 2%Z demo_tree_run).
Defined.

Lemma successor_least_greater_witness :
  run_ops RBTree_init demo_tree_ops = Some demo_tree ∧
  search_node demo_tree 1%Z = Some (Some 2) ∧
  ∃ r l, _successor demo_tree 2 = Some r ∧ inorder demo_tree = Some l ∧
    match r with
    | None => ∀ kv, kv ∈ l → key_ltb 1%Z kv.1 = false
    | Some y =>
      ∃ ky vy, key_of demo_tree y = Some ky ∧ value_of demo_tree y = Some vy ∧
               (ky, vy) ∈ l ∧ key_ltb 1%Z ky = true ∧
               ∀ kv, kv ∈ l → key_ltb 1%Z kv.1 = true → key_ltb kv.1 ky = false
    end.
Proof.
  assert (search_node demo_tree 1%Z = Some (Some 2)) as H2 by (vm_compute; reflexivity).
  split; [exact demo_tree_run|]. split; [exact H2|].
  exact (successor_least_greater demo_tree_ops demo_tree 1%Z 2 demo_tree_run H2).
Defined.

Lemma minimum_is_first_entry_witness :
  run_ops RBTree_init demo_tree_ops = Some demo_tree ∧ root demo_tree ≠ NIL ∧
  ∃ m k v l, _minimum (length (heap demo_tree)) demo_tree (root demo_tree) = Some m ∧
             key_of demo_tree m = Some k ∧ value_of demo_tree m = Some v ∧
             inorder demo_tree = Some ((k, v) :: l).
Proof.
  assert (root demo_tree ≠ NIL) as H2 by (vm_compute; discriminate).
  split; [exact demo_tree_run|]. split; [exact H2|].
  exact (minimum_is_first_entry demo_tree_ops demo_tree demo_tree_run H2).
Defined.

(** * The title searches *)

Section TitleSearches.
Context {pystr : PyStr}.

(** Prefixes and the order on strings. *)
Lemma string_ltb_nil_r s : string_ltb s EmptyString = false.
Proof. by destruct s. Qed.

Lemma prefix_not_ltb p s : String.prefix p s = true → string_ltb s p = false.
Proof.
  revert s. induction p as [|a p IH]; intros s Hp; [apply string_ltb_nil_r|].
  destruct s as [|b s]; [done|]. simpl in Hp. destruct (ascii_dec a b) as [<-|]; [|done].
  simpl. rewrite N.ltb_irrefl. by apply IH.
Qed.

Lemma prefix_between p s1 s2 :
  string_ltb s1 p = false → string_ltb s2 s1 = false →
  String.prefix p s2 = true → String.prefix p s1 = true.
Proof.
  revert s1 s2. induction p as [|a p IH]; intros s1 s2 H1 H2 Hp.
  - by destruct s1.
  - destruct s2 as [|b s2]; [done|]. simpl in Hp.
    destruct (ascii_dec a b) as [<-|]; [|done].
    destruct s1 as [|c s1]; [done|]. simpl in H1, H2 |- *.
    destruct (N.ltb_spec (N_of_ascii c) (N_of_ascii a)) as [|Hca]; [done|].
    destruct (N.ltb_spec (N_of_ascii a) (N_of_ascii c)) as [|Hac]; [done|].
    assert (a = c) as <-.
    { rewrite <- (ascii_N_embedding a), <- (ascii_N_embedding c). f_equal. lia. }
    destruct (ascii_dec a a); [|done]. by apply (IH s1 s2).
Qed.

(** What the [while node:] walk collects from a list of entries. *)
Fixpoint scan_list (continue_ : string → bool) (l : list (title_key * Book)) : list Book :=
  match l with
  | [] => []
  | kv :: l => if continue_ kv.1.1 then kv.2 :: scan_list continue_ l else []
  end.

Lemma filter_none {A} (P : A → Prop) `{∀ x, Decision (P x)} (l : list A) :
  Forall (λ x, ¬ P x) l → filter P l = [].
Proof.
  induction 1 as [|x l Hx Hl IH]; [done|]. rewrite filter_cons. by case_decide.
Qed.

Lemma length_elements {K V} (t : tree K V) : length (elements t) = tsize t.
Proof.
  induction t as [|co l IHl a k v r IHr]; [done|]. simpl.
  rewrite length_app. simpl. lia.
Qed.

(** A walk that stops at the first entry that fails a test collects the
    entries that pass it, when no entry passes after one that fails. *)
Lemma scan_list_filter continue_ (l : list (title_key * Book)) :
  ksorted l →
  (∀ kv kv', kv ∈ l → kv' ∈ l → klt kv.1 kv'.1 →
             continue_ kv.1.1 = false → continue_ kv'.1.1 = false) →
  scan_list continue_ l = (filter (λ kv, continue_ kv.1.1 = true) l).*2.
Proof.
  induction l as [|kv l IH]; intros Hs Hmono; [done|].
  destruct Hs as [Hgt Hs]. simpl. rewrite filter_cons.
  destruct (continue_ kv.1.1) eqn:Hc.
  - rewrite decide_True by done. simpl. f_equal. apply IH; [done|].
    intros kv1 kv2 H1 H2. apply Hmono; by apply list_elem_of_further.
  - case_decide as Hd; [unfold title_key in *; congruence|]. rewrite filter_none; [done|].
    apply Forall_forall. intros kv' Hin.
    rewrite (Hmono kv kv'); [done|apply list_elem_of_here|by apply list_elem_of_further| |done].
    by apply (proj1 (Forall_forall _ _) Hgt).
Qed.

Lemma title_scan_spec fuel (T : RBTree title_key Book) np t0 continue_ z res kv :
  zpos T np t0 z → zentry z = Some kv → length (zafter z) + 2 ≤ fuel →
  title_scan fuel T continue_ (Some (zaddr z)) res =
    Some (res ++ scan_list continue_ (kv :: zafter z)).
Proof.
  revert z res kv. induction fuel as [|fuel IH]; intros z res kv Hz Hkv Hfuel; [lia|].
  destruct (zpos_entry T np t0 z Hz) as (k & v & Hkv' & Hkey & Hval & _).
  rewrite Hkv in Hkv'. injection Hkv' as ->.
  cbn [title_scan scan_list]. rewrite Hkey. cbn [mbind option_bind fst snd].
  destruct (continue_ k.1); [|by rewrite app_nil_r].
  rewrite Hval. cbn [mbind option_bind].
  destruct (successor_node_spec T np t0 z Hz) as (r & -> & Hr). cbn [mbind option_bind].
  destruct r as [y|].
  - destruct Hr as (z' & kv0 & kv1 & Hz' & <- & _ & Hkv1 & _ & Ha).
    rewrite Ha in Hfuel |- *. simpl in Hfuel.
    rewrite (IH z' (res ++ [v]) kv1 Hz' Hkv1) by lia. by rewrite <- app_assoc.
  - rewrite Hr. destruct fuel as [|fuel]; [lia|]. done.
Qed.

(** The two searches, up to the test on the title: the walk starts at the
    first entry whose key is not below the anchor. *)
Lemma title_search_spec C lid lt tkey continue_ :
  cat_inv C lid lt →
  ∃ l1 l2,
    lt = l1 ++ l2 ∧ keys_lt l1 (tkey, (- sys_maxsize)%Z) ∧
    Forall (λ kv, key_ltb kv.1 (tkey, (- sys_maxsize)%Z) = false) l2 ∧
    (node ← lower_bound_node (by_title C) (tkey, (- sys_maxsize)%Z);
     title_scan (length (heap (by_title C))) (by_title C) continue_ node [])
      = Some (scan_list continue_ l2).
Proof.
  intros (_ & Ht & _). pose proof (wf_sorted _ _ Ht) as Hs.
  destruct (lower_bound_node_spec (by_title C) lt (tkey, (- sys_maxsize)%Z) Ht)
    as (r & -> & Hr). cbn [mbind option_bind].
  destruct r as [x|].
  - destruct Hr as (l1 & kx & vx & l2 & -> & Hlt & Hge & _ & _ & np & t0 & z & Hz & <- &
                    Hel & Hb & Ha).
    exists l1, ((kx, vx) :: l2). split; [done|]. split; [done|]. split.
    + constructor; [done|]. apply Forall_forall. intros kv Hin.
      pose proof (ksorted_after _ _ _ _ Hs Hin) as Hlt'. simpl in Hlt'.
      destruct (key_ltb kv.1 (tkey, (- sys_maxsize)%Z)) eqn:Hc; [|done].
      pose proof (klt_trans _ _ _ Hlt' Hc) as Hbad. unfold klt in Hbad. congruence.
    + destruct (zpos_entry _ _ _ _ Hz) as (k' & v' & Hkv & _ & _ & Hsplit).
      rewrite Hel, Hb, Ha in Hsplit. apply app_inv_head in Hsplit.
      injection Hsplit as <- <-.
      rewrite (title_scan_spec _ _ np t0 continue_ z [] (kx, vx) Hz Hkv); [by rewrite Ha|].
      destruct Hz as (HR & Hp & _). apply Rep_plug in HR. rewrite Hp in HR.
      pose proof (Rep_size _ _ _ _ HR) as Hsz. rewrite <- length_elements, Hel in Hsz.
      rewrite length_app in Hsz. simpl in Hsz. rewrite Ha. lia.
  - exists lt, []. rewrite app_nil_r. split; [done|]. split; [done|]. split; [constructor|].
    destruct Ht as (np & t & HR & _). pose proof (Rep_size _ _ _ _ HR).
    destruct (length (heap (by_title C))); [lia|]. done.
Qed.

Lemma anchor_below (k : title_key) tkey :
  klt k (tkey, (- sys_maxsize)%Z) → (- sys_maxsize ≤ k.2)%Z →
  string_ltb k.1 tkey = true.
Proof.
  intros Hlt Hid. apply title_key_klt in Hlt as [?|[_ Hlt]]; [done|]. simpl in Hlt. lia.
Qed.

Lemma anchor_not_below (k : title_key) tkey :
  key_ltb k (tkey, (- sys_maxsize)%Z) = false → string_ltb k.1 tkey = false.
Proof.
  unfold key_ltb. simpl. unfold title_key_ltb. simpl. case_bool_decide as Heq; [|done].
  intros _. rewrite Heq. apply string_ltb_irrefl.
Qed.

Lemma title_key_klt_title (k k' : title_key) : klt k k' → string_ltb k'.1 k.1 = false.
Proof.
  intros Hlt. apply title_key_klt in Hlt as [Hlt|[-> _]]; [|apply string_ltb_irrefl].
  destruct (string_ltb k'.1 k.1) eqn:Hc; [|done].
  pose proof (string_ltb_trans _ _ _ Hlt Hc) as Hbad. by rewrite string_ltb_irrefl in Hbad.
Qed.

Lemma filter_title_entries (continue_ : string → bool) (l : list (title_key * Book)) :
  (∀ kv, kv ∈ l → kv.1 = title_key_of kv.2) →
  (filter (λ kv, continue_ kv.1.1 = true) l).*2 =
  filter (λ b, continue_ (lower (title b)) = true) l.*2.
Proof.
  induction l as [|[key b] l IH]; intros Hl; [done|].
  pose proof (Hl (key, b) (list_elem_of_here _ _)) as Hk. simpl in Hk. subst key.
  rewrite fmap_cons, !filter_cons. simpl.
  rewrite <- IH by (intros kv' Hin; by apply Hl, list_elem_of_further).
  by case_decide.
Qed.

(** With every identifier at or above [-sys.maxsize], the walk from the
    anchor [(tkey, -sys.maxsize)] collects every record that passes a test
    on the lower-cased title, in title order, when the titles that pass
    are not below [tkey] and form an interval in the order on strings that
    starts at [tkey]. *)
Lemma title_search_filter C lid lt tkey continue_ :
  cat_inv C lid lt →
  Forall (λ b, (- sys_maxsize ≤ book_id b)%Z) lid.*2 →
  (∀ s, continue_ s = true → string_ltb s tkey = false) →
  (∀ s s', string_ltb s tkey = false → string_ltb s' s = false →
           continue_ s' = true → continue_ s = true) →
  (node ← lower_bound_node (by_title C) (tkey, (- sys_maxsize)%Z);
   title_scan (length (heap (by_title C))) (by_title C) continue_ node [])
    = Some (filter (λ b, continue_ (lower (title b)) = true) lt.*2).
Proof.
  intros Hinv Hids Hge Hbetween.
  destruct (title_search_spec C lid lt tkey continue_ Hinv)
    as (l1 & l2 & Hlt & Hl1 & Hl2 & ->).
  pose proof Hinv as (_ & Ht & _ & Hrel). pose proof (wf_sorted _ _ Ht) as Hs.
  assert (∀ kv, kv ∈ lt → kv.1 = title_key_of kv.2) as Hkeys.
  { intros [key b] Hin. by apply Hrel in Hin as [_ ->]. }
  assert (∀ kv, kv ∈ lt → (- sys_maxsize ≤ kv.1.2)%Z) as Hidk.
  { intros [key b] Hin. pose proof (Hkeys _ Hin) as Hk. simpl in Hk. subst key. simpl.
    apply (proj1 (Forall_forall _ _) Hids).
    apply (cat_inv_by_id_elem _ _ _ b Hinv), (cat_inv_by_title_elem _ _ _ b Hinv).
    apply list_elem_of_fmap. by exists (title_key_of b, b). }
  f_equal. rewrite <- filter_title_entries by done. subst lt.
  rewrite filter_app, fmap_app. rewrite (filter_none _ l1); simpl.
  - apply ksorted_app in Hs as (_ & Hs2 & _). apply scan_list_filter; [done|].
    intros kv kv' Hin Hin' Hlt Hc. destruct (continue_ kv'.1.1) eqn:Hc'; [|done].
    rewrite (Hbetween kv.1.1 kv'.1.1) in Hc; [done| | |done].
    + apply anchor_not_below. by apply (proj1 (Forall_forall _ _) Hl2).
    + by apply title_key_klt_title.
  - apply Forall_forall. intros kv Hin Hc. apply Hge in Hc.
    assert (string_ltb kv.1.1 tkey = true) as Hb.
    { apply anchor_below; [by apply (proj1 (Forall_forall _ _) Hl1)|].
      apply Hidk. apply elem_of_app. by left. }
    unfold title_key in *. congruence.
Qed.

(** X14: in a reachable catalog whose identifiers are all at least
    [-sys.maxsize], [search_by_title_exact t] returns exactly the records
    of [list_all_by_title] whose lower-cased title is the lower-cased [t],
    in the order of that listing. *)
Theorem search_by_title_exact_all_matches (ops : list cat_op) C t byid :
  run_cat LibraryCatalog_init ops = Some C →
  list_all_by_id C = Some byid →
  Forall (λ b, (- sys_maxsize ≤ book_id b)%Z) byid →
  ∃ bytitle,
    list_all_by_title C = Some bytitle ∧
    search_by_title_exact C t =
      Some (filter (λ b, lower (title b) = lower t) bytitle).
Proof.
  intros Hrun Hl Hids. destruct (reachable_cat_inv ops C Hrun) as (lid & lt & Hinv).
  destruct (cat_inv_listings _ _ _ Hinv) as [Hl1 Hl2].
  rewrite Hl1 in Hl. injection Hl as <-.
  exists lt.*2. split; [done|]. unfold search_by_title_exact. cbv zeta.
  rewrite (title_search_filter C lid lt (lower t) _ Hinv Hids).
  - f_equal. apply list_filter_iff. intros b. by rewrite bool_decide_eq_true.
  - intros s Hs. apply bool_decide_eq_true in Hs as ->. apply string_ltb_irrefl.
  - intros s s' H1 H2 Hs'. apply bool_decide_eq_true in Hs' as ->.
    apply bool_decide_eq_true. by apply string_ltb_total.
Qed.

(** X15: in a reachable catalog whose identifiers are all at least
    [-sys.maxsize], [search_by_title_prefix p] returns exactly the records
    of [list_all_by_title] whose lower-cased title starts with the
    lower-cased [p], in the order of that listing. *)
Theorem search_by_title_prefix_all_matches (ops : list cat_op) C p byid :
  run_cat LibraryCatalog_init ops = Some C →
  list_all_by_id C = Some byid →
  Forall (λ b, (- sys_maxsize ≤ book_id b)%Z) byid →
  ∃ bytitle,
    list_all_by_title C = Some bytitle ∧
    search_by_title_prefix C p =
      Some (filter (λ b, startswith (lower (title b)) (lower p) = true) bytitle).
Proof.
  intros Hrun Hl Hids. destruct (reachable_cat_inv ops C Hrun) as (lid & lt & Hinv).
  destruct (cat_inv_listings _ _ _ Hinv) as [Hl1 Hl2].
  rewrite Hl1 in Hl. injection Hl as <-.
  exists lt.*2. split; [done|]. unfold search_by_title_prefix. cbv zeta.
  rewrite (title_search_filter C lid lt (lower p) _ Hinv Hids); [done| |].
  - intros s Hs. by apply prefix_not_ltb.
  - intros s s' H1 H2 Hs'. by apply (prefix_between (lower p) s s').
Qed.

End TitleSearches.

Section TitleSearchExamples.
#[local] Existing Instance ascii_PyStr.

Lemma search_by_title_exact_all_matches_witness :
  run_cat LibraryCatalog_init demo_ops = Some demo_catalog ∧
  list_all_by_id demo_catalog = Some [dune] ∧
  Forall (λ b, (- sys_maxsize ≤ book_id b)%Z) [dune] ∧
  ∃ bytitle,
    list_all_by_title demo_catalog = Some bytitle ∧
    search_by_title_exact demo_catalog "DUNE" =
      Some (filter (λ b, lower (title b) = lower "DUNE") bytitle).
Proof.
  assert (list_all_by_id demo_catalog = Some [dune]) as H2 by (vm_compute; reflexivity).
  assert (Forall (λ b, (- sys_maxsize ≤ book_id b)%Z) [dune]) as H3.
  { repeat constructor. by vm_compute. }
  split; [exact demo_catalog_run|]. split; [exact H2|]. split; [exact H3|].
  exact (search_by_title_exact_all_matches demo_ops demo_catalog "DUNE" [dune]
           demo_catalog_run H2 H3).
Defined.

Lemma search_by_title_prefix_all_matches_witness :
  run_cat LibraryCatalog_init demo_ops = Some demo_catalog ∧
  list_all_by_id demo_catalog = Some [dune] ∧
  Forall (λ b, (- sys_maxsize ≤ book_id b)%Z) [dune] ∧
  ∃ bytitle,
    list_all_by_title demo_catalog = Some bytitle ∧
    search_by_title_prefix demo_catalog "Du" =
      Some (filter (λ b, startswith (lower (title b)) (lower "Du") = true) bytitle).
Proof.
  assert (list_all_by_id demo_catalog = Some [dune]) as H2 by (vm_compute; reflexivity).
  assert (Forall (λ b, (- sys_maxsize ≤ book_id b)%Z) [dune]) as H3.
  { repeat constructor. by vm_compute. }
  split; [exact demo_catalog_run|]. split; [exact H2|]. split; [exact H3|].
  exact (search_by_title_prefix_all_matches demo_ops demo_catalog "Du" [dune]
           demo_catalog_run H2 H3).
Defined.

End TitleSearchExamples.

(** * Depth of the tree *)

Section Depth.
Context {K V : Type} `{KeyOrd K}.
Implicit Types (T : RBTree K V) (c : ctx K V) (t : tree K V).

(** [node_path T x m]: some path of child links from [x] down to the
    sentinel passes [m] nodes, the sentinel not counted. *)
Inductive node_path (T : RBTree K V) : ptr → nat → Prop :=
| npath_nil : node_path T NIL 0
| npath_left x m : x ≠ NIL → node_path T (left_of T x) m → node_path T x (S m)
| npath_right x m : x ≠ NIL → node_path T (right_of T x) m → node_path T x (S m).

Inductive tpath : tree K V → nat → Prop :=
| tpath_leaf : tpath E 0
| tpath_left co l a k v r m : tpath l m → tpath (N co l a k v r) (S m)
| tpath_right co l a k v r m : tpath r m → tpath (N co l a k v r) (S m).

Lemma node_path_sound T np c t m :
  Rep T np c t → node_path T (addr t) m → tpath t m.
Proof.
  intros HR Hp. remember (addr t) as x eqn:Hx. revert c t HR Hx.
  induction Hp as [|x m Hne Hp IH|x m Hne Hp IH]; intros c t HR Hx.
  - symmetry in Hx. apply (Rep_addr_NIL _ _ _ _ HR) in Hx as ->. constructor.
  - destruct t as [|co l a k v r]; [done|]. simpl in Hx. subst x.
    apply tpath_left. apply (IH (FL co a k v r :: c)); [by apply Rep_down_l|].
    by rewrite (Rep_left _ _ _ _ _ _ _ _ _ HR).
  - destruct t as [|co l a k v r]; [done|]. simpl in Hx. subst x.
    apply tpath_right. apply (IH (FR co l a k v :: c)); [by apply Rep_down_r|].
    by rewrite (Rep_right _ _ _ _ _ _ _ _ _ HR).
Qed.

(** A path has at most two nodes per BLACK node on it. *)
Lemma rbt_tpath n t m :
  rbt n t → tpath t m → m ≤ 2 * n + (if is_red (col t) then 1 else 0).
Proof.
  intros Hn Hp. revert n Hn.
  induction Hp as [|co l a k v r m Hp IH|co l a k v r m Hp IH]; intros n Hn.
  - simpl. lia.
  - destruct co; simpl in Hn |- *.
    + destruct Hn as (Hl & _ & Hn & _). specialize (IH n Hn). rewrite Hl in IH.
      simpl in IH. lia.
    + destruct n as [|n]; [done|]. destruct Hn as [Hn _]. specialize (IH n Hn).
      destruct (is_red (col l)); lia.
  - destruct co; simpl in Hn |- *.
    + destruct Hn as (_ & Hr & _ & Hn). specialize (IH n Hn). rewrite Hr in IH.
      simpl in IH. lia.
    + destruct n as [|n]; [done|]. destruct Hn as [_ Hn]. specialize (IH n Hn).
      destruct (is_red (col r)); lia.
Qed.

(** A tree of black height [n] has at least [2^n - 1] nodes. *)
Lemma rbt_tsize n t : rbt n t → 2 ^ n ≤ tsize t + 1.
Proof.
  revert n. induction t as [|co l IHl a k v r IHr]; intros n Hn.
  - simpl in Hn. subst n. simpl. lia.
  - destruct co; simpl in Hn |- *.
    + destruct Hn as (_ & _ & Hl & Hr). specialize (IHl n Hl). lia.
    + destruct n as [|n]; [done|]. destruct Hn as [Hl Hr].
      specialize (IHl n Hl). specialize (IHr n Hr). rewrite Nat.pow_succ_r'. lia.
Qed.

End Depth.

Section DepthBound.
Context {K V : Type} `{KeyOrdLaws K}.

(** X16: in a tree with [n] keys built by [insert] and [delete] calls, no
    path from the root down to the sentinel passes more than
    [2 * log2 (n + 1)] nodes. *)
Theorem depth_logarithmic (ops : list (tree_op K V)) (T : RBTree K V) :
  run_ops RBTree_init ops = Some T →
  ∃ n, size T = Some n ∧
       ∀ m, node_path T (root T) m → m ≤ 2 * Nat.log2 (n + 1).
Proof.
  intros Hrun. destruct (run_ops_wf ops T Hrun) as (l & Hwf).
  exists (length l). split; [by apply wf_size|].
  destruct Hwf as (np & t & HR & [Hcol [bh Hbh]] & _ & Hel).
  intros m Hm. rewrite (Rep_root _ _ _ HR) in Hm.
  pose proof (rbt_tpath bh t m Hbh (node_path_sound T np [] t m HR Hm)) as Hle.
  rewrite Hcol in Hle. simpl in Hle.
  pose proof (rbt_tsize bh t Hbh) as Hsz.
  rewrite <- length_elements, Hel in Hsz.
  assert (bh ≤ Nat.log2 (length l + 1)); [|lia].
  apply Nat.log2_le_pow2; [lia|done].
Qed.

End DepthBound.

Lemma depth_logarithmic_witness :
  run_ops RBTree_init demo_tree_ops = Some demo_tree ∧
  ∃ n, size demo_tree = Some n ∧
       ∀ m, node_path demo_tree (root demo_tree) m → m ≤ 2 * Nat.log2 (n + 1).
Proof.
  split; [exact demo_tree_run|].
  exact (depth_logarithmic demo_tree_ops demo_tree demo_tree_run).
Defined.

Section SearchSteps.
Context {K V : Type} `{KeyOrdLaws K}.
Implicit Types (T : RBTree K V) (c : ctx K V) (t : tree K V).

Fixpoint theight (t : tree K V) : nat :=
  match t with
  | E => 0
  | N _ l _ _ _ r => S (theight l `max` theight r)
  end.

Lemma rbt_theight n t :
  rbt n t → theight t ≤ 2 * n + (if is_red (col t) then 1 else 0).
Proof.
  revert n. induction t as [|co l IHl a k v r IHr]; intros n Hn.
  - simpl. lia.
  - destruct co; simpl in Hn |- *.
    + destruct Hn as (Hl & Hr & Hnl & Hnr). specialize (IHl n Hnl).
      specialize (IHr n Hnr). rewrite Hl in IHl. rewrite Hr in IHr. simpl in *. lia.
    + destruct n as [|n]; [done|]. destruct Hn as [Hnl Hnr].
      specialize (IHl n Hnl). specialize (IHr n Hnr).
      destruct (is_red (col l)), (is_red (col r)); lia.
Qed.

(** The loop of [search_node] needs one iteration per level. *)
Lemma search_loop_height fuel T np c t k :
  Rep T np c t → theight t < fuel →
  search_loop fuel T k (addr t) =
    Some (match (descend k c t).2 with
          | E => None
          | N _ _ a _ _ _ => Some a
          end).
Proof.
  revert fuel c. induction t as [|co l IHl a k' v r IHr]; intros fuel c HR Hfuel.
  - destruct fuel as [|fuel]; [lia|]. done.
  - destruct fuel as [|fuel]; [lia|]. simpl in Hfuel. simpl.
    rewrite (proj2 (Nat.eqb_neq a NIL) (Rep_addr_ne _ _ _ _ _ _ _ _ _ HR)).
    rewrite (Rep_key _ _ _ _ _ _ _ _ _ HR). simpl.
    rewrite (Rep_left _ _ _ _ _ _ _ _ _ HR), (Rep_right _ _ _ _ _ _ _ _ _ HR).
    case_bool_decide as Hk.
    + subst k'. by rewrite key_ltb_irrefl.
    + destruct (key_ltb k k') eqn:H1.
      * apply (IHl fuel (FL co a k' v r :: c)); [by apply Rep_down_l|lia].
      * destruct (key_ltb k' k) eqn:H2.
        -- apply (IHr fuel (FR co l a k' v :: c)); [by apply Rep_down_r|lia].
        -- destruct Hk. by apply key_ltb_total.
Qed.

(** X17: in a tree with [n] keys built by [insert] and [delete] calls,
    the [while] loop of [search_node] ends within [2 * log2 (n + 1) + 1]
    iterations: run with that bound it gives the result of
    [search_node]. *)
Theorem search_node_logarithmic (ops : list (tree_op K V)) (T : RBTree K V) k :
  run_ops RBTree_init ops = Some T →
  ∃ n, size T = Some n ∧
       search_loop (2 * Nat.log2 (n + 1) + 1) T k (root T) = search_node T k.
Proof.
  intros Hrun. destruct (run_ops_wf ops T Hrun) as (l & Hwf).
  exists (length l). split; [by apply wf_size|].
  destruct Hwf as (np & t & HR & [Hcol [bh Hbh]] & _ & Hel).
  rewrite (search_node_spec _ _ _ _ HR), (Rep_root _ _ _ HR).
  apply search_loop_height with np; [done|].
  pose proof (rbt_theight bh t Hbh) as Hle. rewrite Hcol in Hle. simpl in Hle.
  pose proof (rbt_tsize bh t Hbh) as Hsz.
  rewrite <- length_elements, Hel in Hsz.
  assert (bh ≤ Nat.log2 (length l + 1)); [|lia].
  apply Nat.log2_le_pow2; [lia|done].
Qed.

End SearchSteps.

Lemma search_node_logarithmic_witness :
  run_ops RBTree_init demo_tree_ops = Some demo_tree ∧
  ∃ n, size demo_tree = Some n ∧
       search_loop (2 * Nat.log2 (n + 1) + 1) demo_tree 3%Z (root demo_tree)
         = search_node demo_tree 3%Z.
Proof.
  split; [exact demo_tree_run|].
  exact (search_node_logarithmic demo_tree_ops demo_tree 3%Z demo_tree_run).
Defined.

(** * Rotations *)

Section Rotations.
Context {K V : Type} `{KeyOrdLaws K}.
Implicit Types (T : RBTree K V) (c : ctx K V) (t : tree K V).

Lemma Rep_inorder T np t : Rep T np [] t → inorder T = Some (elements t).
Proof.
  intros HR. unfold inorder. rewrite (Rep_root _ _ _ HR).
  apply inorder_spec with np []; [done|]. pose proof (Rep_size _ _ _ _ HR). lia.
Qed.

(** X18: in a tree built by [insert] and [delete] calls, a rotation at a
    node that the child links reach from the root keeps what [inorder]
    yields.  [_left_rotate x], for [x] with a right child, makes that
    child the parent of [x] and [x] its left child; [_right_rotate x], for
    [x] with a left child, makes that child the parent of [x] and [x] its
    right child. *)
Theorem rotations_keep_inorder (ops : list (tree_op K V)) T x :
  run_ops RBTree_init ops = Some T → reachable T x → x ≠ NIL →
  (right_of T x ≠ NIL →
     inorder (_left_rotate T x) = inorder T ∧
     parent_of (_left_rotate T x) x = right_of T x ∧
     left_of (_left_rotate T x) (right_of T x) = x) ∧
  (left_of T x ≠ NIL →
     inorder (_right_rotate T x) = inorder T ∧
     parent_of (_right_rotate T x) x = left_of T x ∧
     right_of (_right_rotate T x) (left_of T x) = x).
Proof.
  intros Hrun Hreach Hx. destruct (run_ops_wf ops T Hrun) as (l & Hwf).
  destruct Hwf as (np & t & HR & _ & _ & _).
  destruct (reachable_focus T np t x HR Hreach) as (c & t' & HR' & <- & Hp).
  destruct t' as [|cx A x kx vx B]; [done|]. simpl.
  rewrite (Rep_right _ _ _ _ _ _ _ _ _ HR'), (Rep_left _ _ _ _ _ _ _ _ _ HR').
  rewrite (Rep_inorder T np t HR), <- Hp. split.
  - intros HB. destruct B as [|cy B1 y ky vy B2]; [done|]. simpl.
    pose proof (Rep_left_rotate _ _ _ _ _ _ _ _ _ _ _ _ _ _ HR') as HR1.
    split; [|split].
    + rewrite (Rep_inorder _ np _ (proj1 (Rep_plug _ _ _ _) HR1)).
      f_equal. rewrite !elements_plug. cbn [elements]. by lnorm.
    + by rewrite (Rep_parent _ _ _ _ _ _ _ _ _ (Rep_down_l _ _ _ _ _ _ _ _ _ HR1)).
    + by rewrite (Rep_left _ _ _ _ _ _ _ _ _ HR1).
  - intros HA. destruct A as [|cy A1 y ky vy A2]; [done|]. simpl.
    pose proof (Rep_right_rotate _ _ _ _ _ _ _ _ _ _ _ _ _ _ HR') as HR1.
    split; [|split].
    + rewrite (Rep_inorder _ np _ (proj1 (Rep_plug _ _ _ _) HR1)).
      f_equal. rewrite !elements_plug. cbn [elements]. by lnorm.
    + by rewrite (Rep_parent _ _ _ _ _ _ _ _ _ (Rep_down_r _ _ _ _ _ _ _ _ _ HR1)).
    + by rewrite (Rep_right _ _ _ _ _ _ _ _ _ HR1).
Qed.

End Rotations.

(** A tree whose root has two children. *)
Definition full_tree_ops : list (tree_op Z string) :=
  [OpInsert 2%Z "b"%string; OpInsert 1%Z "a"%string; OpInsert 3%Z "c"%string].
Definition full_tree : RBTree Z string :=
  default RBTree_init (run_ops RBTree_init full_tree_ops).

Lemma full_tree_run : run_ops RBTree_init full_tree_ops = Some full_tree.
Proof. vm_compute. reflexivity. Qed.

Lemma rotations_keep_inorder_witness :
  run_ops RBTree_init full_tree_ops = Some full_tree ∧
  reachable full_tree (root full_tree) ∧ root full_tree ≠ NIL ∧
  right_of full_tree (root full_tree) ≠ NIL ∧
  left_of full_tree (root full_tree) ≠ NIL ∧
  (inorder (_left_rotate full_tree (root full_tree)) = inorder full_tree ∧
   parent_of (_left_rotate full_tree (root full_tree)) (root full_tree)
     = right_of full_tree (root full_tree) ∧
   left_of (_left_rotate full_tree (root full_tree))
     (right_of full_tree (root full_tree)) = root full_tree) ∧
  (inorder (_right_rotate full_tree (root full_tree)) = inorder full_tree ∧
   parent_of (_right_rotate full_tree (root full_tree)) (root full_tree)
     = left_of full_tree (root full_tree) ∧
   right_of (_right_rotate full_tree (root full_tree))
     (left_of full_tree (root full_tree)) = root full_tree).
Proof.
  assert (root full_tree ≠ NIL) as H3 by (vm_compute; discriminate).
  assert (right_of full_tree (root full_tree) ≠ NIL) as H4 by (vm_compute; discriminate).
  assert (left_of full_tree (root full_tree) ≠ NIL) as H5 by (vm_compute; discriminate).
  split; [exact full_tree_run|]. split; [apply reach_root|]. split; [exact H3|].
  split; [exact H4|]. split; [exact H5|].
  split.
  - exact (proj1 (rotations_keep_inorder full_tree_ops full_tree (root full_tree)
                    full_tree_run (reach_root full_tree) H3) H4).
  - exact (proj2 (rotations_keep_inorder full_tree_ops full_tree (root full_tree)
                    full_tree_run (reach_root full_tree) H3) H5).
Defined.

(** * Keys and values stay in their nodes *)

Section KeysValues.
Context {K V : Type} `{KeyOrd K}.
Implicit Types (T : RBTree K V) (r : list (option K * option V)).

(** The key and the value of every node of the arena. *)
Definition kvs (T : RBTree K V) : list (option K * option V) :=
  (λ n, (n_key n, n_value n)) <$> heap T.

Lemma kvs_upd f x T :
  (∀ n, n_key (f n) = n_key n ∧ n_value (f n) = n_value n) → kvs (upd f x T) = kvs T.
Proof.
  intros Hf. unfold kvs, upd. simpl. apply list_eq. intros i.
  rewrite !list_lookup_fmap. destruct (decide (x = i)) as [->|Hne].
  - rewrite list_lookup_alter_eq. destruct (heap T !! i) as [n|]; [|done]. simpl.
    by destruct (Hf n) as [-> ->].
  - by rewrite list_lookup_alter_ne.
Qed.

Lemma kvs_lookup T y :
  kvs T !! y = (λ n, (n_key n, n_value n)) <$> heap T !! y.
Proof. apply list_lookup_fmap. Qed.

Lemma kvs_key_value T T' :
  kvs T' = kvs T → ∀ y, key_of T' y = key_of T y ∧ value_of T' y = value_of T y.
Proof.
  intros Heq y. pose proof (f_equal (λ l, l !! y) Heq) as Hy. simpl in Hy.
  rewrite !kvs_lookup in Hy. unfold key_of, value_of.
  destruct (heap T' !! y), (heap T !! y); simpl in *; try done. by injection Hy as -> ->.
Qed.

Lemma kvs_length T T' : kvs T' = kvs T → length (heap T') = length (heap T).
Proof.
  intros Heq. apply (f_equal length) in Heq. unfold kvs in Heq.
  by rewrite !length_fmap in Heq.
Qed.

(** Writes to links, colours and the root. *)
Lemma kvs_set_left r T x p : kvs T = r → kvs (set_left T x p) = r.
Proof. intros <-. by apply kvs_upd. Qed.
Lemma kvs_set_right r T x p : kvs T = r → kvs (set_right T x p) = r.
Proof. intros <-. by apply kvs_upd. Qed.
Lemma kvs_set_parent r T x p : kvs T = r → kvs (set_parent T x p) = r.
Proof. intros <-. by apply kvs_upd. Qed.
Lemma kvs_set_color r T x c : kvs T = r → kvs (set_color T x c) = r.
Proof. intros <-. by apply kvs_upd. Qed.
Lemma kvs_set_root r T p : kvs T = r → kvs (set_root T p) = r.
Proof. by intros <-. Qed.

(** Plumbing for [let], [if] and pairs. *)
Lemma kvs_if r (c : bool) (A B : RBTree K V) :
  kvs A = r → kvs B = r → kvs (if c then A else B) = r.
Proof. by destruct c. Qed.
Lemma kvs_let_tree r (e : RBTree K V) (B : RBTree K V → RBTree K V) :
  kvs e = r → (∀ T1, kvs T1 = r → kvs (B T1) = r) → kvs (let T := e in B T) = r.
Proof. intros He HB. by apply HB. Qed.
Lemma kvs_let_ptr r (e : ptr) (B : ptr → RBTree K V) :
  (∀ p, kvs (B p) = r) → kvs (let p := e in B p) = r.
Proof. intros HB. apply HB. Qed.
Lemma kvsp_if r (c : bool) (A B : RBTree K V * ptr) :
  kvs A.1 = r → kvs B.1 = r → kvs (if c then A else B).1 = r.
Proof. by destruct c. Qed.
Lemma kvsp_let_tree r (e : RBTree K V) (B : RBTree K V → RBTree K V * ptr) :
  kvs e = r → (∀ T1, kvs T1 = r → kvs (B T1).1 = r) → kvs (let T := e in B T).1 = r.
Proof. intros He HB. by apply HB. Qed.
Lemma kvsp_let_ptr r (e : ptr) (B : ptr → RBTree K V * ptr) :
  (∀ p, kvs (B p).1 = r) → kvs (let p := e in B p).1 = r.
Proof. intros HB. apply HB. Qed.
Lemma kvsp_let_pair r (e : RBTree K V * ptr) (B : RBTree K V → ptr → RBTree K V * ptr) :
  kvs e.1 = r → (∀ T1 p, kvs T1 = r → kvs (B T1 p).1 = r) →
  kvs (let '(T, p) := e in B T p).1 = r.
Proof. intros He HB. destruct e as [T1 p]. by apply HB. Qed.
Lemma kvsp_pair r (A : RBTree K V) (p : ptr) : kvs A = r → kvs (A, p).1 = r.
Proof. done. Qed.

End KeysValues.

Ltac kvs_step :=
  first
    [ eassumption
    | apply kvs_set_left | apply kvs_set_right | apply kvs_set_parent
    | apply kvs_set_color | apply kvs_set_root
    | apply kvsp_pair
    | apply kvs_if | apply kvsp_if
    | apply kvsp_let_pair; [|intros ? ? ?]
    | apply kvs_let_tree; [|intros ? ?]
    | apply kvsp_let_tree; [|intros ? ?]
    | apply kvs_let_ptr; intros ?
    | apply kvsp_let_ptr; intros ? ].

Section KeysValuesOps.
Context {K V : Type} `{KeyOrd K}.
Implicit Types (T : RBTree K V) (r : list (option K * option V)).

Lemma kvs_left_rotate r T x : kvs T = r → kvs (_left_rotate T x) = r.
Proof. intros HT. cbv beta delta [_left_rotate]. repeat kvs_step. Qed.

Lemma kvs_right_rotate r T x : kvs T = r → kvs (_right_rotate T x) = r.
Proof. intros HT. cbv beta delta [_right_rotate]. repeat kvs_step. Qed.

Lemma kvs_transplant r T u v : kvs T = r → kvs (_transplant T u v) = r.
Proof. intros HT. cbv beta delta [_transplant]. repeat kvs_step. Qed.

Ltac kvs_ops :=
  first [ kvs_step | apply kvs_left_rotate | apply kvs_right_rotate
        | apply kvs_transplant ].

Lemma kvs_insert_fixup_body r T z : kvs T = r → kvs (_insert_fixup_body T z).1 = r.
Proof. intros HT. cbv beta delta [_insert_fixup_body]. repeat kvs_ops. Qed.

Lemma kvs_insert_fixup r fuel T z T' :
  kvs T = r → _insert_fixup fuel T z = Some T' → kvs T' = r.
Proof.
  revert T z. induction fuel as [|fuel IH]; intros T z HT; [done|]. simpl.
  destruct (is_red (color_of T (parent_of T z))).
  - pose proof (kvs_insert_fixup_body r T z HT) as Hb.
    destruct (_insert_fixup_body T z) as [T1 z1]. by apply IH.
  - intros [= <-]. by apply kvs_set_color.
Qed.

Lemma kvs_delete_fixup_body r T x : kvs T = r → kvs (_delete_fixup_body T x).1 = r.
Proof. intros HT. cbv beta delta [_delete_fixup_body]. repeat kvs_ops. Qed.

Lemma kvs_delete_fixup r fuel T x T' :
  kvs T = r → _delete_fixup fuel T x = Some T' → kvs T' = r.
Proof.
  revert T x. induction fuel as [|fuel IH]; intros T x HT; [done|]. simpl.
  destruct (negb (x =? root T) && negb (is_red (color_of T x))).
  - pose proof (kvs_delete_fixup_body r T x HT) as Hb.
    destruct (_delete_fixup_body T x) as [T1 x1]. by apply IH.
  - intros [= <-]. by apply kvs_set_color.
Qed.

Lemma kvs_splice2 r T z y : kvs T = r → kvs (splice2 T z y) = r.
Proof. intros HT. cbv beta delta [splice2]. repeat kvs_ops. Qed.

Lemma kvs_delete T k T' b : delete T k = Some (T', b) → kvs T' = kvs T.
Proof.
  rewrite delete_eq. destruct (search_node T k) as [[z|]|]; cbn [mbind option_bind];
    [|by intros [= <- _]|done].
  assert (∀ T1 x yoc, kvs T1 = kvs T →
            (if negb (is_red yoc) then _delete_fixup (S (length (heap T1))) T1 x
             else Some T1) ≫= (λ T2, Some (T2, true)) = Some (T', b) →
            kvs T' = kvs T) as Hfin.
  { intros T1 x yoc HT1 Hf. destruct (negb (is_red yoc)).
    - destruct (_delete_fixup _ T1 x) as [T2|] eqn:Hfix; [|done].
      injection Hf as <- _. by apply (kvs_delete_fixup _ _ _ _ _ HT1 Hfix).
    - by injection Hf as <- _. }
  destruct (left_of T z =? NIL); cbn [mbind option_bind].
  { apply Hfin. by apply kvs_transplant. }
  destruct (right_of T z =? NIL); cbn [mbind option_bind].
  { apply Hfin. by apply kvs_transplant. }
  destruct (_minimum (length (heap T)) T (right_of T z)) as [y|]; [|done].
  cbn [mbind option_bind]. apply Hfin. by apply kvs_splice2.
Qed.

Lemma key_of_kvs T y : key_of T y = kvs T !! y ≫= fst.
Proof. unfold key_of. rewrite kvs_lookup. by destruct (heap T !! y). Qed.

Lemma value_of_kvs T y : value_of T y = kvs T !! y ≫= snd.
Proof. unfold value_of. rewrite kvs_lookup. by destruct (heap T !! y). Qed.

(** X19: whenever [delete] returns, every node of the arena holds the key
    and the value it held before: [delete] relinks and recolours nodes, it
    never moves an entry from one node to another. *)
Theorem delete_keeps_keys_values T k T' b :
  delete T k = Some (T', b) →
  length (heap T') = length (heap T) ∧
  ∀ y, key_of T' y = key_of T y ∧ value_of T' y = value_of T y.
Proof.
  intros Hd. apply kvs_delete in Hd. split; [by apply kvs_length|by apply kvs_key_value].
Qed.

End KeysValuesOps.

Section KeysValuesInsert.
Context {K V : Type} `{KeyOrdLaws K}.
Implicit Types (T : RBTree K V).

Lemma insert_descend_inl fuel T k y x a :
  insert_descend fuel T k y x = Some (inl a) → key_of T a = Some k.
Proof.
  revert y x. induction fuel as [|fuel IH]; intros y x; [done|]. simpl.
  destruct (x =? NIL); [done|].
  destruct (key_of T x) as [kx|] eqn:Hkx; [|done]. simpl.
  destruct (key_ltb k kx) eqn:H1; [apply IH|].
  destruct (key_ltb kx k) eqn:H2; [apply IH|].
  intros [= <-]. rewrite Hkx. f_equal. symmetry. by apply key_ltb_total.
Qed.

Lemma kvs_insert_new T k v y T' :
  (let '(T1, node) := alloc T (mkRBNode (Some k) (Some v) NIL NIL NIL RED) in
   let T2 := set_parent T1 node y in
   T3 ← (if y =? NIL then Some (set_root T2 node)
         else ky ← key_of T2 y;
              Some (if key_ltb k ky then set_left T2 y node else set_right T2 y node));
   T4 ← _insert_fixup (length (heap T3)) T3 node;
   Some (T4, node)) = Some (T', length (heap T)) →
  kvs T' = kvs T ++ [(Some k, Some v)].
Proof.
  unfold alloc. cbn beta iota zeta.
  set (r := kvs T ++ [(Some k, Some v)]).
  set (T1 := mkRBTree (heap T ++ [mkRBNode (Some k) (Some v) NIL NIL NIL RED]) (root T)).
  assert (kvs T1 = r) as H1 by (unfold kvs, T1, r; simpl; by rewrite fmap_app).
  assert (kvs (set_parent T1 (length (heap T)) y) = r) as H2 by (by apply kvs_set_parent).
  generalize dependent (set_parent T1 (length (heap T)) y). intros T2 H2.
  destruct (y =? NIL); cbn [mbind option_bind].
  - destruct (_insert_fixup _ _ _) as [T4|] eqn:Hfix; [|done]. intros [= <-].
    apply (kvs_insert_fixup r _ _ _ _ (kvs_set_root r _ _ H2) Hfix).
  - destruct (key_of T2 y) as [ky|]; [|done]. cbn [mbind option_bind].
    destruct (_insert_fixup _ _ _) as [T4|] eqn:Hfix; [|done]. intros [= <-].
    refine (kvs_insert_fixup r _ _ _ _ _ Hfix).
    destruct (key_ltb k ky); [by apply kvs_set_left|by apply kvs_set_right].
Qed.

(** X20: whenever [insert k v] returns a node, that node holds the key
    [k] and the value [v] afterwards, and every other node of the arena
    holds the key and the value it held before. *)
Theorem insert_node_holds_entry T k v T' x :
  insert T k v = Some (T', x) →
  key_of T' x = Some k ∧ value_of T' x = Some v ∧
  ∀ y, y ≠ x → key_of T' y = key_of T y ∧ value_of T' y = value_of T y.
Proof.
  unfold insert.
  destruct (insert_descend (length (heap T)) T k NIL (root T)) as [[a|y]|] eqn:Hd;
    cbn [mbind option_bind]; [| |done].
  - intros [= <- <-]. apply insert_descend_inl in Hd.
    split; [by rewrite (proj1 (set_value_frame T a v a))|].
    split; [by apply set_value_value with k|].
    intros y Hy. destruct (set_value_frame T a v y) as (? & _ & _ & _ & _ & Hv). eauto.
  - intros Hi.
    assert (x = length (heap T)) as ->.
    { unfold alloc in Hi. cbn beta iota zeta in Hi.
      destruct (if y =? NIL then _ else _) as [T3|]; [|done]. cbn [mbind option_bind] in Hi.
      destruct (_insert_fixup _ _ _); [|done]. by injection Hi as _ <-. }
    apply kvs_insert_new in Hi.
    assert (length (kvs T) = length (heap T)) as Hlen by (unfold kvs; by rewrite length_fmap).
    rewrite !key_of_kvs, !value_of_kvs, Hi.
    rewrite <- Hlen, !list_lookup_middle by done. do 2 (split; [done|]).
    intros y' Hy'. rewrite !key_of_kvs, !value_of_kvs, Hi.
    destruct (decide (y' < length (kvs T))) as [Hlt|Hge].
    + by rewrite lookup_app_l.
    + rewrite (lookup_ge_None_2 (kvs T ++ _)), (lookup_ge_None_2 (kvs T)); [done|lia|].
      rewrite length_app. simpl. lia.
Qed.

End KeysValuesInsert.

Definition demo_inserted : RBTree Z string * ptr :=
  default (demo_tree, NIL) (insert demo_tree 5%Z "e"%string).
Definition demo_deleted : RBTree Z string * bool :=
  default (demo_tree, false) (delete demo_tree 3%Z).

Lemma delete_keeps_keys_values_witness :
  delete demo_tree 3%Z = Some (demo_deleted.1, demo_deleted.2) ∧
  length (heap demo_deleted.1) = length (heap demo_tree) ∧
  ∀ y, key_of demo_deleted.1 y = key_of demo_tree y ∧
       value_of demo_deleted.1 y = value_of demo_tree y.
Proof.
  assert (delete demo_tree 3%Z = Some (demo_deleted.1, demo_deleted.2)) as H1
    by (vm_compute; reflexivity).
  split; [exact H1|].
  exact (delete_keeps_keys_values demo_tree 3%Z demo_deleted.1 demo_deleted.2 H1).
Defined.

Lemma insert_node_holds_entry_witness :
  insert demo_tree 5%Z "e"%string = Some (demo_inserted.1, demo_inserted.2) ∧
  key_of demo_inserted.1 demo_inserted.2 = Some 5%Z ∧
  value_of demo_inserted.1 demo_inserted.2 = Some "e"%string ∧
  ∀ y, y ≠ demo_inserted.2 →
       key_of demo_inserted.1 y = key_of demo_tree y ∧
       value_of demo_inserted.1 y = value_of demo_tree y.
Proof.
  assert (insert demo_tree 5%Z "e"%string = Some (demo_inserted.1, demo_inserted.2)) as H1
    by (vm_compute; reflexivity).
  split; [exact H1|].
  exact (insert_node_holds_entry demo_tree 5%Z "e"%string demo_inserted.1 demo_inserted.2 H1).
Defined.

(** * Listings after an update *)

Section ListingsUpdate.
Context {pystr : PyStr}.

(** X21: in a reachable catalog, after [add_book b] both listings hold
    [b] and the records they held before under other identifiers, and
    nothing else. *)
Theorem add_book_listings (ops : list cat_op) C b :
  run_cat LibraryCatalog_init ops = Some C →
  ∃ C' st byid bytitle byid' bytitle',
    add_book C b = Some (C', st) ∧
    list_all_by_id C = Some byid ∧ list_all_by_title C = Some bytitle ∧
    list_all_by_id C' = Some byid' ∧ list_all_by_title C' = Some bytitle' ∧
    (∀ b', b' ∈ byid' ↔ b' = b ∨ (b' ∈ byid ∧ book_id b' ≠ book_id b)) ∧
    (∀ b', b' ∈ bytitle' ↔ b' = b ∨ (b' ∈ bytitle ∧ book_id b' ≠ book_id b)).
Proof.
  intros Hrun. destruct (reachable_cat_inv ops C Hrun) as (lid & lt & Hinv).
  pose proof Hinv as (Hid & _). pose proof (wf_sorted _ _ Hid) as Hs.
  destruct (add_book_spec C lid lt b Hinv) as (C' & lt' & Ha & Hinv').
  destruct (cat_inv_listings _ _ _ Hinv) as [Hl1 Hl2].
  destruct (cat_inv_listings _ _ _ Hinv') as [Hl1' Hl2'].
  eexists C', _, _, _, _, _. split; [exact Ha|]. do 4 (split; [done|]).
  assert (∀ b', (book_id b', b') ∈ l_insert (book_id b) b lid ↔
                b' = b ∨ ((book_id b', b') ∈ lid ∧ book_id b' ≠ book_id b)) as Hmem.
  { intros b'. rewrite elem_of_l_insert by done. simpl. split.
    - intros [[= _ ->]|[? ?]]; [by left|by right].
    - intros [->|[? ?]]; [by left|by right]. }
  split; intros b'.
  - rewrite (cat_inv_by_id_elem _ _ _ b' Hinv'), (cat_inv_by_id_elem _ _ _ b' Hinv).
    apply Hmem.
  - rewrite (cat_inv_by_title_elem _ _ _ b' Hinv'), (cat_inv_by_title_elem _ _ _ b' Hinv).
    apply Hmem.
Qed.

End ListingsUpdate.

Section ListingsUpdateExamples.
#[local] Existing Instance ascii_PyStr.

Lemma add_book_listings_witness :
  run_cat LibraryCatalog_init demo_ops = Some demo_catalog ∧
  ∃ C' st byid bytitle byid' bytitle',
    add_book demo_catalog emma = Some (C', st) ∧
    list_all_by_id demo_catalog = Some byid ∧
    list_all_by_title demo_catalog = Some bytitle ∧
    list_all_by_id C' = Some byid' ∧ list_all_by_title C' = Some bytitle' ∧
    (∀ b', b' ∈ byid' ↔ b' = emma ∨ (b' ∈ byid ∧ book_id b' ≠ book_id emma)) ∧
    (∀ b', b' ∈ bytitle' ↔ b' = emma ∨ (b' ∈ bytitle ∧ book_id b' ≠ book_id emma)).
Proof.
  split; [exact demo_catalog_run|].
  exact (add_book_listings demo_ops demo_catalog emma demo_catalog_run).
Defined.

End ListingsUpdateExamples.

(** * Removing the title entries of an identifier *)

Section RemoveTitleNodes.
Context {pystr : PyStr}.

Lemma cat_inv_title_ids_NoDup C lid lt : cat_inv C lid lt → NoDup lt.*1.*2.
Proof.
  intros Hinv. pose proof Hinv as (Hid & Ht & Hids & Hrel).
  apply NoDup_fmap_2_strong; [|apply ksorted_NoDup_keys, (wf_sorted _ _ Ht)].
  intros k1 k2 Hk1 Hk2 Heq.
  apply list_elem_of_fmap in Hk1 as ([k1' b1] & -> & Hin1). simpl in *.
  pose proof (proj1 (Hrel _ _) Hin1) as [Hb1 Hk1]. subst k1'.
  symmetry. by apply (cat_inv_title_key C lid lt Hinv (book_id b1) b1 k2).
Qed.

Lemma NoDup_all_equal {A} (x : A) (l : list A) :
  NoDup l → Forall (λ y, y = x) l → length l ≤ 1.
Proof.
  intros Hnd Hall. destruct l as [|a [|a' l]]; simpl; [lia..|].
  apply Forall_cons in Hall as [-> Hall]. apply Forall_cons in Hall as [-> _].
  apply NoDup_cons in Hnd as [Hnot _]. destruct Hnot. apply list_elem_of_here.
Qed.

Lemma filter_id_entries (id : Z) (l : list (title_key * Book)) :
  (∀ kv, kv ∈ l → kv.1 = title_key_of kv.2) →
  (filter (λ kv, kv.1.2 ≠ id) l).*2 = filter (λ b, book_id b ≠ id) l.*2.
Proof.
  induction l as [|[key b] l IH]; intros Hl; [done|].
  pose proof (Hl (key, b) (list_elem_of_here _ _)) as Hk. simpl in Hk. subst key.
  rewrite fmap_cons, !filter_cons. simpl.
  rewrite <- IH by (intros kv' Hin; by apply Hl, list_elem_of_further).
  by case_decide.
Qed.

(** X22: in a reachable catalog [_remove_title_nodes_for_id] finds at
    most one key to delete; it leaves the identifier tree as it is, and
    the title listing afterwards is the former one without the records of
    that identifier. *)
Theorem remove_title_nodes_at_most_one (ops : list cat_op) C id :
  run_cat LibraryCatalog_init ops = Some C →
  ∃ lt C' bytitle bytitle',
    inorder (by_title C) = Some lt ∧ length (title_keys_for_id lt id) ≤ 1 ∧
    _remove_title_nodes_for_id C id = Some C' ∧ by_id C' = by_id C ∧
    list_all_by_title C = Some bytitle ∧ list_all_by_title C' = Some bytitle' ∧
    bytitle' = filter (λ b, book_id b ≠ id) bytitle.
Proof.
  intros Hrun. destruct (reachable_cat_inv ops C Hrun) as (lid & lt & Hinv).
  pose proof Hinv as (_ & Ht & _ & Hrel). pose proof (wf_sorted _ _ Ht) as Hs.
  destruct (cat_inv_inorder _ _ _ Hinv) as [_ Hi].
  destruct (cat_inv_listings _ _ _ Hinv) as [_ Hl2].
  destruct C as [Tid Tt]. simpl in *.
  destruct (remove_title_nodes_spec Tid Tt lt id Ht) as (T' & lt' & Hrem & Hwf' & Hin').
  exists lt, (mkCatalog Tid T'), lt.*2, lt'.*2. split; [done|]. split.
  { pose proof (NoDup_all_equal id (title_keys_for_id lt id).*2) as Hlen.
    rewrite length_fmap in Hlen. apply Hlen.
    - unfold title_keys_for_id.
      eapply sublist_NoDup; [by apply (cat_inv_title_ids_NoDup _ _ _ Hinv)|].
      apply fmap_sublist. apply (sublist_filter (λ k : title_key, k.2 = id)).
    - apply Forall_fmap, Forall_forall. intros key Hkey. simpl.
      unfold title_keys_for_id in Hkey. by apply list_elem_of_filter in Hkey as [? _]. }
  do 3 (split; [done|]). split.
  { unfold list_all_by_title. simpl. by rewrite (wf_inorder _ _ Hwf'). }
  assert (lt' = filter (λ kv, kv.1.2 ≠ id) lt) as ->.
  { apply ksorted_ext; [by apply (wf_sorted _ _ Hwf')|by apply ksorted_filter|].
    intros kv. rewrite Hin', list_elem_of_filter. tauto. }
  apply filter_id_entries. intros [key b] Hin. by apply Hrel in Hin as [_ ->].
Qed.

End RemoveTitleNodes.

Section RemoveTitleNodesExamples.
#[local] Existing Instance ascii_PyStr.

Lemma remove_title_nodes_at_most_one_witness :
  run_cat LibraryCatalog_init demo_ops = Some demo_catalog ∧
  ∃ lt C' bytitle bytitle',
    inorder (by_title demo_catalog) = Some lt ∧ length (title_keys_for_id lt 7) ≤ 1 ∧
    _remove_title_nodes_for_id demo_catalog 7 = Some C' ∧
    by_id C' = by_id demo_catalog ∧
    list_all_by_title demo_catalog = Some bytitle ∧
    list_all_by_title C' = Some bytitle' ∧
    bytitle' = filter (λ b, book_id b ≠ 7%Z) bytitle.
Proof.
  split; [exact demo_catalog_run|].
  exact (remove_title_nodes_at_most_one demo_ops demo_catalog 7%Z demo_catalog_run).
Defined.

End RemoveTitleNodesExamples.
